(** * ra: document chunking and dual-granularity retrieval

    A shallow embedding of the text-processing utilities
    ([rag/src/utils/text_processing.py]), of the dual collection store
    ([rag/src/services/vector_store_service.py]) and of the citation
    matcher ([rag/src/api/routes.py]), with the properties the
    specification states about them.

    Conventions.  A Python [str] is a list of characters; the character
    classes ([isspace], [lower], [\d], [\W] ...) are the ASCII ones.  A
    Python [int] is a [Z]; [len] is [Z.of_nat (length _)].  A similarity
    score or a distance is a rational number.  The tokenizer, the embedding
    model and the backing vector index are collaborators outside the
    repository: they are section variables. *)

From Stdlib Require Import Ascii String ZArith QArith Bool Lia.
From Stdlib Require Import Sorting.Sorted Sorting.Permutation List.
Import ListNotations.

Local Open Scope Z_scope.
Local Open Scope list_scope.

(* ================================================================= *)
(** ** Python strings *)

Module PyStr.

Definition str := list ascii.

(** A literal. *)
Definition py (s : string) : str := list_ascii_of_string s.
Arguments py s%_string.

Definition nl : ascii := ascii_of_nat 10.
Definition space : ascii := ascii_of_nat 32.

(** [len(s)] *)
Definition len (s : str) : Z := Z.of_nat (length s).

(** Truth value of a string: non-empty. *)
Definition truthy (s : str) : bool :=
  match s with [] => false | _ :: _ => true end.

Fixpoint str_eqb (a b : str) : bool :=
  match a, b with
  | [], [] => true
  | x :: a', y :: b' => Ascii.eqb x y && str_eqb a' b'
  | _, _ => false
  end.

(** [c.isspace()]: tab, line feed, vertical tab, form feed, carriage
    return, the four separators 28..31 and the blank. *)
Definition is_space (c : ascii) : bool :=
  let n := nat_of_ascii c in
  ((9 <=? n) && (n <=? 13) || (28 <=? n) && (n <=? 32))%nat.

Definition is_digit (c : ascii) : bool :=
  let n := nat_of_ascii c in ((48 <=? n) && (n <=? 57))%nat.

Definition is_upper_c (c : ascii) : bool :=
  let n := nat_of_ascii c in ((65 <=? n) && (n <=? 90))%nat.

Definition is_lower_c (c : ascii) : bool :=
  let n := nat_of_ascii c in ((97 <=? n) && (n <=? 122))%nat.

(** [\w]: a letter, a digit or the underscore; [\W] is its complement. *)
Definition is_word (c : ascii) : bool :=
  is_upper_c c || is_lower_c c || is_digit c || (nat_of_ascii c =? 95)%nat.

Definition is_nonword (c : ascii) : bool := negb (is_word c).

Definition lower_c (c : ascii) : ascii :=
  if is_upper_c c then ascii_of_nat (nat_of_ascii c + 32) else c.

(** [s.lower()] *)
Definition lower (s : str) : str := map lower_c s.

(** [s.isupper()]: some cased character, and no lower-case one. *)
Definition isupper (s : str) : bool :=
  existsb is_upper_c s && negb (existsb is_lower_c s).

Fixpoint drop_while (p : ascii -> bool) (s : str) : str :=
  match s with
  | [] => []
  | c :: s' => if p c then drop_while p s' else s
  end.

Definition lstrip (s : str) : str := drop_while is_space s.
Definition rstrip (s : str) : str := rev (drop_while is_space (rev s)).

(** [s.strip()] *)
Definition strip (s : str) : str := rstrip (lstrip s).

(** [s.split()]: the maximal runs of non-blank characters. *)
Fixpoint split_ws_go (cur : str) (s : str) : list str :=
  match s with
  | [] => if truthy cur then [cur] else []
  | c :: s' =>
      if is_space c
      then (if truthy cur then cur :: split_ws_go [] s' else split_ws_go [] s')
      else split_ws_go (cur ++ [c]) s'
  end.

Definition split_ws (s : str) : list str := split_ws_go [] s.

(** [s.split(c)] for a one-character separator: always at least one piece. *)
Fixpoint split_on_go (sep : ascii) (cur : str) (s : str) : list str :=
  match s with
  | [] => [cur]
  | c :: s' =>
      if Ascii.eqb c sep
      then cur :: split_on_go sep [] s'
      else split_on_go sep (cur ++ [c]) s'
  end.

Definition split_on (sep : ascii) (s : str) : list str := split_on_go sep [] s.

(** [s.split("\n\n")]: the separator is searched from the left, and two
    occurrences do not overlap. *)
Fixpoint split_blank_go (cur : str) (s : str) : list str :=
  match s with
  | [] => [cur]
  | c :: s' =>
      match s' with
      | d :: s'' =>
          if Ascii.eqb c nl && Ascii.eqb d nl
          then cur :: split_blank_go [] s''
          else split_blank_go (cur ++ [c]) s'
      | [] => [cur ++ [c]]
      end
  end.

Definition split_blank (s : str) : list str := split_blank_go [] s.

(** [s.startswith(p)] *)
Fixpoint startswith (s p : str) : bool :=
  match p with
  | [] => true
  | a :: p' =>
      match s with
      | c :: s' => Ascii.eqb c a && startswith s' p'
      | [] => false
      end
  end.

(** [sep.join(l)] *)
Fixpoint join (sep : str) (l : list str) : str :=
  match l with
  | [] => []
  | x :: rest =>
      match rest with
      | [] => x
      | _ :: _ => x ++ sep ++ join sep rest
      end
  end.

(** [s.rfind(c)]: the index of the last occurrence, [-1] when there is
    none. *)
Fixpoint rfind_go (c : ascii) (s : str) (i : Z) (found : Z) : Z :=
  match s with
  | [] => found
  | x :: s' => rfind_go c s' (i + 1) (if Ascii.eqb x c then i else found)
  end.

Definition rfind (c : ascii) (s : str) : Z := rfind_go c s 0 (-1).

(** A slice bound, as Python normalises it: a negative bound counts from
    the end, and the result is clipped to [0 .. len]. *)
Definition slice_bound (n : Z) (i : Z) : nat :=
  Z.to_nat (if i <? 0 then Z.max 0 (i + n) else Z.min i n).

(** [s[a:b]] *)
Definition slice (s : str) (a b : Z) : str :=
  let lo := slice_bound (len s) a in
  let hi := slice_bound (len s) b in
  firstn (hi - lo) (skipn lo s).

(** [s[:b]] *)
Definition slice_to (s : str) (b : Z) : str := slice s 0 b.

(** [l[a:]] on a list *)
Definition list_slice_from {A} (l : list A) (a : Z) : list A :=
  skipn (slice_bound (Z.of_nat (length l)) a) l.

(** [l[-1] = x] on a non-empty list *)
Definition set_last {A} (l : list A) (x : A) : list A := removelast l ++ [x].

End PyStr.
Import PyStr.

(* ================================================================= *)
(** ** Regular expressions of [text_processing.py]

    Matchers in continuation style: a matcher takes what must match the
    rest of the pattern and the remaining input, and says whether some
    way of matching succeeds, which is what a backtracking engine
    answers. *)

Module Regex.

Definition matcher := str -> bool.

(** [p*] then [k] *)
Fixpoint re_star (p : ascii -> bool) (k : matcher) (s : str) : bool :=
  match s with
  | c :: s' => (p c && re_star p k s') || k s
  | [] => k []
  end.

(** [p+] then [k] *)
Definition re_plus (p : ascii -> bool) (k : matcher) (s : str) : bool :=
  match s with
  | c :: s' => p c && re_star p k s'
  | [] => false
  end.

(** The literal [w] (escaped), ignoring case, then [k] *)
Fixpoint re_lit (w : str) (k : matcher) (s : str) : bool :=
  match w with
  | [] => k s
  | a :: w' =>
      match s with
      | c :: s' => Ascii.eqb (lower_c a) (lower_c c) && re_lit w' k s'
      | [] => false
      end
  end.

(** [(\s|$)]: a blank, or the end of the input (also just before one
    final line feed). *)
Definition re_space_or_end (s : str) : bool :=
  match s with
  | [] => true
  | c :: s' => is_space c || (Ascii.eqb c nl && negb (truthy s'))
  end.

(** [r'\W+'.join(map(re.escape, words))] then [k] *)
Fixpoint re_words (words : list str) (k : matcher) : matcher :=
  match words with
  | [] => k
  | w :: rest =>
      match rest with
      | [] => re_lit w k
      | _ :: _ => re_lit w (re_plus is_nonword (re_words rest k))
      end
  end.

(** [re.match(r'^\s*\d+\W*' + r'\W+'.join(...) + r'(\s|$)', s)] *)
Definition numbered_header (header_words : list str) (s : str) : bool :=
  re_star is_space
    (re_plus is_digit
       (re_star is_nonword (re_words header_words re_space_or_end))) s.

End Regex.
Import Regex.

(* ================================================================= *)
(** ** text_processing.py *)

Module TextProcessing.

Record ChunkingConfig := {
  min_tokens : Z;
  max_tokens : Z;
  overlap_tokens : Z;
  tokenizer_model : str;
  section_headers : list str
}.

(** [is_section_header] *)
Definition is_section_header (text : str) (section_headers : list str) : bool :=
  let text_stripped := strip text in
  let text_lower := lower text_stripped in
  if existsb (str_eqb text_lower) section_headers then true
  else if existsb (fun header =>
                     numbered_header (split_ws (lower header)) text_lower)
                  section_headers then true
  else if isupper text_stripped
          && (Z.of_nat (length (split_ws text_stripped)) <=? 5) then true
  else false.

(** The loop of [split_into_sections]: the sections closed so far, the
    label of the running section and its lines. *)
Definition sections_step (section_headers : list str)
    (st : list (str * str) * str * list str) (line : str)
    : list (str * str) * str * list str :=
  let '(sections, current_section, current_content) := st in
  let line := strip line in
  if negb (truthy line) then st
  else if is_section_header line section_headers then
    ((match current_content with
      | [] => sections
      | _ :: _ => sections ++ [(current_section, join [nl] current_content)]
      end),
     line, [])
  else (sections, current_section, current_content ++ [line]).

(** [split_into_sections] *)
Definition split_into_sections (text : str) (section_headers : list str)
    : list (str * str) :=
  let lines := split_on nl text in
  let '(sections, current_section, current_content) :=
    fold_left (sections_step section_headers) lines ([], py "Unknown", []) in
  let sections :=
    match current_content with
    | [] => sections
    | _ :: _ => sections ++ [(current_section, join [nl] current_content)]
    end in
  match sections with
  | [] => [(py "Content", strip text)]
  | _ :: _ => sections
  end.

(** [split_into_paragraphs] *)
Definition split_into_paragraphs (text : str) : list str :=
  let paragraphs :=
    map strip (filter (fun p => truthy (strip p)) (split_blank text)) in
  match paragraphs with
  | [] => map strip (filter (fun p => truthy (strip p)) (split_on nl text))
  | _ :: _ => paragraphs
  end.

Section Tokenizer.

(** The tokenizer library: absent ([None], the import fails), or a table
    from model names to encoders, where a model may be unknown ([None],
    a [KeyError]).  An encoder maps a text to its token ids. *)
Variable tiktoken : option (str -> option (str -> list Z)).

(** [count_tokens]: the length of the encoding, or the number of words
    when the encoder cannot be had. *)
Definition count_tokens (text : str) (model : str) : Z :=
  match tiktoken with
  | Some encoding_for_model =>
      match encoding_for_model model with
      | Some encode => Z.of_nat (length (encode text))
      | None => Z.of_nat (length (split_ws text))
      end
  | None => Z.of_nat (length (split_ws text))
  end.

(** The first loop of [merge_paragraphs_semantically]: the chunks closed
    so far, the running chunk and its running token total. *)
Definition merge_step (config : ChunkingConfig)
    (st : list str * str * Z) (paragraph : str) : list str * str * Z :=
  let '(chunks, current_chunk, current_tokens) := st in
  let paragraph_tokens := count_tokens paragraph (tokenizer_model config) in
  if (current_tokens + paragraph_tokens >? max_tokens config)
     && truthy current_chunk
  then (chunks ++ [strip current_chunk], paragraph, paragraph_tokens)
  else
    ((chunks,
      if truthy current_chunk
      then current_chunk ++ [nl; nl] ++ paragraph
      else paragraph),
     current_tokens + paragraph_tokens).

(** The chunks before the post-pass. *)
Definition greedy_chunks (config : ChunkingConfig) (paragraphs : list str)
    : list str :=
  let '(chunks, current_chunk, _) :=
    fold_left (merge_step config) paragraphs ([], [], 0) in
  if truthy (strip current_chunk)
  then chunks ++ [strip current_chunk]
  else chunks.

(** The post-pass loop of [merge_paragraphs_semantically]. *)
Definition post_step (config : ChunkingConfig)
    (final_chunks : list str) (chunk : str) : list str :=
  let chunk_tokens := count_tokens chunk (tokenizer_model config) in
  if chunk_tokens >=? min_tokens config then final_chunks ++ [chunk]
  else
    match final_chunks with
    | _ :: _ =>
        set_last final_chunks (last final_chunks [] ++ [nl; nl] ++ chunk)
    | [] => final_chunks
    end.

(** [merge_paragraphs_semantically] *)
Definition merge_paragraphs_semantically (paragraphs : list str)
    (config : ChunkingConfig) : list str :=
  match paragraphs with
  | [] => []
  | _ :: _ => fold_left (post_step config) (greedy_chunks config paragraphs) []
  end.

(** The body of the loop of [apply_overlap_sliding_window] at index [i]. *)
Definition overlapped_chunk (config : ChunkingConfig) (chunks : list str)
    (i : nat) (chunk : str) : str :=
  match i with
  | O => chunk
  | S _ =>
      let prev_chunk := nth (i - 1) chunks [] in
      let prev_words := split_ws prev_chunk in
      let overlap_words :=
        Z.max 0 (Z.of_nat (length prev_words) - overlap_tokens config) in
      let overlap_text := join [space] (list_slice_from prev_words overlap_words) in
      overlap_text ++ [nl; nl] ++ chunk
  end.

(** [apply_overlap_sliding_window] *)
Definition apply_overlap_sliding_window (chunks : list str)
    (config : ChunkingConfig) : list str :=
  if negb (match chunks with [] => false | _ :: _ => true end)
     || (overlap_tokens config <=? 0)
  then chunks
  else
    fold_left
      (fun overlapped_chunks '(i, chunk) =>
         overlapped_chunks ++ [overlapped_chunk config chunks i chunk])
      (combine (seq 0 (length chunks)) chunks) [].

(** [preprocess_text], the regular-expression clean-up of extracted text,
    is not modelled: what follows holds whatever it returns. *)
Variable preprocess_text : str -> str.

(** The per-section body of the loop of [advanced_chunk_by_structure]. *)
Definition section_chunks (config : ChunkingConfig)
    (all_chunks : list str) (section : str * str) : list str :=
  let '(section_name, section_content) := section in
  if negb (truthy (strip section_content)) then all_chunks
  else
    match split_into_paragraphs section_content with
    | [] => all_chunks
    | paragraphs =>
        fold_left
          (fun all_chunks chunk =>
             all_chunks ++
             [if negb (startswith (lower chunk) (lower section_name))
              then py "[" ++ section_name ++ py "]" ++ [nl; nl] ++ chunk
              else chunk])
          (merge_paragraphs_semantically paragraphs config) all_chunks
    end.

(** [advanced_chunk_by_structure], with the configuration given. *)
Definition advanced_chunk_by_structure (text : str) (config : ChunkingConfig)
    : list str :=
  if negb (truthy text) then []
  else
    let text := preprocess_text text in
    let sections := split_into_sections text (section_headers config) in
    let all_chunks := fold_left (section_chunks config) sections [] in
    let all_chunks :=
      match all_chunks with
      | _ :: _ => all_chunks
      | [] =>
          match split_into_paragraphs text with
          | [] => all_chunks
          | paragraphs => merge_paragraphs_semantically paragraphs config
          end
      end in
    if (overlap_tokens config >? 0)
       && (match all_chunks with [] => false | _ :: _ => true end)
    then apply_overlap_sliding_window all_chunks config
    else all_chunks.

End Tokenizer.

(** The loop of [chunk_text_with_overlap], which runs while
    [start < text_length]; [None] when the fuel runs out. *)
Fixpoint chunk_loop (fuel : nat) (text : str) (max_length overlap : Z)
    (chunks : list str) (start : Z) : option (list str) :=
  match fuel with
  | O => None
  | S fuel' =>
      if start <? len text then
        let end_ := Z.min (start + max_length) (len text) in
        let chunk := slice text start end_ in
        let chunks := chunks ++ [chunk] in
        if end_ =? len text then Some chunks
        else
          let start := end_ - overlap in
          let start := if start <? 0 then 0 else start in
          chunk_loop fuel' text max_length overlap chunks start
      else Some chunks
  end.

(** [chunk_text_with_overlap]: the loop moves [start] forward by at least
    one character per round or never again, so [len text + 1] rounds tell
    a result from a loop that does not end ([None]). *)
Definition chunk_text_with_overlap (text : str) (max_length overlap : Z)
    : option (list str) :=
  if negb (truthy text) then Some []
  else chunk_loop (S (length text)) text max_length overlap [] 0.

(** The sentence splitter of [create_fine_chunks],
    [re.split(r'(?<=[.!?])\s+', text)]: a separator is a maximal run of
    blanks that follows one of [. ! ?].  [after_mark] says that the
    previous character is such a mark, [in_sep] that a separator is being
    skipped. *)
Definition is_mark (c : ascii) : bool :=
  Ascii.eqb c (ascii_of_nat 46) || Ascii.eqb c (ascii_of_nat 33)
  || Ascii.eqb c (ascii_of_nat 63).

Fixpoint re_split_go (cur : str) (after_mark in_sep : bool) (s : str)
    : list str :=
  match s with
  | [] => [cur]
  | c :: s' =>
      if is_space c then
        if in_sep then re_split_go cur false true s'
        else if after_mark then cur :: re_split_go [] false true s'
        else re_split_go (cur ++ [c]) false false s'
      else re_split_go (cur ++ [c]) (is_mark c) false s'
  end.

Definition re_split_sentences (text : str) : list str :=
  re_split_go [] false false text.

(** The sentences of a text, trimmed, the empty ones dropped. *)
Definition sentences_of (text : str) : list str :=
  map strip (filter (fun s => truthy (strip s)) (re_split_sentences text)).

(** The loop of [create_fine_chunks]: the chunks so far, the running chunk
    and its number of sentences. *)
Definition fine_step (min_chars max_chars min_sentences max_sentences : Z)
    (st : list str * str * Z) (sentence : str) : list str * str * Z :=
  let '(chunks, current_chunk, current_sentences) := st in
  let potential_chunk :=
    if truthy current_chunk then current_chunk ++ [space] ++ sentence
    else sentence in
  if (len potential_chunk >? max_chars) && truthy current_chunk then
    ((if (len current_chunk >=? min_chars)
         && (current_sentences >=? min_sentences)
      then chunks ++ [strip current_chunk] else chunks),
     sentence, 1)
  else if (current_sentences >=? max_sentences) && truthy current_chunk then
    ((if len current_chunk >=? min_chars
      then chunks ++ [strip current_chunk] else chunks),
     sentence, 1)
  else (chunks, potential_chunk, current_sentences + 1).

(** The loop and the closing of the last chunk, from the sentences. *)
Definition fine_chunks_of (min_chars max_chars min_sentences max_sentences : Z)
    (sentences : list str) : list str :=
  let '(chunks, current_chunk, current_sentences) :=
    fold_left (fine_step min_chars max_chars min_sentences max_sentences)
              sentences ([], [], 0) in
  if truthy current_chunk && (len current_chunk >=? min_chars)
     && (current_sentences >=? min_sentences)
  then chunks ++ [strip current_chunk]
  else chunks.

(** [create_fine_chunks] *)
Definition create_fine_chunks (text : str)
    (min_chars max_chars min_sentences max_sentences : Z) : list str :=
  if negb (truthy text) then []
  else
    match sentences_of text with
    | [] => []
    | sentences =>
        fine_chunks_of min_chars max_chars min_sentences max_sentences sentences
    end.

Section Coarse.

Variable tiktoken : option (str -> option (str -> list Z)).
Variable preprocess_text : str -> str.

(** The post-pass loop of [create_coarse_chunks]; [None] when the
    splitting of an oversized chunk does not end. *)
Definition coarse_step (min_chars max_chars min_tokens max_tokens : Z)
    (model : str) (st : option (list str)) (chunk : str)
    : option (list str) :=
  match st with
  | None => None
  | Some final_chunks =>
      let chunk_chars := len chunk in
      let chunk_tokens := count_tokens tiktoken chunk model in
      if (chunk_chars >=? min_chars) && (chunk_chars <=? max_chars)
         && (chunk_tokens >=? min_tokens) && (chunk_tokens <=? max_tokens)
      then Some (final_chunks ++ [chunk])
      else if chunk_chars >? max_chars then
        match chunk_text_with_overlap chunk max_chars 100 with
        | Some sub_chunks => Some (final_chunks ++ sub_chunks)
        | None => None
        end
      else if (chunk_chars <? min_chars)
              && (match final_chunks with [] => false | _ :: _ => true end)
      then Some (set_last final_chunks
                   (last final_chunks [] ++ [nl; nl] ++ chunk))
      else Some final_chunks
  end.

Definition default_section_headers : list str :=
  [py "abstract"; py "introduction"; py "related work"; py "methodology";
   py "methods"; py "experiments"; py "results"; py "discussion";
   py "conclusion"; py "references"; py "bibliography"; py "appendix"].

(** [create_coarse_chunks] *)
Definition create_coarse_chunks (text : str)
    (min_chars max_chars min_tokens max_tokens : Z) : option (list str) :=
  if negb (truthy text) then Some []
  else
    let config := {| min_tokens := min_tokens; max_tokens := max_tokens;
                     overlap_tokens := 50;
                     tokenizer_model := py "gpt-3.5-turbo";
                     section_headers := default_section_headers |} in
    let chunks := advanced_chunk_by_structure tiktoken preprocess_text text config in
    fold_left
      (coarse_step min_chars max_chars min_tokens max_tokens
                   (tokenizer_model config))
      chunks (Some []).

End Coarse.

End TextProcessing.
Import TextProcessing.

(* ================================================================= *)
(** ** vector_store_service.py *)

Module VectorStore.

(** Chunk metadata: a dictionary from field names to values. *)
Definition metadata := list (str * str).

(** [d.get(key, default)] *)
Fixpoint dict_get (d : metadata) (key : str) (default : str) : str :=
  match d with
  | [] => default
  | (k, v) :: d' => if str_eqb k key then v else dict_get d' key default
  end.

(** What the backing index answers to a query: one list per query
    embedding for each of the included fields. *)
Record QueryResult := {
  documents : list (list str);
  metadatas : list (list (option metadata));
  distances : list (list Q)
}.

Record SearchResult := {
  text : str;
  meta : metadata;
  distance : Q;
  similarity_score : Q;
  rank : Z;
  collection : str
}.

(** [zip(a, b, c)] *)
Fixpoint zip3 {A B C} (a : list A) (b : list B) (c : list C)
    : list (A * B * C) :=
  match a, b, c with
  | x :: a', y :: b', z :: c' => (x, y, z) :: zip3 a' b' c'
  | _, _, _ => []
  end.

(** [list.sort(key=similarity_score, reverse=True)]: a stable sort, equal
    scores keep their order.  [insert_desc] puts a result behind all those
    whose score is at least its own. *)
Fixpoint insert_desc (x : SearchResult) (l : list SearchResult)
    : list SearchResult :=
  match l with
  | [] => [x]
  | y :: l' =>
      if Qle_bool (similarity_score x) (similarity_score y)
      then y :: insert_desc x l'
      else x :: l
  end.

Definition sort_desc (l : list SearchResult) : list SearchResult :=
  fold_left (fun sorted x => insert_desc x sorted) l [].

Section Store.

(** The embedding model, [self.model.encode]: [None] when it raises. *)
Variable encode : str -> option (list Q).

(** A collection's [query(query_embeddings=[e], n_results=k, ...)]:
    [None] when it raises. *)
Variable fine_collection coarse_collection :
  list Q -> Z -> option QueryResult.

(** The loop of [search_collection] over the zipped answer. *)
Definition format_results (collection_name : str)
    (rows : list (str * option metadata * Q)) : list SearchResult :=
  fold_left
    (fun formatted_results '(i, (doc, md, dist)) =>
       formatted_results ++
       [{| text := doc;
           meta := match md with Some m => m | None => [] end;
           distance := dist;
           similarity_score := 1 - dist;
           rank := Z.of_nat i + 1;
           collection := collection_name |}])
    (combine (seq 0 (length rows)) rows) [].

(** [search_collection]: any exception gives the empty result list. *)
Definition search_collection (query : str) (k : Z) (collection_name : str)
    : list SearchResult :=
  match encode query with
  | None => []
  | Some query_embedding =>
      let collection :=
        if str_eqb collection_name (py "fine")
        then fine_collection else coarse_collection in
      match collection query_embedding k with
      | None => []
      | Some results =>
          match documents results with
          | (_ :: _) as docs0 :: _ =>
              match metadatas results, distances results with
              | metas0 :: _, dists0 :: _ =>
                  format_results collection_name (zip3 docs0 metas0 dists0)
              | _, _ => []
              end
          | _ => []
          end
      end
  end.

(** [search_both_collections] *)
Definition search_both_collections (query : str) (k_fine k_coarse : Z)
    : list SearchResult :=
  let fine_results := search_collection query k_fine (py "fine") in
  let coarse_results := search_collection query k_coarse (py "coarse") in
  let all_results := fine_results ++ coarse_results in
  sort_desc all_results.

End Store.

End VectorStore.
Import VectorStore.

(* ================================================================= *)
(** ** routes.py *)

Module Routes.

Record PaperInfo := {
  title : str;
  authors : str;
  citation_key : str;
  bibtex : str;
  match_snippet : option str
}.

Record CitationSuggestionResponse := {
  match_ : bool;
  score : Q;
  paper : option PaperInfo
}.

(** [max(results, key=...)] on a non-empty list: the first of the
    greatest. *)
Fixpoint max_by_score (best : SearchResult) (l : list SearchResult)
    : SearchResult :=
  match l with
  | [] => best
  | x :: l' =>
      max_by_score
        (if negb (Qle_bool (similarity_score x) (similarity_score best))
         then x else best) l'
  end.

(** The snippet of [suggest_citation]. *)
Definition snippet_of (match_text : str) : str :=
  if len match_text >? 300 then
    let truncated := slice_to match_text 300 in
    let last_space := rfind space truncated in
    if last_space >? 250
    then slice_to truncated last_space ++ py "..."
    else truncated ++ py "..."
  else match_text.

Section Endpoint.

Variable encode : str -> option (list Q).
Variable fine_collection coarse_collection :
  list Q -> Z -> option QueryResult.

(** [suggest_citation] *)
Definition suggest_citation (req_text : str) : CitationSuggestionResponse :=
  let search_results :=
    search_collection encode fine_collection coarse_collection
                      req_text 3 (py "fine") in
  match search_results with
  | [] => {| match_ := false; score := 0; paper := None |}
  | first :: others =>
      let best_match := max_by_score first others in
      let top_score := similarity_score best_match in
      if Qle_bool (8 # 10) top_score then
        let metadata := meta best_match in
        let match_text := text best_match in
        let paper_info :=
          {| title := dict_get metadata (py "title") (py "Unknown Title");
             authors := dict_get metadata (py "authors") (py "Unknown Authors");
             citation_key := dict_get metadata (py "citation_key") (py "unknown");
             bibtex := dict_get metadata (py "bibtex") [];
             match_snippet := Some (snippet_of match_text) |} in
        {| match_ := true; score := top_score; paper := Some paper_info |}
      else {| match_ := false; score := top_score; paper := None |}
  end.

End Endpoint.

End Routes.
Import Routes.

(* ================================================================= *)
(** ** text_processing.py, the other functions *)

Module TextProcessingMore.

Section Paragraphs.

(** [preprocess_text] is a parameter here as well. *)
Variable preprocess_text : str -> str.

(** The loop of [chunk_by_paragraphs]: the chunks closed so far and the
    running chunk. *)
Definition paragraphs_step (max_chars : Z) (st : list str * str) (p : str)
    : list str * str :=
  let '(chunks, current) := st in
  let p := strip p in
  if negb (truthy p) then st
  else if len current + len p <? max_chars then
    (chunks,
     if truthy current then current ++ [nl; nl] ++ p else p)
  else
    ((if truthy (strip current) then chunks ++ [strip current] else chunks),
     p).

(** [chunk_by_paragraphs] *)
Definition chunk_by_paragraphs (text : str) (max_chars : Z) : list str :=
  let text := preprocess_text text in
  let paragraphs := split_blank text in
  let '(chunks, current) :=
    fold_left (paragraphs_step max_chars) paragraphs ([], []) in
  if truthy (strip current) then chunks ++ [strip current] else chunks.

End Paragraphs.

(** One attempt of [(\d{4}\.\d{4,5})] at the start of [s]: four digits, a
    dot, four digits and a fifth one when there is one. *)
Definition match_arxiv_id (s : str) : option str :=
  match s with
  | a :: b :: c :: d :: dot :: e :: f :: g :: h :: rest =>
      if is_digit a && is_digit b && is_digit c && is_digit d
         && Ascii.eqb dot (ascii_of_nat 46)
         && is_digit e && is_digit f && is_digit g && is_digit h
      then Some ([a; b; c; d; dot; e; f; g; h]
                 ++ match rest with
                    | i :: _ => if is_digit i then [i] else []
                    | [] => []
                    end)
      else None
  | _ => None
  end.

(** [re.search(r'(\d{4}\.\d{4,5})', s)]: the first place where the
    pattern matches. *)
Fixpoint search_arxiv_id (s : str) : option str :=
  match match_arxiv_id s with
  | Some m => Some m
  | None =>
      match s with
      | [] => None
      | _ :: s' => search_arxiv_id s'
      end
  end.

(** [extract_arxiv_id] *)
Definition extract_arxiv_id (input_str : str) : str :=
  match search_arxiv_id input_str with
  | Some m => m
  | None => []
  end.

End TextProcessingMore.
Import TextProcessingMore.

(* ================================================================= *)
(** ** llm_client.py *)

Module LlmClient.

(** A turn of the chat history: a dictionary with the keys [user] and
    [assistant]. *)
Record Turn := { user : str; assistant : str }.

(** [build_prompt] *)
Definition build_prompt (system context : str) (history : list Turn)
    (query : str) : str :=
  let history_text :=
    join [nl; nl]
      (map (fun turn => user turn ++ [nl] ++ assistant turn)
           (list_slice_from history (-2))) in
  system ++ [nl; nl] ++ context ++ [nl; nl] ++ history_text ++ [nl; nl]
  ++ query ++ [nl].



Section Llm.

(** The request to the LLM server and the reading of its answer,
    [response.json().get("content", "")]: [None] when any of it raises. *)
Variable llm_content : str -> option str.


End Llm.

End LlmClient.
Import LlmClient.

(* ================================================================= *)
(** ** vector_store_service.py, the ingestion *)

From Stdlib Require DecimalString.

Module Ingest.

(** The values of a metadata dictionary: [None], a string, an integer
    and a list of strings (the authors). *)
Inductive pyval :=
| VNone
| VStr (s : str)
| VInt (n : Z)
| VList (l : list str).

(** A dictionary, in insertion order. *)
Definition pydict := list (str * pyval).

Fixpoint lookup (d : pydict) (key : str) : option pyval :=
  match d with
  | [] => None
  | (k, v) :: d' => if str_eqb k key then Some v else lookup d' key
  end.

(** [d.get(key, default)] *)
Definition get (d : pydict) (key : str) (default : pyval) : pyval :=
  match lookup d key with Some v => v | None => default end.

(** [d[key] = v] *)
Fixpoint set_item (d : pydict) (key : str) (v : pyval) : pydict :=
  match d with
  | [] => [(key, v)]
  | (k, w) :: d' =>
      if str_eqb k key then (k, v) :: d' else (k, w) :: set_item d' key v
  end.

(** [d.update(items)] *)
Definition update (d items : pydict) : pydict :=
  fold_left (fun d '(k, v) => set_item d k v) items d.

(** Truth value. *)
Definition py_bool (v : pyval) : bool :=
  match v with
  | VNone => false
  | VStr s => truthy s
  | VInt n => negb (n =? 0)
  | VList l => match l with [] => false | _ :: _ => true end
  end.

(** [v != s] for a string [s]. *)
Definition neq_str (v : pyval) (s : str) : bool :=
  match v with
  | VStr t => negb (str_eqb t s)
  | _ => true
  end.

(** [v[0]]; [None] when it raises. *)
Definition item0 (v : pyval) : option str :=
  match v with
  | VList (x :: _) => Some x
  | VStr (c :: _) => Some [c]
  | _ => None
  end.

(** [' and '.join(v)]; [None] when it raises. *)
Definition join_and (v : pyval) : option str :=
  match v with
  | VList l => Some (join (py " and ") l)
  | VStr s => Some (join (py " and ") (map (fun c => [c]) s))
  | _ => None
  end.

(** [str(n)] *)
Definition str_of_int (n : Z) : str :=
  list_ascii_of_string (DecimalString.NilZero.string_of_int (Z.to_int n)).

(** [s.replace(' ', '_')] *)
Definition replace_blanks (s : str) : str :=
  map (fun c => if Ascii.eqb c space then ascii_of_nat 95 else c) s.

Record AddCall := {
  call_documents : list str;
  call_ids : list str;
  call_metadatas : list pydict
}.

(** The calls of [collection.add] that returned, for each collection,
    and the number of identifiers drawn so far. *)
Record Store := {
  fine_added : list AddCall;
  coarse_added : list AddCall;
  drawn : nat
}.

Section Service.

(** [repr] of a list of strings, which is how a list is formatted. *)
Variable repr_list : list str -> str.

(** [uuid.uuid4()], by the number of identifiers drawn before. *)
Variable uuid4 : nat -> str.

(** Whether [collection.add] returns, for the fine collection ([true])
    or the coarse one; it raises otherwise. *)
Variable collection_add : bool -> AddCall -> bool.

Variable tiktoken : option (str -> option (str -> list Z)).
Variable preprocess_text : str -> str.

(** The settings of [config.py], read from the environment. *)
Variables FINE_CHUNK_MIN_CHARS FINE_CHUNK_MAX_CHARS : Z.
Variables FINE_CHUNK_MIN_SENTENCES FINE_CHUNK_MAX_SENTENCES : Z.
Variables COARSE_CHUNK_MIN_CHARS COARSE_CHUNK_MAX_CHARS : Z.
Variables COARSE_CHUNK_MIN_TOKENS COARSE_CHUNK_MAX_TOKENS : Z.

(** A value in an f-string. *)
Definition format (v : pyval) : str :=
  match v with
  | VNone => py "None"
  | VStr s => s
  | VInt n => str_of_int n
  | VList l => repr_list l
  end.

(** [add_texts_to_collection] *)
Definition add_texts_to_collection (st : Store) (texts : list str)
    (metadatas : option (list pydict)) (collection_name : str)
    : bool * Store :=
  match texts with
  | [] => (false, st)
  | _ :: _ =>
      let clean_texts := filter truthy texts in
      match clean_texts with
      | [] => (false, st)
      | _ :: _ =>
          let ids := map uuid4 (seq (drawn st) (length clean_texts)) in
          let st := {| fine_added := fine_added st;
                       coarse_added := coarse_added st;
                       drawn := drawn st + length clean_texts |} in
          let metadatas :=
            match metadatas with
            | None =>
                map (fun _ => [(py "source", VStr (py "unknown"))])
                    clean_texts
            | Some metadatas => metadatas
            end in
          let clean_metadatas :=
            map (filter (fun kv : str * pyval =>
                           match snd kv with VNone => false | _ => true end))
                metadatas in
          let call := {| call_documents := clean_texts;
                         call_ids := ids;
                         call_metadatas := clean_metadatas |} in
          let fine := str_eqb collection_name (py "fine") in
          if collection_add fine call then
            (true,
             if fine
             then {| fine_added := fine_added st ++ [call];
                     coarse_added := coarse_added st;
                     drawn := drawn st |}
             else {| fine_added := fine_added st;
                     coarse_added := coarse_added st ++ [call];
                     drawn := drawn st |})
          else (false, st)
      end
  end.

(** The citation key of [ingest_paper_text]; [None] when it raises. *)
Definition citation_key_of (title authors year arxiv_id : pyval)
    : option pyval :=
  let known : option bool :=
    if py_bool authors then
      match item0 authors with
      | Some first =>
          Some (neq_str (VStr first) (py "Unknown")
                && neq_str year (py "xxxx")
                && neq_str title (py "Unknown Title"))
      | None => None
      end
    else Some false in
  match known with
  | None => None
  | Some true =>
      match item0 authors with
      | Some first =>
          match rev (split_ws first) with
          | first_author :: _ =>
              match title with
              | VStr title =>
                  match split_ws title with
                  | word :: _ =>
                      let first_word_title := lower word in
                      Some (VStr (lower first_author ++ format year
                                  ++ first_word_title))
                  | [] => None
                  end
              | _ => None
              end
          | [] => None
          end
      | None => None
      end
  | Some false =>
      if py_bool arxiv_id then Some arxiv_id
      else
        match title with
        | VStr title => Some (VStr (slice_to (replace_blanks title) 20))
        | _ => None
        end
  end.

(** The BibTeX entry of [ingest_paper_text]; [None] when it raises. *)
Definition bibtex_of (paper_metadata : pydict)
    (citation_key title authors year arxiv_id : pyval) : option str :=
  match join_and authors with
  | None => None
  | Some joined =>
      if py_bool arxiv_id then
        Some (py "@article{" ++ format citation_key ++ py "," ++ [nl]
              ++ py "  title={ " ++ format title ++ py " }," ++ [nl]
              ++ py "  author={ " ++ joined ++ py " }," ++ [nl]
              ++ py "  year={ " ++ format year ++ py " }," ++ [nl]
              ++ py "  eprint={ " ++ format arxiv_id ++ py " }," ++ [nl]
              ++ py "  archivePrefix={arXiv}," ++ [nl]
              ++ py "  url={ https://arxiv.org/abs/" ++ format arxiv_id
              ++ py " }" ++ [nl]
              ++ py "}")
      else
        Some (py "@misc{" ++ format citation_key ++ py "," ++ [nl]
              ++ py "  title={ " ++ format title ++ py " }," ++ [nl]
              ++ py "  author={ " ++ joined ++ py " }," ++ [nl]
              ++ py "  year={ " ++ format year ++ py " }," ++ [nl]
              ++ py "  url={ "
              ++ format (get paper_metadata (py "url") (VStr []))
              ++ py " }" ++ [nl]
              ++ py "}")
  end.

(** The metadata of chunk [i] of [chunks]: a copy of the paper's, its
    lists joined, and the six fields of the chunk. *)
Definition chunk_metadata (paper_metadata : pydict)
    (citation_key : pyval) (bibtex chunk_type : str) (chunks : list str)
    (i : nat) (chunk : str) : pydict :=
  let chunk_metadata :=
    map (fun kv : str * pyval =>
           match snd kv with
           | VList l => (fst kv, VStr (join (py ", ") l))
           | _ => kv
           end)
        paper_metadata in
  update chunk_metadata
    [(py "chunk_index", VInt (Z.of_nat i));
     (py "total_chunks", VInt (Z.of_nat (length chunks)));
     (py "chunk_length", VInt (len chunk));
     (py "citation_key", citation_key);
     (py "bibtex", VStr bibtex);
     (py "chunk_type", VStr chunk_type)].

Definition chunk_metadatas (paper_metadata : pydict)
    (citation_key : pyval) (bibtex chunk_type : str) (chunks : list str)
    : list pydict :=
  fold_left
    (fun metadatas '(i, chunk) =>
       metadatas ++
       [chunk_metadata paper_metadata citation_key bibtex chunk_type
                       chunks i chunk])
    (combine (seq 0 (length chunks)) chunks) [].

(** [ingest_paper_text]: the outcome and the store after it; [None] when
    the chunking does not return. *)
Definition ingest_paper_text (st : Store) (text : str)
    (paper_metadata : pydict) : option (bool * Store) :=
  let title := get paper_metadata (py "title") (VStr (py "Unknown Title")) in
  let authors := get paper_metadata (py "authors") (VList [py "Unknown"]) in
  let year := get paper_metadata (py "year") (VStr (py "xxxx")) in
  let arxiv_id := get paper_metadata (py "arxiv_id") VNone in
  match citation_key_of title authors year arxiv_id with
  | None => Some (false, st)
  | Some citation_key =>
      match bibtex_of paper_metadata citation_key title authors year
                      arxiv_id with
      | None => Some (false, st)
      | Some bibtex =>
          let fine_chunks :=
            create_fine_chunks text FINE_CHUNK_MIN_CHARS FINE_CHUNK_MAX_CHARS
              FINE_CHUNK_MIN_SENTENCES FINE_CHUNK_MAX_SENTENCES in
          match create_coarse_chunks tiktoken preprocess_text text
                  COARSE_CHUNK_MIN_CHARS COARSE_CHUNK_MAX_CHARS
                  COARSE_CHUNK_MIN_TOKENS COARSE_CHUNK_MAX_TOKENS with
          | None => None
          | Some coarse_chunks =>
              match fine_chunks, coarse_chunks with
              | [], [] => Some (false, st)
              | _, _ =>
                  let fine_chunk_metadatas :=
                    chunk_metadatas paper_metadata citation_key bibtex
                                    (py "fine") fine_chunks in
                  let coarse_chunk_metadatas :=
                    chunk_metadatas paper_metadata citation_key bibtex
                                    (py "coarse") coarse_chunks in
                  let '(fine_success, st) :=
                    add_texts_to_collection st fine_chunks
                      (Some fine_chunk_metadatas) (py "fine") in
                  let '(coarse_success, st) :=
                    add_texts_to_collection st coarse_chunks
                      (Some coarse_chunk_metadatas) (py "coarse") in
                  Some (fine_success && coarse_success, st)
              end
          end
      end
  end.

End Service.

End Ingest.
Import Ingest.

(* ================================================================= *)
(** ** Notions used to state the properties *)

Module Notions.

(** *** Lists and strings *)

(** The trailing [k] elements of a list. *)
Definition trailing {A} (k : nat) (l : list A) : list A :=
  skipn (length l - k) l.

(** The list without its leading elements that satisfy [p]. *)
Fixpoint skip_while {A} (p : A -> bool) (l : list A) : list A :=
  match l with
  | [] => []
  | x :: l' => if p x then skip_while p l' else l
  end.

(** All the elements but the last satisfy [P]. *)
Fixpoint all_but_last {A} (P : A -> Prop) (l : list A) : Prop :=
  match l with
  | [] => True
  | x :: l' =>
      match l' with
      | [] => True
      | _ :: _ => P x /\ all_but_last P l'
      end
  end.

(** A string without a blank at either end. *)
Definition trimmed (s : str) : Prop :=
  (forall c t, s = c :: t -> is_space c = false)
  /\ (forall t c, s = t ++ [c] -> is_space c = false).

(** *** The Structural Segmenter *)

(** The lines the segmenter looks at: trimmed, the blank ones left out. *)
Definition clean_lines (text : str) : list str :=
  filter truthy (map strip (split_on nl text)).

(** *** The Token-Budgeted Merger and the coarse post-pass *)

(** An accepted chunk with the chunks folded into it, in order: its
    members, and the text it becomes. *)
Definition members (g : str * list str) : list str := fst g :: snd g.

Definition render (g : str * list str) : str := join [nl; nl] (members g).

(** A group is well formed: its head has at least [min] tokens and the
    chunks folded into it have fewer. *)
Definition good_group (count : str -> Z) (min : Z) (g : str * list str)
    : Prop :=
  min <= count (fst g) /\ Forall (fun s => count s < min) (snd g).

(** A tokenizer whose counts add up over a blank line, ignore outer
    blanks, and are zero on the empty text; counting words is one. *)
Definition additive_counts (count : str -> Z) : Prop :=
  (forall a b, count (a ++ [nl; nl] ++ b) = count a + count b)
  /\ (forall a, count (strip a) = count a)
  /\ count [] = 0.

(** The configuration [create_coarse_chunks] builds. *)
Definition coarse_config (min_tokens max_tokens : Z) : ChunkingConfig :=
  {| min_tokens := min_tokens; max_tokens := max_tokens;
     overlap_tokens := 50;
     tokenizer_model := py "gpt-3.5-turbo";
     section_headers := default_section_headers |}.


(** *** The Sentence-Budgeted Merger *)

(** No separator of the sentence splitter inside [s]: no blank right
    after one of [. ! ?].  [after_mark] tells whether such a mark stands
    just before [s]. *)
Fixpoint no_break (after_mark : bool) (s : str) : bool :=
  match s with
  | [] => true
  | c :: s' =>
      if is_space c then negb after_mark && no_break false s'
      else no_break (is_mark c) s'
  end.

(** The last character of [s] is one of [. ! ?] ([after_mark] for the
    empty string). *)
Fixpoint ends_mark (after_mark : bool) (s : str) : bool :=
  match s with
  | [] => after_mark
  | c :: s' => ends_mark (is_mark c) s'
  end.

(** A sentence, non-empty and trimmed. *)
Definition sentence_ok (s : str) : Prop := s <> [] /\ trimmed s.

(** A sentence as the splitter leaves it: with no separator inside. *)
Definition whole_sentence (s : str) : Prop :=
  sentence_ok s /\ no_break false s = true.

(** The chunk [c] is made of the consecutive sentences [g] of
    [sentences], joined by blanks. *)
Definition made_of (sentences g : list str) (c : str) : Prop :=
  (exists pre post, sentences = pre ++ g ++ post) /\ c = join [space] g.

(** What every chunk closed by the Sentence-Budgeted Merger satisfies. *)
Definition fine_chunk_ok (min_chars max_chars min_sentences max_sentences : Z)
    (sentences : list str) (c : str) : Prop :=
  exists g,
    made_of sentences g c
    /\ min_chars <= len c
    /\ (min_sentences <= max_sentences ->
        min_sentences <= Z.of_nat (length g))
    /\ (len c <= max_chars \/ length g = 1%nat).

(** *** The Dual Collection Store *)

(** Similarity scores that do not increase from [a] to [b]. *)
Definition score_ge (a b : SearchResult) : Prop :=
  (similarity_score b <= similarity_score a)%Q.

(** The backing index answers a query for [k] results with at most [k]
    documents. *)
Definition at_most_n_results
    (collection : list Q -> Z -> option QueryResult) : Prop :=
  forall e k r docs0 rest,
    collection e k = Some r ->
    documents r = docs0 :: rest ->
    Z.of_nat (length docs0) <= k.

End Notions.
Import Notions.

(* ================================================================= *)
(** ** Sample inputs *)

Module Samples.

(** A configuration with the default model and no section header. *)
Definition demo_config (min_t max_t overlap : Z) : ChunkingConfig :=
  {| min_tokens := min_t; max_tokens := max_t; overlap_tokens := overlap;
     tokenizer_model := py "gpt-3.5-turbo"; section_headers := [] |}.

Definition overlap_demo_chunks : list str :=
  [py "one two three"; py "four five"; py "six"].

(** The text of the segmentation scenario. *)
Definition scenario_text : str :=
  py "Abstract" ++ [nl] ++ py "This is the abstract." ++ [nl; nl] ++
  py "1. Introduction" ++ [nl] ++ py "Background text here.".

(** A text with two lines of content before its first header. *)
Definition preamble_text : str :=
  py "Some title" ++ [nl] ++ py "An author" ++ [nl; nl] ++
  py "Abstract" ++ [nl] ++ py "This is the abstract.".

(** A paragraph of four sentences. *)
Definition four_sentences : str :=
  py "First sentence here. Second sentence here. Third one is here. Last.".


(** Two long chunk texts for the snippet: 301 letters without a blank,
    and 250 letters, a blank, then 50 letters more. *)
Definition long_word : str := repeat (ascii_of_nat 97) 301.

Definition blank_at_250 : str :=
  repeat (ascii_of_nat 97) 250 ++ [space] ++ repeat (ascii_of_nat 97) 50.

(** An index that answers every query with the given rows, cut to the
    number of results asked for, and refuses a request for less than one
    result. *)
Definition fixed_index (rows : list (str * metadata * Q))
    (e : list Q) (k : Z) : option QueryResult :=
  if k <? 1 then None
  else
    let rows := firstn (Z.to_nat k) rows in
    Some {| documents := [map (fun r => fst (fst r)) rows];
            metadatas := [map (fun r => Some (snd (fst r))) rows];
            distances := [map (fun r => snd r) rows] |}.

Definition demo_encode (q : str) : option (list Q) := Some [].

(** The rows of the two citation scenarios: distances 0.15 and 0.25, and
    distance 0.35. *)
Definition demo_rows_hit : list (str * metadata * Q) :=
  [(py "This is a sample text about machine learning.",
    [(py "title", py "Machine Learning Fundamentals");
     (py "citation_key", py "doe2023ml")], 15 # 100);
   (py "Another text about AI.", [(py "title", py "AI Basics")], 25 # 100)].

Definition demo_rows_miss : list (str * metadata * Q) :=
  [(py "This is a sample text about machine learning.",
    [(py "title", py "Machine Learning Fundamentals")], 35 # 100)].

End Samples.
Import Samples.

(* ================================================================= *)
(** ** Notions for the rest of the code *)

Module MoreNotions.


(** The paragraphs [chunk_by_paragraphs] works on: the pieces between
    blank lines, trimmed, the empty ones left out. *)
Definition clean_paragraphs (text : str) : list str :=
  filter truthy (map strip (split_blank text)).

(** A group of paragraphs that [chunk_by_paragraphs] may put in one
    chunk: one paragraph alone, or several whose chunk has less than
    [max_chars + 2] characters. *)
Definition paragraph_group_ok (max_chars : Z) (g : list str) : Prop :=
  g <> []
  /\ Forall sentence_ok g
  /\ (length g = 1%nat \/ len (join [nl; nl] g) < max_chars + 2).

(** An arXiv identifier: four digits, a dot, four or five digits. *)
Definition arxiv_shaped (m : str) : Prop :=
  exists d e,
    m = d ++ [ascii_of_nat 46] ++ e
    /\ length d = 4%nat
    /\ (length e = 4%nat \/ length e = 5%nat)
    /\ forallb is_digit d = true
    /\ forallb is_digit e = true.

(** [m] occurs in [s]. *)
Definition occurs_in (m s : str) : Prop :=
  exists pre post, s = pre ++ m ++ post.

(** A section as a label and the lines of its body, and the pair that
    [split_into_sections] returns for it. *)
Definition section_of (g : str * list str) : str * str :=
  (fst g, join [nl] (snd g)).

(** The lines of the text that are content: trimmed, not blank and no
    header. *)
Definition content_lines (text : str) (headers : list str) : list str :=
  filter (fun l => negb (is_section_header l headers)) (clean_lines text).

(** A run of consecutive sentences that the loop of [create_fine_chunks]
    closed, with whether it was kept as a chunk. *)
Definition kept_chunks (groups : list (list str * bool)) : list str :=
  map (fun g => join [space] (fst g)) (filter snd groups).

(** A closed run is not empty, has at most [max(1, max_sentences)]
    sentences, and is left out only when it is below a minimum. *)
Definition fine_group_ok (min_chars min_sentences max_sentences : Z)
    (g : list str * bool) : Prop :=
  fst g <> []
  /\ Z.of_nat (length (fst g)) <= Z.max 1 max_sentences
  /\ (snd g = false ->
      len (join [space] (fst g)) < min_chars
      \/ Z.of_nat (length (fst g)) < min_sentences).

(** A search result under another collection label. *)
Definition with_collection (name : str) (r : SearchResult) : SearchResult :=
  {| text := text r; meta := meta r; distance := distance r;
     similarity_score := similarity_score r; rank := rank r;
     collection := name |}.

(** The results whose similarity score is [q]. *)
Definition with_score (q : Q) (l : list SearchResult) : list SearchResult :=
  filter (fun r => Qeq_bool (similarity_score r) q) l.

(** *** The ingestion *)

(** The test of [add_texts_to_collection] on an item of a metadata
    dictionary. *)
Definition not_none (kv : str * pyval) : bool :=
  match snd kv with VNone => false | _ => true end.

(** The metadata dictionaries that a call carries for the ones given. *)
Definition sent_metadatas (metadatas : option (list pydict))
    (clean_texts : list str) : list pydict :=
  map (filter not_none)
      match metadatas with
      | None => map (fun _ => [(py "source", VStr (py "unknown"))]) clean_texts
      | Some metadatas => metadatas
      end.


(** A dictionary without a [None] value. *)
Definition no_none (md : pydict) : Prop :=
  Forall (fun kv => snd kv <> VNone) md.

(** The call of [collection.add] carries the chunks as they are, one
    identifier and one metadata dictionary for each, and the dictionary
    of chunk [i] tells its index, the number of chunks, its length, its
    type, a citation key and a BibTeX entry. *)
Definition aligned (chunk_type : str) (chunks : list str) (call : AddCall)
    : Prop :=
  call_documents call = chunks
  /\ length (call_ids call) = length chunks
  /\ length (call_metadatas call) = length chunks
  /\ forall i md chunk,
       nth_error (call_metadatas call) i = Some md ->
       nth_error chunks i = Some chunk ->
       lookup md (py "chunk_index") = Some (VInt (Z.of_nat i))
       /\ lookup md (py "total_chunks")
          = Some (VInt (Z.of_nat (length chunks)))
       /\ lookup md (py "chunk_length") = Some (VInt (len chunk))
       /\ lookup md (py "chunk_type") = Some (VStr chunk_type)
       /\ (exists key bibtex,
             key <> VNone
             /\ lookup md (py "citation_key") = Some key
             /\ lookup md (py "bibtex") = Some (VStr bibtex))
       /\ no_none md.

(** *** An ingestion to run *)

Definition demo_store : Store :=
  {| fine_added := []; coarse_added := []; drawn := 0 |}.

(** The metadata of the arXiv branch of the ingestion route. *)
Definition demo_paper : pydict :=
  [(py "source", VStr (py "arxiv"));
   (py "arxiv_id", VStr (py "2301.12345"));
   (py "user_id", VNone);
   (py "title", VStr (py "Deep Nets for Text"));
   (py "authors", VList [py "Ada Lovelace"; py "Alan Turing"]);
   (py "year", VInt 2023)].

(** The same when arXiv knows no such paper. *)
Definition demo_paper_unknown : pydict :=
  [(py "source", VStr (py "arxiv"));
   (py "arxiv_id", VStr (py "2301.12345"));
   (py "user_id", VNone);
   (py "title", VNone);
   (py "authors", VNone);
   (py "year", VNone)].

(** The metadata of the branch of the other addresses. *)
Definition demo_paper_url : pydict :=
  [(py "source", VStr (py "url"));
   (py "url", VStr (py "https://example.org/paper.pdf"));
   (py "user_id", VStr (py "u1"))].

(** An ingestion with small bounds, an index that accepts every call,
    and the word count for a tokenizer. *)
Definition demo_ingest (fine_min : Z) (text : str) (paper : pydict)
    : option (bool * Store) :=
  ingest_paper_text (fun _ => []) (fun n => str_of_int (Z.of_nat n))
    (fun _ _ => true) None
    (fun t => t) fine_min 500 1 3 1 1000 1 1000 demo_store text paper.

Definition demo_text : str := py "Hello world. This is a test.".

Definition demo_outcome : bool * Store :=
  match demo_ingest 5 demo_text demo_paper with
  | Some r => r
  | None => (false, demo_store)
  end.

End MoreNotions.
Import MoreNotions.

(* ================================================================= *)
(** ** Facts on strings *)

Section StringFacts.

Lemma snoc_cases {A} (l : list A) : l = [] \/ exists l' x, l = l' ++ [x].
Proof.
  destruct l as [|a l]; [now left|right].
  destruct (exists_last (l := a :: l)) as (l' & x & H); [discriminate|].
  now exists l', x.
Qed.

Lemma set_last_snoc {A} (l : list A) (x y : A) :
  set_last (l ++ [x]) y = l ++ [y].
Proof. unfold set_last. now rewrite removelast_last. Qed.

Lemma truthy_true (s : str) : truthy s = true <-> s <> [].
Proof. destruct s; simpl; split; congruence. Qed.

Lemma truthy_false (s : str) : truthy s = false <-> s = [].
Proof. destruct s; simpl; split; congruence. Qed.

Lemma len_app (a b : str) : len (a ++ b) = len a + len b.
Proof. unfold len. rewrite length_app. lia. Qed.

Lemma drop_while_snoc_keep (p : ascii -> bool) (l : str) (c : ascii) :
  p c = false -> drop_while p (l ++ [c]) = drop_while p l ++ [c].
Proof.
  intros Hc. induction l as [|x l IH]; simpl.
  - now rewrite Hc.
  - destruct (p x); [exact IH|reflexivity].
Qed.

Lemma drop_while_head (p : ascii -> bool) (s : str) (c : ascii) (t : str) :
  drop_while p s = c :: t -> p c = false.
Proof.
  induction s as [|x s IH]; simpl; [discriminate|].
  destruct (p x) eqn:Hx; [exact IH|]. intros H. injection H as -> _. exact Hx.
Qed.

(** [strip] leaves no blank at either end ... *)
Lemma strip_trimmed (s : str) : trimmed (strip s).
Proof.
  unfold strip, rstrip, lstrip.
  set (t := drop_while is_space s).
  assert (Ht : forall c t', t = c :: t' -> is_space c = false).
  { intros c t' H. apply (drop_while_head _ _ _ _ H). }
  split.
  - intros c u Hu.
    destruct t as [|c0 t'].
    + discriminate Hu.
    + assert (Hc0 : is_space c0 = false) by (apply (Ht c0 t'); reflexivity).
      cbn [rev] in Hu.
      rewrite (drop_while_snoc_keep _ _ _ Hc0), rev_app_distr in Hu.
      cbn in Hu. injection Hu as <- _. exact Hc0.
  - intros u c Hu.
    apply (f_equal (@rev ascii)) in Hu.
    rewrite rev_involutive, rev_app_distr in Hu. cbn in Hu.
    apply (drop_while_head _ _ _ _ Hu).
Qed.

(** ... and does nothing to a string that has none. *)
Lemma strip_of_trimmed (s : str) : trimmed s -> strip s = s.
Proof.
  intros [Hfirst Hlast]. unfold strip, rstrip, lstrip.
  destruct s as [|c t]; [reflexivity|].
  cbn [drop_while]. rewrite (Hfirst c t eq_refl).
  destruct (snoc_cases (c :: t)) as [H|(t' & x & H)]; [discriminate|].
  rewrite H, rev_app_distr. cbn [rev app drop_while].
  rewrite (Hlast t' x H). cbn [rev]. now rewrite rev_involutive.
Qed.

Lemma strip_strip (s : str) : strip (strip s) = strip s.
Proof. apply strip_of_trimmed, strip_trimmed. Qed.

Lemma join_snoc (sep : str) (l : list str) (x : str) :
  l <> [] -> join sep (l ++ [x]) = join sep l ++ sep ++ x.
Proof.
  induction l as [|a l IH]; [congruence|]. intros _.
  destruct l as [|b l]; [reflexivity|].
  change (join sep ((a :: b :: l) ++ [x]))
    with (a ++ sep ++ join sep ((b :: l) ++ [x])).
  rewrite IH by discriminate.
  change (join sep (a :: b :: l)) with (a ++ sep ++ join sep (b :: l)).
  now rewrite <- !app_assoc.
Qed.

Lemma join_nonempty (sep : str) (l : list str) :
  Forall (fun s => s <> []) l -> l <> [] -> join sep l <> [].
Proof.
  intros Hall Hl. destruct l as [|a l]; [congruence|].
  inversion Hall as [|? ? Ha _]; subst.
  destruct l; simpl; [exact Ha|].
  destruct a; [congruence|discriminate].
Qed.

Lemma trimmed_app (a sep b : str) :
  a <> [] -> b <> [] -> trimmed a -> trimmed b -> trimmed (a ++ sep ++ b).
Proof.
  intros Ha Hb [Hfa _] [_ Hlb]. split.
  - intros c t H. destruct a as [|c0 a']; [congruence|].
    injection H as -> _. now apply (Hfa c a').
  - intros t c H.
    destruct (snoc_cases b) as [->|(b' & y & ->)]; [congruence|].
    rewrite !app_assoc in H. apply app_inj_tail in H. destruct H as [_ ->].
    now apply (Hlb b').
Qed.

Lemma trimmed_join (sep : str) (l : list str) :
  Forall (fun s => s <> [] /\ trimmed s) l -> trimmed (join sep l).
Proof.
  induction l as [|a l IH]; intros Hall.
  - split; intros ? ? H; [discriminate|now destruct t].
  - inversion Hall as [|? ? [Ha Hta] Hl]; subst.
    destruct l as [|b l]; [exact Hta|].
    change (join sep (a :: b :: l)) with (a ++ sep ++ join sep (b :: l)).
    apply trimmed_app; [exact Ha| |exact Hta|now apply IH].
    apply join_nonempty; [|discriminate].
    eapply Forall_impl; [|exact Hl]. now intros s [H _].
Qed.

(** Words: a blank between two texts separates their words. *)
Lemma split_ws_go_app_space (cur a : str) (sp : ascii) (b : str) :
  is_space sp = true ->
  split_ws_go cur (a ++ sp :: b) = split_ws_go cur a ++ split_ws b.
Proof.
  intros Hsp. revert cur; induction a as [|c a IH]; intros cur; simpl.
  - rewrite Hsp. unfold split_ws. now destruct (truthy cur).
  - destruct (is_space c); [|apply IH].
    destruct (truthy cur); simpl; now rewrite IH.
Qed.

Lemma split_ws_blank_line (a b : str) :
  split_ws (a ++ [nl; nl] ++ b) = split_ws a ++ split_ws b.
Proof.
  unfold split_ws at 1. cbn [app].
  now rewrite (split_ws_go_app_space [] a nl (nl :: b) eq_refl).
Qed.

Lemma split_ws_lstrip (s : str) : split_ws (lstrip s) = split_ws s.
Proof.
  unfold lstrip, split_ws. induction s as [|c s IH]; simpl; [reflexivity|].
  destruct (is_space c) eqn:Hc; [exact IH|].
  simpl. now rewrite Hc.
Qed.

Lemma split_ws_go_rstrip (cur s : str) :
  split_ws_go cur (rstrip s) = split_ws_go cur s.
Proof.
  unfold rstrip. induction s as [|x s IH] using rev_ind; [reflexivity|].
  rewrite rev_app_distr. cbn [rev app drop_while].
  destruct (is_space x) eqn:Hx.
  - rewrite IH, (split_ws_go_app_space cur s x [] Hx).
    now rewrite app_nil_r.
  - cbn [rev]. now rewrite rev_involutive.
Qed.

Lemma split_ws_strip (s : str) : split_ws (strip s) = split_ws s.
Proof.
  unfold strip, split_ws at 1. rewrite split_ws_go_rstrip.
  apply split_ws_lstrip.
Qed.

End StringFacts.

(* ================================================================= *)
(** ** Facts on lists and strings *)

Section ListFacts.

Context {A B : Type}.

Lemma fold_left_snoc_map (g : list B -> A -> list B) (f : A -> B)
    (l : list A) (acc : list B) :
  (forall acc x, g acc x = acc ++ [f x]) ->
  fold_left g l acc = acc ++ map f l.
Proof.
  intros Hg. revert acc; induction l as [|x l IH]; intros acc; simpl.
  - now rewrite app_nil_r.
  - rewrite IH, Hg, <- app_assoc. reflexivity.
Qed.

Lemma nth_error_enumerate (l : list A) (a i : nat) :
  nth_error (combine (seq a (length l)) l) i
  = option_map (fun x => ((a + i)%nat, x)) (nth_error l i).
Proof.
  revert a i; induction l as [|x l IH]; intros a i; simpl.
  - destruct i; reflexivity.
  - destruct i as [|i]; simpl.
    + now rewrite Nat.add_0_r.
    + rewrite IH. now rewrite Nat.add_succ_r.
Qed.

Lemma length_enumerate (l : list A) (a : nat) :
  length (combine (seq a (length l)) l) = length l.
Proof. rewrite length_combine, length_seq. apply Nat.min_id. Qed.

End ListFacts.

(* ================================================================= *)
(** ** The Overlap Window Applier *)

Section Overlap.

Lemma apply_overlap_map (chunks : list str) (config : ChunkingConfig) :
  0 < overlap_tokens config ->
  apply_overlap_sliding_window chunks config
  = map (fun '(i, chunk) => overlapped_chunk config chunks i chunk)
        (combine (seq 0 (length chunks)) chunks).
Proof.
  intros Hov. unfold apply_overlap_sliding_window.
  destruct (Z.leb_spec (overlap_tokens config) 0) as [Hle|_]; [lia|].
  destruct chunks as [|c chunks]; [reflexivity|].
  cbn [negb orb].
  apply (fold_left_snoc_map _
           (fun p : nat * str => let '(i, chunk) := p in
              overlapped_chunk config (c :: chunks) i chunk)).
  now intros acc [i chunk].
Qed.

Lemma overlapped_chunk_succ (config : ChunkingConfig) (chunks : list str)
    (i : nat) (prev chunk : str) :
  0 < overlap_tokens config ->
  nth_error chunks i = Some prev ->
  overlapped_chunk config chunks (S i) chunk
  = join [space]
      (trailing (Z.to_nat (Z.min (Z.of_nat (length (split_ws prev)))
                                 (overlap_tokens config)))
                (split_ws prev))
    ++ [nl; nl] ++ chunk.
Proof.
  intros Hov Hprev. unfold overlapped_chunk.
  replace (S i - 1)%nat with i by lia.
  rewrite (nth_error_nth _ _ _ Hprev).
  unfold list_slice_from, trailing, slice_bound.
  set (n := length (split_ws prev)).
  destruct (Z.ltb_spec (Z.max 0 (Z.of_nat n - overlap_tokens config)) 0);
    [lia|].
  do 3 f_equal. lia.
Qed.

(** C8. The Overlap Window Applier is the identity when
    [overlap_tokens <= 0]; otherwise the result has the length of the
    input, chunk 0 is unchanged, and chunk [i+1] of the result is the
    trailing [min(word count, overlap_tokens)] words of the ORIGINAL chunk
    [i], joined by blanks, then a blank line, then the original chunk
    [i+1]. *)
Theorem overlap_single_hop (chunks : list str) (config : ChunkingConfig) :
  (overlap_tokens config <= 0 ->
   apply_overlap_sliding_window chunks config = chunks)
  /\
  (0 < overlap_tokens config ->
   let out := apply_overlap_sliding_window chunks config in
   length out = length chunks
   /\ nth_error out 0 = nth_error chunks 0
   /\ forall (i : nat) (prev chunk : str),
        nth_error chunks i = Some prev ->
        nth_error chunks (S i) = Some chunk ->
        let words := split_ws prev in
        let k := Z.to_nat (Z.min (Z.of_nat (length words))
                                 (overlap_tokens config)) in
        nth_error out (S i)
        = Some (join [space] (trailing k words) ++ [nl; nl] ++ chunk)).
Proof.
  split.
  - intros Hle. unfold apply_overlap_sliding_window.
    destruct (Z.leb_spec (overlap_tokens config) 0) as [_|Hlt]; [|lia].
    now rewrite orb_true_r.
  - intros Hov out. subst out. rewrite (apply_overlap_map _ _ Hov).
    split; [|split].
    + now rewrite length_map, length_enumerate.
    + rewrite nth_error_map, nth_error_enumerate.
      destruct (nth_error chunks 0); reflexivity.
    + intros i prev chunk Hprev Hchunk words k.
      rewrite nth_error_map, nth_error_enumerate, Hchunk. cbn [option_map].
      f_equal. apply (overlapped_chunk_succ _ _ _ _ _ Hov Hprev).
Qed.

Lemma overlap_single_hop_witness :
  apply_overlap_sliding_window overlap_demo_chunks (demo_config 300 800 0)
  = overlap_demo_chunks
  /\ nth_error (apply_overlap_sliding_window overlap_demo_chunks
                  (demo_config 300 800 2)) 2
     = Some (py "four five" ++ [nl; nl] ++ py "six").
Proof.
  split.
  - apply (proj1 (overlap_single_hop overlap_demo_chunks
                    (demo_config 300 800 0))).
    vm_compute. discriminate.
  - apply (proj2 (proj2 (proj2 (overlap_single_hop overlap_demo_chunks
                                  (demo_config 300 800 2))
                                eq_refl)) 1%nat (py "four five") (py "six"));
      reflexivity.
Defined.

End Overlap.

(* ================================================================= *)
(** ** The Structural Segmenter *)

Section Segmenter.

(** C7. On the scenario text with the headers [abstract] and
    [introduction], the Structural Segmenter returns exactly two sections,
    labelled [Abstract] and [1. Introduction], the labels as they are
    written in the text. *)
Theorem segment_scenario :
  split_into_sections scenario_text [py "abstract"; py "introduction"]
  = [(py "Abstract", py "This is the abstract.");
     (py "1. Introduction", py "Background text here.")]
  /\ length (split_into_sections scenario_text
               [py "abstract"; py "introduction"]) = 2%nat
  /\ map fst (split_into_sections scenario_text
                [py "abstract"; py "introduction"])
     = [py "Abstract"; py "1. Introduction"].
Proof. vm_compute. repeat split. Qed.

End Segmenter.

Section SegmenterLoop.

Variable headers : list str.

Let is_header (l : str) : bool := is_section_header l headers.

Lemma sections_step_blank (st : list (str * str) * str * list str)
    (line : str) :
  truthy (strip line) = false -> sections_step headers st line = st.
Proof.
  intros H. unfold sections_step. destruct st as [[secs lab] content].
  now rewrite H.
Qed.

Lemma sections_step_strip (st : list (str * str) * str * list str)
    (line : str) :
  sections_step headers st (strip line) = sections_step headers st line.
Proof. unfold sections_step. now rewrite strip_strip. Qed.

(** The loop sees the trimmed, non-blank lines only. *)
Lemma fold_sections_clean (lines : list str)
    (st : list (str * str) * str * list str) :
  fold_left (sections_step headers) lines st
  = fold_left (sections_step headers) (filter truthy (map strip lines)) st.
Proof.
  revert st; induction lines as [|l lines IH]; intros st; [reflexivity|].
  cbn [fold_left map filter].
  destruct (truthy (strip l)) eqn:Hl.
  - cbn [fold_left]. rewrite sections_step_strip. apply IH.
  - rewrite (sections_step_blank st l Hl). apply IH.
Qed.

Lemma clean_line_spec (lines : list str) (l : str) :
  In l (filter truthy (map strip lines)) -> strip l = l /\ truthy l = true.
Proof.
  intros H. apply filter_In in H. destruct H as [H Ht]. split; [|exact Ht].
  apply in_map_iff in H. destruct H as (raw & <- & _). apply strip_strip.
Qed.

Lemma sections_step_content (secs : list (str * str)) (lab : str)
    (content : list str) (l : str) :
  strip l = l -> truthy l = true -> is_header l = false ->
  sections_step headers (secs, lab, content) l
  = (secs, lab, content ++ [l]).
Proof.
  unfold is_header, sections_step. intros -> -> ->. reflexivity.
Qed.

Lemma sections_step_header (secs : list (str * str)) (lab : str)
    (content : list str) (l : str) :
  strip l = l -> truthy l = true -> is_header l = true ->
  sections_step headers (secs, lab, content) l
  = (match content with
     | [] => secs
     | _ :: _ => secs ++ [(lab, join [nl] content)]
     end, l, []).
Proof.
  unfold is_header, sections_step. intros -> -> ->. reflexivity.
Qed.

(** Lines that are no headers go to the running section. *)
Lemma fold_sections_content (pre : list str) (secs : list (str * str))
    (lab : str) (content : list str) :
  Forall (fun l => strip l = l /\ truthy l = true) pre ->
  Forall (fun l => is_header l = false) pre ->
  fold_left (sections_step headers) pre (secs, lab, content)
  = (secs, lab, content ++ pre).
Proof.
  revert content; induction pre as [|l pre IH]; intros content Hclean Hno.
  - cbn. now rewrite app_nil_r.
  - inversion Hclean as [|? ? [Hs Ht] Hclean']; subst.
    inversion Hno as [|? ? Hl Hno']; subst.
    cbn [fold_left]. rewrite (sections_step_content _ _ _ _ Hs Ht Hl).
    rewrite (IH _ Hclean' Hno'), <- app_assoc. reflexivity.
Qed.

(** The closed sections only grow, and a label is the running label or a
    header line met on the way. *)
Lemma fold_sections_grow (lines : list str) :
  Forall (fun l => strip l = l /\ truthy l = true) lines ->
  forall secs lab content secs' lab' content',
    fold_left (sections_step headers) lines (secs, lab, content)
    = (secs', lab', content') ->
    let from_line x := x = lab \/ (In x lines /\ is_header x = true) in
    from_line lab'
    /\ exists extra, secs' = secs ++ extra
                     /\ Forall (fun s => from_line (fst s)) extra.
Proof.
  induction lines as [|l lines IH];
    intros Hclean secs lab content secs' lab' content' Hfold from_line.
  - cbn in Hfold. injection Hfold as <- <- <-. split; [now left|].
    exists []. split; [now rewrite app_nil_r|constructor].
  - inversion Hclean as [|? ? [Hs Ht] Hclean']; subst.
    cbn [fold_left] in Hfold.
    destruct (is_header l) eqn:Hl.
    + rewrite (sections_step_header _ _ _ _ Hs Ht Hl) in Hfold.
      apply (IH Hclean') in Hfold. destruct Hfold as (Hlab & extra & -> & Hex).
      assert (Hup : forall x, x = l \/ (In x lines /\ is_header x = true) ->
                              from_line x).
      { intros x [->|[Hin Hx]]; right; split;
          [now left|exact Hl|now right|exact Hx]. }
      split; [now apply Hup|].
      assert (Hex' : Forall (fun s => from_line (fst s)) extra).
      { eapply Forall_impl; [|exact Hex]. intros s. apply Hup. }
      destruct content as [|c content].
      * exists extra. split; [reflexivity|exact Hex'].
      * exists ((lab, join [nl] (c :: content)) :: extra).
        split; [now rewrite <- app_assoc|].
        constructor; [now left|exact Hex'].
    + rewrite (sections_step_content _ _ _ _ Hs Ht Hl) in Hfold.
      apply (IH Hclean') in Hfold. destruct Hfold as (Hlab & extra & -> & Hex).
      assert (Hup : forall x, x = lab \/ (In x lines /\ is_header x = true) ->
                              from_line x).
      { intros x [->|[Hin Hx]]; [now left|right]. split; [now right|exact Hx]. }
      split; [now apply Hup|].
      exists extra. split; [reflexivity|].
      eapply Forall_impl; [|exact Hex]. intros s. apply Hup.
Qed.

(** Header lines alone close no section. *)
Lemma fold_sections_headers (lines : list str) (lab : str) :
  Forall (fun l => strip l = l /\ truthy l = true) lines ->
  Forall (fun l => is_header l = true) lines ->
  exists lab',
    fold_left (sections_step headers) lines ([], lab, []) = ([], lab', []).
Proof.
  revert lab; induction lines as [|l lines IH]; intros lab Hclean Hall.
  - now exists lab.
  - inversion Hclean as [|? ? [Hs Ht] Hclean']; subst.
    inversion Hall as [|? ? Hl Hall']; subst.
    cbn [fold_left]. rewrite (sections_step_header _ _ _ _ Hs Ht Hl).
    apply (IH l Hclean' Hall').
Qed.

End SegmenterLoop.

(** C10. When the lines of the text (trimmed, blank ones left out) start
    with lines that are no headers, followed by a header line or by
    nothing, the Structural Segmenter returns these leading lines as its
    first section, labelled [Unknown]; the labels of the sections behind
    it are header lines of the text, so the fallback label [Content] is
    not used. *)
Theorem leading_content_is_unknown (text : str) (headers : list str)
    (pre rest : list str) :
  clean_lines text = pre ++ rest ->
  pre <> [] ->
  Forall (fun l => is_section_header l headers = false) pre ->
  (forall h tl, rest = h :: tl -> is_section_header h headers = true) ->
  exists others,
    split_into_sections text headers
    = (py "Unknown", join [nl] pre) :: others
    /\ Forall (fun s => In (fst s) rest
                        /\ is_section_header (fst s) headers = true) others.
Proof.
  intros Hlines Hpre Hno Hrest. unfold split_into_sections.
  rewrite fold_sections_clean. fold (clean_lines text). rewrite Hlines.
  assert (Hclean : Forall (fun l => strip l = l /\ truthy l = true)
                          (pre ++ rest)).
  { rewrite <- Hlines. apply Forall_forall. intros l Hl.
    apply (clean_line_spec _ _ Hl). }
  apply Forall_app in Hclean. destruct Hclean as [Hcpre Hcrest].
  rewrite fold_left_app, (fold_sections_content headers pre _ _ _ Hcpre Hno).
  cbn [app]. destruct pre as [|p pre]; [congruence|].
  destruct rest as [|h tl].
  - cbn [fold_left app]. exists []. split; [reflexivity|constructor].
  - inversion Hcrest as [|? ? [Hs Ht] Hctl]; subst.
    cbn [fold_left].
    rewrite (sections_step_header headers _ _ _ _ Hs Ht (Hrest h tl eq_refl)).
    cbn [app].
    destruct (fold_left (sections_step headers) tl
                ([(py "Unknown", join [nl] (p :: pre))], h, []))
      as [[secs' lab'] content'] eqn:Hfold.
    destruct (fold_sections_grow headers tl Hctl _ _ _ _ _ _ Hfold)
      as (Hlab & extra & -> & Hex).
    assert (Hup : forall x,
               x = h \/ (In x tl /\ is_section_header x headers = true) ->
               In x (h :: tl) /\ is_section_header x headers = true).
    { intros x [->|[Hin Hx]]; split;
        [now left|now apply (Hrest h tl)|now right|exact Hx]. }
    assert (Hex' : Forall (fun s => In (fst s) (h :: tl)
                     /\ is_section_header (fst s) headers = true) extra).
    { eapply Forall_impl; [|exact Hex]. intros s. apply Hup. }
    cbn [app].
    destruct content' as [|c content'].
    + exists extra. split; [reflexivity|exact Hex'].
    + exists (extra ++ [(lab', join [nl] (c :: content'))]).
      split; [reflexivity|].
      apply Forall_app. split; [exact Hex'|].
      constructor; [|constructor]. now apply Hup.
Qed.

Lemma leading_content_is_unknown_witness :
  exists others,
    split_into_sections preamble_text [py "abstract"; py "introduction"]
    = (py "Unknown", py "Some title" ++ [nl] ++ py "An author") :: others
    /\ Forall (fun s =>
                 In (fst s) [py "Abstract"; py "This is the abstract."]
                 /\ is_section_header (fst s)
                      [py "abstract"; py "introduction"] = true) others.
Proof.
  apply (leading_content_is_unknown preamble_text
           [py "abstract"; py "introduction"]
           [py "Some title"; py "An author"]
           [py "Abstract"; py "This is the abstract."]).
  - vm_compute. reflexivity.
  - discriminate.
  - repeat constructor.
  - intros h tl H. injection H as <- _. vm_compute. reflexivity.
Defined.

(** The fallback: a text whose lines are all blank or headers has no
    section of its own, and comes back whole under the label [Content]. *)
Lemma headers_only_is_content (text : str) (headers : list str) :
  Forall (fun l => is_section_header l headers = true) (clean_lines text) ->
  split_into_sections text headers = [(py "Content", strip text)].
Proof.
  intros Hall. unfold split_into_sections.
  rewrite fold_sections_clean. fold (clean_lines text).
  assert (Hclean : Forall (fun l => strip l = l /\ truthy l = true)
                          (clean_lines text)).
  { apply Forall_forall. intros l Hl. apply (clean_line_spec _ _ Hl). }
  destruct (fold_sections_headers headers (clean_lines text) (py "Unknown")
              Hclean Hall) as [lab' ->].
  reflexivity.
Qed.

Example segment_preamble :
  split_into_sections preamble_text [py "abstract"; py "introduction"]
  = [(py "Unknown", py "Some title" ++ [nl] ++ py "An author");
     (py "Abstract", py "This is the abstract.")].
Proof. vm_compute. reflexivity. Qed.

Example segment_fallback :
  split_into_sections (py "Abstract" ++ [nl] ++ py "1. Introduction")
    [py "abstract"; py "introduction"]
  = [(py "Content", py "Abstract" ++ [nl] ++ py "1. Introduction")].
Proof. vm_compute. reflexivity. Qed.

(* ================================================================= *)
(** ** The Dual Collection Store *)

Section SortFacts.

Lemma Permutation_insert_desc (x : SearchResult) (l : list SearchResult) :
  Permutation (insert_desc x l) (x :: l).
Proof.
  induction l as [|y l IH]; simpl; [reflexivity|].
  destruct (Qle_bool _ _); [|reflexivity].
  rewrite IH. apply perm_swap.
Qed.

Lemma sorted_insert_desc (x : SearchResult) (l : list SearchResult) :
  StronglySorted score_ge l -> StronglySorted score_ge (insert_desc x l).
Proof.
  induction 1 as [|y l Hs IH Hy]; simpl.
  - constructor; constructor.
  - destruct (Qle_bool (similarity_score x) (similarity_score y)) eqn:Hle.
    + constructor; [exact IH|].
      apply (Permutation_Forall (Permutation_sym (Permutation_insert_desc x l))).
      constructor; [|exact Hy].
      unfold score_ge. now apply Qle_bool_iff.
    + assert (Hlt : (similarity_score y < similarity_score x)%Q).
      { apply Qnot_le_lt. intros H. apply Qle_bool_iff in H. congruence. }
      constructor; [now constructor|].
      constructor; [apply Qlt_le_weak, Hlt|].
      apply Forall_forall. intros r Hr. unfold score_ge.
      apply Qle_trans with (similarity_score y).
      * now apply (proj1 (Forall_forall _ _) Hy).
      * apply Qlt_le_weak, Hlt.
Qed.

Lemma sort_desc_from (l acc : list SearchResult) :
  StronglySorted score_ge acc ->
  let out := fold_left (fun sorted x => insert_desc x sorted) l acc in
  StronglySorted score_ge out /\ Permutation out (acc ++ l).
Proof.
  revert acc; induction l as [|x l IH]; intros acc Hacc; simpl.
  - split; [exact Hacc|now rewrite app_nil_r].
  - destruct (IH (insert_desc x acc) (sorted_insert_desc x acc Hacc))
      as (Hs & Hperm).
    split; [exact Hs|]. rewrite Hperm, Permutation_insert_desc.
    apply Permutation_middle.
Qed.

(** The sort gives the same results, by score from the greatest down. *)
Lemma sort_desc_spec (l : list SearchResult) :
  StronglySorted score_ge (sort_desc l) /\ Permutation (sort_desc l) l.
Proof. apply (sort_desc_from l [] (SSorted_nil _)). Qed.

Lemma length_zip3 {A B C} (a : list A) (b : list B) (c : list C) :
  (length (zip3 a b c) <= length a)%nat.
Proof.
  revert b c; induction a as [|x a IH]; intros [|y b] [|z c]; simpl; try lia.
  specialize (IH b c). lia.
Qed.

End SortFacts.

Section Store.

Variable encode : str -> option (list Q).
Variable fine_collection coarse_collection :
  list Q -> Z -> option QueryResult.

Lemma format_results_map (name : str)
    (rows : list (str * option metadata * Q)) :
  format_results name rows
  = map (fun '(i, (doc, md, dist)) =>
           {| text := doc;
              meta := match md with Some m => m | None => [] end;
              distance := dist;
              similarity_score := 1 - dist;
              rank := Z.of_nat i + 1;
              collection := name |})
        (combine (seq 0 (length rows)) rows).
Proof.
  unfold format_results.
  apply (fold_left_snoc_map _
           (fun p : nat * (str * option metadata * Q) =>
              let '(i, (doc, md, dist)) := p in
              {| text := doc;
                 meta := match md with Some m => m | None => [] end;
                 distance := dist;
                 similarity_score := 1 - dist;
                 rank := Z.of_nat i + 1;
                 collection := name |})).
  now intros acc [i [[doc md] dist]].
Qed.

Lemma format_results_spec (name : str)
    (rows : list (str * option metadata * Q)) :
  length (format_results name rows) = length rows
  /\ forall r, In r (format_results name rows) ->
               similarity_score r = (1 - distance r)%Q.
Proof.
  rewrite format_results_map. split.
  - now rewrite length_map, length_enumerate.
  - intros r Hr. apply in_map_iff in Hr.
    destruct Hr as [[i [[doc md] dist]] [<- _]]. reflexivity.
Qed.

Hypothesis fine_at_most : at_most_n_results fine_collection.
Hypothesis coarse_at_most : at_most_n_results coarse_collection.

Lemma search_collection_spec (query : str) (k : Z) (name : str) :
  let results :=
    search_collection encode fine_collection coarse_collection query k name in
  (0 <= k -> Z.of_nat (length results) <= k)
  /\ forall r, In r results -> similarity_score r = (1 - distance r)%Q.
Proof.
  unfold search_collection.
  destruct (encode query) as [e|]; [|split; [simpl; lia|intros r []]].
  set (collection := if str_eqb name (py "fine")
                     then fine_collection else coarse_collection).
  assert (Hcoll : at_most_n_results collection).
  { unfold collection. destruct (str_eqb name (py "fine")); assumption. }
  destruct (collection e k) as [res|] eqn:Hq;
    [|split; [simpl; lia|intros r []]].
  destruct (documents res) as [|[|d docs0] rest] eqn:Hdocs;
    try (split; [simpl; lia|intros r []]).
  destruct (metadatas res) as [|metas0 ?];
    [split; [simpl; lia|intros r []]|].
  destruct (distances res) as [|dists0 ?];
    [split; [simpl; lia|intros r []]|].
  destruct (format_results_spec name (zip3 (d :: docs0) metas0 dists0))
    as [Hlen Hscore].
  split; [|exact Hscore].
  intros _. rewrite Hlen.
  pose proof (length_zip3 (d :: docs0) metas0 dists0) as Hz.
  pose proof (Hcoll e k res (d :: docs0) rest Hq Hdocs). lia.
Qed.

(** C9. The combined result sequence of [search_both_collections] holds
    the results of the two collections, at most [k_fine + k_coarse] of
    them; its similarity scores do not increase along the sequence, and
    each score is [1 - distance]. *)
Theorem search_both_bounded_sorted (query : str) (k_fine k_coarse : Z) :
  0 <= k_fine -> 0 <= k_coarse ->
  let search := search_collection encode fine_collection coarse_collection in
  let results :=
    search_both_collections encode fine_collection coarse_collection
                            query k_fine k_coarse in
  Z.of_nat (length results) <= k_fine + k_coarse
  /\ StronglySorted score_ge results
  /\ Forall (fun r => similarity_score r = (1 - distance r)%Q) results
  /\ Permutation results (search query k_fine (py "fine")
                          ++ search query k_coarse (py "coarse")).
Proof.
  intros Hf Hc search results. subst results search.
  unfold search_both_collections.
  set (fine := search_collection _ _ _ query k_fine (py "fine")).
  set (coarse := search_collection _ _ _ query k_coarse (py "coarse")).
  destruct (sort_desc_spec (fine ++ coarse)) as (Hs & Hperm).
  destruct (search_collection_spec query k_fine (py "fine")) as [Hlf Hsf].
  destruct (search_collection_spec query k_coarse (py "coarse")) as [Hlc Hsc].
  fold fine in Hlf, Hsf. fold coarse in Hlc, Hsc.
  split; [|split; [|split]].
  - rewrite (Permutation_length Hperm), length_app.
    specialize (Hlf Hf). specialize (Hlc Hc). lia.
  - exact Hs.
  - apply Forall_forall. intros r Hr.
    apply (Permutation_in _ Hperm) in Hr.
    apply in_app_or in Hr. destruct Hr; [now apply Hsf|now apply Hsc].
  - exact Hperm.
Qed.

End Store.

Lemma fixed_index_at_most (rows : list (str * metadata * Q)) :
  at_most_n_results (fixed_index rows).
Proof.
  intros e k r docs0 rest Hq Hdocs. unfold fixed_index in Hq.
  destruct (Z.ltb_spec k 1); [discriminate|].
  injection Hq as <-. cbn [documents] in Hdocs.
  injection Hdocs as <- _.
  rewrite length_map, length_firstn. lia.
Qed.

Lemma search_both_bounded_sorted_witness :
  let results :=
    search_both_collections demo_encode (fixed_index demo_rows_hit)
      (fixed_index demo_rows_miss) (py "deep learning") 1 1 in
  Z.of_nat (length results) <= 1 + 1 /\ StronglySorted score_ge results.
Proof.
  destruct (search_both_bounded_sorted demo_encode
              (fixed_index demo_rows_hit) (fixed_index demo_rows_miss)
              (fixed_index_at_most demo_rows_hit)
              (fixed_index_at_most demo_rows_miss)
              (py "deep learning") 1 1) as (Hlen & Hsorted & _); [lia|lia|].
  split; [exact Hlen|exact Hsorted].
Defined.

Example search_both_demo :
  map similarity_score
    (search_both_collections demo_encode (fixed_index demo_rows_miss)
       (fixed_index demo_rows_hit) (py "deep learning") 3 2)
  = [(85 # 100)%Q; (75 # 100)%Q; (65 # 100)%Q].
Proof. vm_compute. reflexivity. Qed.

(* ================================================================= *)
(** ** The Citation Matcher *)

Section Snippet.

Lemma rfind_go_cases (c : ascii) (s : str) (i found : Z) :
  (rfind_go c s i found = found /\ forall j, nth_error s j <> Some c)
  \/ (exists k : nat,
        rfind_go c s i found = i + Z.of_nat k
        /\ nth_error s k = Some c
        /\ forall j, (k < j)%nat -> nth_error s j <> Some c).
Proof.
  revert i found; induction s as [|x s IH]; intros i found; simpl.
  - left. split; [reflexivity|]. intros [|j]; discriminate.
  - destruct (IH (i + 1) (if Ascii.eqb x c then i else found))
      as [[Hr Hno]|[k [Hr [Hk Hlast]]]].
    + destruct (Ascii.eqb_spec x c) as [->|Hxc].
      * right. exists 0%nat. rewrite Hr. repeat split.
        -- lia.
        -- intros [|j] Hj; [lia|]. apply Hno.
      * left. split; [exact Hr|].
        intros [|j]; simpl; [congruence|apply Hno].
    + right. exists (S k). rewrite Hr. repeat split.
      * lia.
      * exact Hk.
      * intros [|j] Hj; [lia|]. simpl. apply Hlast. lia.
Qed.

Lemma slice_to_firstn (s : str) (b : Z) :
  0 <= b <= len s -> slice_to s b = firstn (Z.to_nat b) s.
Proof.
  intros Hb. unfold slice_to, slice, slice_bound. cbn [Z.ltb Z.compare].
  destruct (Z.ltb_spec b 0); [lia|].
  replace (Z.to_nat (Z.min 0 (len s))) with 0%nat by (unfold len; lia).
  rewrite Nat.sub_0_r. cbn [skipn]. f_equal. lia.
Qed.

(** C5, as the code has it.  For a chunk text of more than 300
    characters, the snippet is the text up to (and without) its last blank
    among the first 300 characters when that blank is at an index above
    250, and the first 300 characters otherwise; in both cases the marker
    [...] follows, so the snippet has at most 303 characters. *)
Theorem snippet_truncation (match_text : str) :
  300 < len match_text ->
  (forall i : nat,
     (250 < i < 300)%nat ->
     nth_error match_text i = Some space ->
     (forall j, (i < j < 300)%nat -> nth_error match_text j <> Some space) ->
     snippet_of match_text = firstn i match_text ++ py "...")
  /\ ((forall j, (250 < j < 300)%nat ->
                 nth_error match_text j <> Some space) ->
      snippet_of match_text = firstn 300 match_text ++ py "...")
  /\ len (snippet_of match_text) <= 303.
Proof.
  intros Hlen. unfold snippet_of.
  destruct (Z.gtb_spec (len match_text) 300) as [_|]; [|lia].
  rewrite (slice_to_firstn match_text 300) by lia.
  change (Z.to_nat 300) with 300%nat.
  set (truncated := firstn 300 match_text).
  assert (Hlt : length truncated = 300%nat).
  { apply firstn_length_le. unfold len in Hlen. lia. }
  assert (Hnth : forall j, (j < 300)%nat ->
                           nth_error truncated j = nth_error match_text j).
  { intros j Hj. unfold truncated. rewrite nth_error_firstn.
    destruct (Nat.ltb_spec j 300); [reflexivity|lia]. }
  assert (Hout : forall j, (300 <= j)%nat -> nth_error truncated j = None).
  { intros j Hj. apply nth_error_None. lia. }
  unfold rfind.
  destruct (rfind_go_cases space truncated 0 (-1))
    as [[Hr Hno]|[k [Hr [Hk Hlast]]]]; rewrite Hr.
  - (* no blank among the first 300 characters *)
    cbn [Z.gtb Z.compare]. repeat split.
    + intros i Hi Hsp _. exfalso. apply (Hno i). now rewrite Hnth by lia.
    + rewrite len_app. unfold len. rewrite Hlt. cbn. lia.
  - assert (Hk300 : (k < 300)%nat).
    { rewrite <- Hlt. apply nth_error_Some. congruence. }
    rewrite Z.add_0_l.
    destruct (Z.gtb_spec (Z.of_nat k) 250) as [Hgt|Hle].
    + (* the last blank is above index 250 *)
      rewrite (slice_to_firstn truncated (Z.of_nat k)) by (unfold len; lia).
      rewrite Nat2Z.id. unfold truncated at 1 2 3.
      rewrite firstn_firstn. replace (Nat.min k 300) with k by lia.
      repeat split.
      * intros i Hi Hsp Hafter. f_equal. f_equal.
        destruct (Nat.lt_trichotomy i k) as [Hik|[Hik|Hik]].
        -- exfalso. apply (Hafter k); [lia|]. now rewrite <- Hnth by lia.
        -- now subst.
        -- exfalso. apply (Hlast i Hik). now rewrite Hnth by lia.
      * intros Hnone. exfalso. apply (Hnone k); [lia|].
        now rewrite <- Hnth by lia.
      * rewrite len_app. unfold len.
        rewrite firstn_length_le by (unfold len in Hlen; lia). cbn. lia.
    + (* the last blank is at index 250 or below *)
      repeat split.
      * intros i Hi Hsp _. exfalso. apply (Hlast i); [lia|].
        now rewrite Hnth by lia.
      * rewrite len_app. unfold len. rewrite Hlt. cbn. lia.
Qed.

Lemma snippet_truncation_witness :
  len (snippet_of long_word) <= 303.
Proof.
  apply (snippet_truncation long_word). vm_compute. reflexivity.
Defined.

(** C5 as stated fails: the snippet of a text of 301 letters has 303
    characters, more than 300; and a last blank at index 250 exactly does
    not make the snippet end there. *)
Lemma snippet_longer_than_300 :
  300 < len long_word
  /\ ~ (len (snippet_of long_word) <= 300)
  /\ 300 < len blank_at_250
  /\ rfind space (slice_to blank_at_250 300) = 250
  /\ snippet_of blank_at_250 <> firstn 250 blank_at_250
  /\ snippet_of blank_at_250 <> firstn 250 blank_at_250 ++ py "...".
Proof.
  split; [reflexivity|]. split; [vm_compute; intros H; now apply H|].
  split; [reflexivity|]. split; [vm_compute; reflexivity|].
  split; vm_compute; discriminate.
Qed.

End Snippet.

Section Matcher.

Variable encode : str -> option (list Q).
Variable fine_collection coarse_collection :
  list Q -> Z -> option QueryResult.

Lemma max_by_score_spec (l : list SearchResult) (best : SearchResult) :
  In (max_by_score best l) (best :: l)
  /\ forall r, In r (best :: l) -> score_ge (max_by_score best l) r.
Proof.
  unfold score_ge.
  revert best; induction l as [|x l IH]; intros best; simpl.
  - split; [now left|]. intros r [<-|[]]. apply Qle_refl.
  - destruct (Qle_bool (similarity_score x) (similarity_score best)) eqn:Hle;
      cbn [negb];
      [ destruct (IH best) as [Hin Hmax] | destruct (IH x) as [Hin Hmax] ].
    + split.
      * destruct Hin as [<-|Hin]; [now left|now right; right].
      * intros r [<-|[<-|Hr]].
        -- apply Hmax. now left.
        -- apply Qle_trans with (similarity_score best).
           ++ now apply Qle_bool_iff.
           ++ apply Hmax. now left.
        -- apply Hmax. now right.
    + split.
      * destruct Hin as [<-|Hin]; [now right; left|now right; right].
      * intros r [<-|[<-|Hr]].
        -- apply Qle_trans with (similarity_score x).
           ++ apply Qlt_le_weak, Qnot_le_lt. intros H.
              apply Qle_bool_iff in H. congruence.
           ++ apply Hmax. now left.
        -- apply Hmax. now left.
        -- apply Hmax. now right.
Qed.

Lemma search_fine_only (other : list Q -> Z -> option QueryResult)
    (query : str) (k : Z) :
  search_collection encode fine_collection other query k (py "fine")
  = search_collection encode fine_collection coarse_collection
                      query k (py "fine").
Proof. reflexivity. Qed.

(** C6. [suggest_citation] asks the fine collection, and no other, for 3
    results.  With no result it answers [match=false, score=0.0].
    Otherwise it picks a result of greatest similarity score and reports
    that score; the answer is a match, with a paper record, when the score
    is at least 0.8, and no match, with no paper, when it is below. *)
Theorem suggest_citation_decision (req_text : str) :
  let results :=
    search_collection encode fine_collection coarse_collection
                      req_text 3 (py "fine") in
  let resp :=
    suggest_citation encode fine_collection coarse_collection req_text in
  (forall other, suggest_citation encode fine_collection other req_text = resp)
  /\
  (results = [] ->
   match_ resp = false /\ score resp = 0%Q /\ paper resp = None)
  /\
  (results <> [] ->
   exists best,
     In best results
     /\ (forall r, In r results -> score_ge best r)
     /\ score resp = similarity_score best
     /\ ((8 # 10 <= similarity_score best)%Q ->
         match_ resp = true
         /\ exists p, paper resp = Some p
                      /\ match_snippet p = Some (snippet_of (text best)))
     /\ ((similarity_score best < 8 # 10)%Q ->
         match_ resp = false /\ paper resp = None)).
Proof.
  intros results resp. subst resp.
  split; [intros other; unfold suggest_citation;
          now rewrite (search_fine_only other)|].
  unfold suggest_citation.
  fold results. destruct results as [|first others].
  - split; [now repeat split|]. intros H. now elim H.
  - split; [discriminate|]. intros _.
    destruct (max_by_score_spec others first) as [Hin Hmax].
    exists (max_by_score first others).
    split; [exact Hin|]. split; [exact Hmax|].
    destruct (Qle_bool (8 # 10)
                (similarity_score (max_by_score first others))) eqn:Hthr;
      cbn [score match_ paper].
    + split; [reflexivity|]. split.
      * intros _. split; [reflexivity|]. eexists. split; reflexivity.
      * intros Hlt. exfalso. apply Qle_bool_iff in Hthr.
        apply (Qlt_not_le _ _ Hlt Hthr).
    + split; [reflexivity|]. split.
      * intros Hge. apply Qle_bool_iff in Hge. congruence.
      * intros _. split; reflexivity.
Qed.

End Matcher.

Lemma suggest_citation_decision_witness :
  match_ (suggest_citation demo_encode (fixed_index demo_rows_hit)
            (fixed_index []) (py "a paragraph about machine learning"))
  = true.
Proof.
  destruct (proj2 (proj2 (suggest_citation_decision demo_encode
                            (fixed_index demo_rows_hit) (fixed_index [])
                            (py "a paragraph about machine learning"))))
    as (best & _ & _ & Hscore & Hhit & _).
  - vm_compute. discriminate.
  - apply Hhit. rewrite <- Hscore. vm_compute. discriminate.
Defined.

(** The two scenarios: a best score of 0.85 is a match reported with that
    score; a best score of 0.65 is no match, the score still reported and
    no paper. *)
Example suggest_citation_085 :
  let resp := suggest_citation demo_encode (fixed_index demo_rows_hit)
                (fixed_index []) (py "a paragraph about machine learning") in
  match_ resp = true /\ score resp = (85 # 100)%Q
  /\ option_map title (paper resp)
     = Some (py "Machine Learning Fundamentals").
Proof. vm_compute. repeat split. Qed.

Example suggest_citation_065 :
  let resp := suggest_citation demo_encode (fixed_index demo_rows_miss)
                (fixed_index []) (py "something completely different") in
  match_ resp = false /\ score resp = (65 # 100)%Q /\ paper resp = None.
Proof. vm_compute. repeat split. Qed.

Example suggest_citation_empty :
  let resp := suggest_citation demo_encode (fixed_index [])
                (fixed_index []) (py "a paragraph about something") in
  match_ resp = false /\ score resp = 0%Q /\ paper resp = None.
Proof. vm_compute. repeat split. Qed.

(* ================================================================= *)
(** ** The Token-Budgeted Merger *)

Section Merger.

Variable tiktoken : option (str -> option (str -> list Z)).
Variable config : ChunkingConfig.

Let ct (c : str) : Z := count_tokens tiktoken c (tokenizer_model config).
Let undersized (c : str) : bool := ct c <? min_tokens config.

Lemma count_tokens_nonneg (c model : str) :
  0 <= count_tokens tiktoken c model.
Proof.
  unfold count_tokens.
  destruct tiktoken as [f|]; [destruct (f model)|]; lia.
Qed.

Lemma render_single (c : str) : render (c, []) = c.
Proof. reflexivity. Qed.

Lemma render_snoc (c : str) (smalls : list str) (x : str) :
  render (c, smalls ++ [x]) = render (c, smalls) ++ [nl; nl] ++ x.
Proof.
  unfold render, members. cbn [fst snd].
  change (c :: smalls ++ [x]) with ((c :: smalls) ++ [x]).
  now rewrite join_snoc by discriminate.
Qed.

Lemma post_step_accept (final : list str) (c : str) :
  undersized c = false -> post_step tiktoken config final c = final ++ [c].
Proof.
  unfold undersized, ct, post_step. intros H.
  destruct (Z.ltb_spec (count_tokens tiktoken c (tokenizer_model config))
                       (min_tokens config)); [discriminate|].
  destruct (Z.geb_spec (count_tokens tiktoken c (tokenizer_model config))
                       (min_tokens config)); [reflexivity|lia].
Qed.

Lemma post_step_fold (final : list str) (prev c : str) :
  undersized c = true ->
  post_step tiktoken config (final ++ [prev]) c
  = final ++ [prev ++ [nl; nl] ++ c].
Proof.
  unfold undersized, ct, post_step. intros H.
  destruct (Z.ltb_spec (count_tokens tiktoken c (tokenizer_model config))
                       (min_tokens config)); [|discriminate].
  destruct (Z.geb_spec (count_tokens tiktoken c (tokenizer_model config))
                       (min_tokens config)); [lia|].
  rewrite set_last_snoc, last_last.
  destruct (final ++ [prev]) eqn:E; [|reflexivity].
  now destruct final.
Qed.

Lemma post_step_drop (c : str) :
  undersized c = true -> post_step tiktoken config [] c = [].
Proof.
  unfold undersized, ct, post_step. intros H.
  destruct (Z.ltb_spec (count_tokens tiktoken c (tokenizer_model config))
                       (min_tokens config)); [|discriminate].
  destruct (Z.geb_spec (count_tokens tiktoken c (tokenizer_model config))
                       (min_tokens config)); [lia|reflexivity].
Qed.

Let good (g : str * list str) : Prop :=
  good_group ct (min_tokens config) g.

Lemma post_pass_groups (chunks : list str) (groups : list (str * list str)) :
  Forall good groups ->
  exists groups',
    fold_left (post_step tiktoken config) chunks (map render groups)
    = map render groups'
    /\ flat_map members groups'
       = flat_map members groups
         ++ (match groups with
             | [] => skip_while undersized chunks
             | _ :: _ => chunks
             end)
    /\ Forall good groups'.
Proof.
  revert groups; induction chunks as [|c chunks IH]; intros groups Hgood.
  - exists groups. cbn [fold_left]. repeat split; [|exact Hgood].
    destruct groups; cbn [skip_while]; now rewrite app_nil_r.
  - cbn [fold_left]. destruct (undersized c) eqn:Hc.
    + destruct (snoc_cases groups) as [->|(gs & [g smalls] & ->)].
      * cbn [map skip_while]. rewrite Hc, (post_step_drop c Hc).
        apply (IH [] Hgood).
      * rewrite map_app. cbn [map].
        rewrite (post_step_fold _ _ _ Hc), <- render_snoc.
        change (map render gs ++ [render (g, smalls ++ [c])])
          with (map render gs ++ map render [(g, smalls ++ [c])]).
        rewrite <- map_app.
        apply Forall_app in Hgood. destruct Hgood as [Hgs Hg].
        inversion Hg as [|? ? [Hmin Hsm] _]; subst. cbn [fst snd] in *.
        destruct (IH (gs ++ [(g, smalls ++ [c])])) as (groups' & Hf & Hm & Hg').
        { apply Forall_app. split; [exact Hgs|]. constructor; [|constructor].
          split; [exact Hmin|]. cbn [snd]. apply Forall_app. split; [exact Hsm|].
          constructor; [|constructor]. unfold undersized in Hc.
          now apply Z.ltb_lt. }
        exists groups'. split; [exact Hf|]. split; [|exact Hg'].
        rewrite Hm.
        replace (match gs ++ [(g, smalls ++ [c])] with
                 | [] => skip_while undersized chunks
                 | _ :: _ => chunks
                 end) with chunks by (destruct gs; reflexivity).
        replace (match gs ++ [(g, smalls)] with
                 | [] => skip_while undersized (c :: chunks)
                 | _ :: _ => c :: chunks
                 end) with (c :: chunks) by (destruct gs; reflexivity).
        rewrite !flat_map_app. unfold members. cbn [flat_map fst snd].
        rewrite !app_nil_r, <- !app_assoc. cbn [app].
        rewrite <- app_assoc. reflexivity.
    + rewrite (post_step_accept _ _ Hc).
      change (map render groups ++ [c])
        with (map render groups ++ map render [(c, [])]).
      rewrite <- map_app.
      destruct (IH (groups ++ [(c, [])])) as (groups' & Hf & Hm & Hg').
      { apply Forall_app. split; [exact Hgood|]. constructor; [|constructor].
        split; [|constructor]. cbn [fst]. unfold undersized in Hc.
        now apply Z.ltb_ge. }
      exists groups'. split; [exact Hf|]. split; [|exact Hg'].
      rewrite Hm.
      replace (match groups ++ [(c, [])] with
               | [] => skip_while undersized chunks
               | _ :: _ => chunks
               end) with chunks by (destruct groups; reflexivity).
      rewrite flat_map_app. unfold members. cbn [flat_map fst snd app].
      rewrite <- app_assoc. cbn [app].
      destruct groups; cbn [skip_while]; now rewrite ?Hc.
Qed.

(** C1, as the code has it.  The result of the Token-Budgeted Merger is
    made of groups: a chunk of at least [min_tokens] tokens followed by
    the undersized chunks that come behind it, in order, joined by blank
    lines.  The groups hold every chunk of the greedy pass from the first
    accepted one on, so an undersized chunk is folded into the accepted
    chunk just before it and never discarded; the undersized chunks that
    come before any accepted chunk are dropped. *)
Theorem undersized_fold_into_previous (paragraphs : list str) :
  exists groups : list (str * list str),
    merge_paragraphs_semantically tiktoken paragraphs config
    = map render groups
    /\ flat_map members groups
       = skip_while (fun c => count_tokens tiktoken c (tokenizer_model config)
                              <? min_tokens config)
                    (greedy_chunks tiktoken config paragraphs)
    /\ Forall (good_group
                 (fun c => count_tokens tiktoken c (tokenizer_model config))
                 (min_tokens config))
              groups.
Proof.
  unfold merge_paragraphs_semantically.
  destruct paragraphs as [|p ps].
  - exists []. repeat split; constructor.
  - destruct (post_pass_groups (greedy_chunks tiktoken config (p :: ps)) [])
      as (groups & Hf & Hm & Hg); [constructor|].
    exists groups. repeat split; assumption.
Qed.

Lemma count_render (c : str) (smalls : list str) :
  additive_counts ct -> ct c <= ct (render (c, smalls)).
Proof.
  intros (Hadd & _ & _).
  induction smalls as [|x smalls IH] using rev_ind.
  - rewrite render_single. lia.
  - rewrite render_snoc, Hadd.
    pose proof (count_tokens_nonneg x (tokenizer_model config)).
    fold (ct x) in H. lia.
Qed.




End Merger.

Lemma word_count_additive (model : str) :
  additive_counts (fun c => count_tokens None c model).
Proof.
  unfold additive_counts, count_tokens. repeat split.
  - intros a b. rewrite split_ws_blank_line, length_app. lia.
  - intros a. now rewrite split_ws_strip.
Qed.


(** C1 as stated fails: a lone chunk of one token, with [min_tokens = 5],
    has no accepted chunk before it, and it is not kept: the result is
    empty. *)
Lemma undersized_first_chunk_dropped :
  min_tokens (demo_config 5 20 0) <= max_tokens (demo_config 5 20 0)
  /\ greedy_chunks None (demo_config 5 20 0) [py "tiny"] = [py "tiny"]
  /\ count_tokens None (py "tiny") (py "gpt-3.5-turbo") = 1
  /\ merge_paragraphs_semantically None [py "tiny"] (demo_config 5 20 0) = []
  /\ ~ In (py "tiny")
         (merge_paragraphs_semantically None [py "tiny"] (demo_config 5 20 0)).
Proof.
  split; [vm_compute; discriminate|].
  repeat split; try reflexivity. intros H. exact H.
Qed.


(* ================================================================= *)
(** ** The sentence splitter *)

Section Splitter.

Lemma space_not_mark (c : ascii) : is_space c = true -> is_mark c = false.
Proof.
  unfold is_space, is_mark. intros H.
  destruct (Ascii.eqb_spec c (ascii_of_nat 46)) as [->|_]; [discriminate H|].
  destruct (Ascii.eqb_spec c (ascii_of_nat 33)) as [->|_]; [discriminate H|].
  destruct (Ascii.eqb_spec c (ascii_of_nat 63)) as [->|_]; [discriminate H|].
  reflexivity.
Qed.

Lemma ends_mark_snoc (am : bool) (s : str) (c : ascii) :
  ends_mark am (s ++ [c]) = is_mark c.
Proof. revert am; induction s as [|x s IH]; intros am; [reflexivity|apply IH]. Qed.

Lemma no_break_app (am : bool) (a b : str) :
  no_break am (a ++ b) = no_break am a && no_break (ends_mark am a) b.
Proof.
  revert am; induction a as [|x a IH]; intros am; [reflexivity|].
  cbn [app no_break ends_mark].
  destruct (is_space x) eqn:Hx.
  - rewrite IH, (space_not_mark x Hx). now rewrite andb_assoc.
  - apply IH.
Qed.

(** The splitter runs through a text without separator. *)
Lemma re_split_go_whole (p q cur : str) (am : bool) :
  no_break am p = true ->
  re_split_go cur am false (p ++ q)
  = re_split_go (cur ++ p) (ends_mark am p) false q.
Proof.
  revert cur am; induction p as [|c p IH]; intros cur am Hp.
  - now rewrite app_nil_r.
  - cbn [app re_split_go no_break ends_mark] in *.
    destruct (is_space c) eqn:Hc.
    + apply andb_prop in Hp. destruct Hp as [Ham Hp].
      apply negb_true_iff in Ham. subst am.
      rewrite (space_not_mark c Hc), (IH _ _ Hp), <- app_assoc. reflexivity.
    + rewrite (IH _ _ Hp), <- app_assoc. reflexivity.
Qed.

(** A blank after a sentence that ends with a mark closes it. *)
Lemma re_split_sentence_then (p q : str) :
  no_break false p = true -> ends_mark false p = true ->
  (forall c t, q = c :: t -> is_space c = false) ->
  re_split_sentences (p ++ [space] ++ q) = p :: re_split_sentences q.
Proof.
  intros Hp Hend Hq. unfold re_split_sentences.
  rewrite (re_split_go_whole p _ [] false Hp), Hend.
  cbn [app re_split_go]. change (is_space space) with true. cbv iota.
  f_equal. destruct q as [|c t]; [reflexivity|].
  cbn [re_split_go]. now rewrite (Hq c t eq_refl).
Qed.

Lemma re_split_sentence_alone (p : str) :
  no_break false p = true -> re_split_sentences p = [p].
Proof.
  intros Hp. unfold re_split_sentences.
  rewrite <- (app_nil_r p) at 1.
  now rewrite (re_split_go_whole p [] [] false Hp).
Qed.

(** Sentences joined by blanks split into the same sentences again. *)
Lemma re_split_join (g : list str) :
  Forall whole_sentence g ->
  all_but_last (fun s => ends_mark false s = true) g ->
  g <> [] ->
  re_split_sentences (join [space] g) = g.
Proof.
  induction g as [|a g IH]; intros Hall Hends Hne; [congruence|].
  inversion Hall as [|? ? [[Hane Hatr] Hanb] Hg]; subst.
  destruct g as [|b g].
  - cbn [join]. now apply re_split_sentence_alone.
  - destruct Hends as [Hend Hends].
    change (join [space] (a :: b :: g))
      with (a ++ [space] ++ join [space] (b :: g)).
    rewrite re_split_sentence_then; [|exact Hanb|exact Hend|].
    + f_equal. apply IH; [exact Hg|exact Hends|discriminate].
    + assert (Htr : trimmed (join [space] (b :: g))).
      { apply trimmed_join. eapply Forall_impl; [|exact Hg].
        now intros s [H _]. }
      exact (proj1 Htr).
Qed.

Lemma strip_filter_sentences (l : list str) :
  Forall sentence_ok l ->
  map strip (filter (fun s => truthy (strip s)) l) = l.
Proof.
  induction 1 as [|s l [Hs Htr] _ IH]; [reflexivity|].
  cbn [filter]. rewrite (strip_of_trimmed s Htr).
  apply truthy_true in Hs. rewrite Hs. cbn [map].
  now rewrite (strip_of_trimmed s Htr), IH.
Qed.

Lemma sentences_of_join (g : list str) :
  Forall whole_sentence g ->
  all_but_last (fun s => ends_mark false s = true) g ->
  sentences_of (join [space] g) = g.
Proof.
  intros Hall Hends. unfold sentences_of.
  destruct g as [|a g]; [reflexivity|].
  rewrite (re_split_join _ Hall Hends) by discriminate.
  apply strip_filter_sentences.
  eapply Forall_impl; [|exact Hall]. now intros s [H _].
Qed.

Lemma all_but_last_cons {A} (P : A -> Prop) (x : A) (l : list A) :
  P x -> all_but_last P l -> all_but_last P (x :: l).
Proof. intros Hx Hl. destruct l; [exact I|now split]. Qed.

Lemma all_but_last_tail {A} (P : A -> Prop) (x : A) (l : list A) :
  all_but_last P (x :: l) -> all_but_last P l.
Proof. destruct l; [intros _; exact I|now intros [_ H]]. Qed.

Lemma all_but_last_app_r {A} (P : A -> Prop) (a b : list A) :
  all_but_last P (a ++ b) -> all_but_last P b.
Proof.
  induction a as [|x a IH]; [intros H; exact H|]. intros H.
  apply IH, (all_but_last_tail P x), H.
Qed.

Lemma all_but_last_app_l {A} (P : A -> Prop) (a b : list A) :
  all_but_last P (a ++ b) -> all_but_last P a.
Proof.
  induction a as [|x a IH]; [intros _; exact I|]. intros H.
  destruct a as [|y a]; [exact I|].
  destruct H as [Hx H]. split; [exact Hx|now apply IH].
Qed.

Lemma all_but_last_filter_map {A B} (P : A -> Prop) (Q : B -> Prop)
    (f : A -> B) (h : A -> bool) (l : list A) :
  (forall x, P x -> Q (f x)) ->
  all_but_last P l -> all_but_last Q (map f (filter h l)).
Proof.
  intros Hf. induction l as [|x l IH]; [intros _; exact I|]. intros H.
  pose proof (IH (all_but_last_tail P x l H)) as Htail.
  cbn [filter]. destruct (h x); [|exact Htail]. cbn [map].
  destruct l as [|y l]; [exact I|]. destruct H as [Hx _].
  apply all_but_last_cons; [now apply Hf|exact Htail].
Qed.

(** The pieces of the splitter have no separator inside, and all but the
    last end with a mark. *)
Lemma re_split_go_pieces (s cur : str) (am in_sep : bool) :
  no_break false cur = true ->
  (in_sep = false -> am = ends_mark false cur) ->
  (in_sep = true -> cur = [] /\ am = false) ->
  Forall (fun p => no_break false p = true) (re_split_go cur am in_sep s)
  /\ all_but_last (fun p => ends_mark false p = true)
                  (re_split_go cur am in_sep s).
Proof.
  revert cur am in_sep; induction s as [|c s IH];
    intros cur am in_sep Hcur Hrun Hsep; cbn [re_split_go].
  - split; [now repeat constructor|exact I].
  - assert (Hsnoc : forall x, no_break (ends_mark false cur) [x] = true ->
                              no_break false (cur ++ [x]) = true).
    { intros x Hx. now rewrite no_break_app, Hcur, Hx. }
    destruct (is_space c) eqn:Hc.
    + destruct in_sep.
      * (* inside a separator *)
        destruct (Hsep eq_refl) as [-> ->].
        apply IH; [reflexivity|discriminate|now split].
      * rewrite (Hrun eq_refl) in *. clear Hrun.
        destruct (ends_mark false cur) eqn:Hend.
        -- (* a separator starts: the piece is closed *)
           destruct (IH [] false true eq_refl) as [Hall Hlast];
             [discriminate|now split|].
           split; [now constructor|].
           now apply all_but_last_cons.
        -- apply IH.
           ++ apply Hsnoc. cbn. now rewrite Hc.
           ++ intros _. now rewrite ends_mark_snoc, (space_not_mark c Hc).
           ++ discriminate.
    + apply IH.
      * apply Hsnoc. cbn. now rewrite Hc.
      * intros _. now rewrite ends_mark_snoc.
      * discriminate.
Qed.

Lemma rstrip_prefix (p : str) : exists w, p = rstrip p ++ w.
Proof.
  unfold rstrip. induction p as [|x p IH] using rev_ind; [now exists []|].
  rewrite rev_app_distr. cbn [rev app drop_while].
  destruct (is_space x).
  - destruct IH as [w Hw]. exists (w ++ [x]).
    now rewrite app_assoc, <- Hw.
  - exists []. cbn [rev]. now rewrite rev_involutive, app_nil_r.
Qed.

Lemma no_break_strip (p : str) :
  no_break false p = true -> no_break false (strip p) = true.
Proof.
  intros Hp. unfold strip.
  assert (Hl : no_break false (lstrip p) = true).
  { unfold lstrip. induction p as [|c p IH]; [reflexivity|].
    cbn [drop_while]. destruct (is_space c) eqn:Hc; [|exact Hp].
    apply IH. cbn [no_break] in Hp. now rewrite Hc in Hp. }
  destruct (rstrip_prefix (lstrip p)) as [w Hw].
  rewrite Hw, no_break_app in Hl. now apply andb_prop in Hl.
Qed.

Lemma ends_mark_strip (p : str) :
  ends_mark false p = true -> ends_mark false (strip p) = true.
Proof.
  intros Hp. unfold strip.
  assert (Hl : ends_mark false (lstrip p) = true).
  { unfold lstrip. induction p as [|c p IH]; [discriminate|].
    cbn [drop_while]. destruct (is_space c) eqn:Hc; [|exact Hp].
    apply IH. cbn [ends_mark] in Hp. now rewrite (space_not_mark c Hc) in Hp. }
  destruct (snoc_cases (lstrip p)) as [E|(t & x & E)];
    rewrite E in *; [discriminate|].
  rewrite ends_mark_snoc in Hl. unfold rstrip.
  rewrite rev_app_distr. cbn [rev app drop_while].
  destruct (is_space x) eqn:Hx;
    [rewrite (space_not_mark x Hx) in Hl; discriminate|].
  cbn [rev]. now rewrite rev_involutive, ends_mark_snoc.
Qed.

(** The sentences of a text are whole, and all but the last end with a
    mark. *)
Lemma sentences_of_whole (text : str) :
  Forall whole_sentence (sentences_of text)
  /\ all_but_last (fun s => ends_mark false s = true) (sentences_of text).
Proof.
  destruct (re_split_go_pieces text [] false false eq_refl)
    as [Hall Hlast]; [reflexivity|discriminate|].
  fold (re_split_sentences text) in Hall, Hlast.
  unfold sentences_of. split.
  - apply Forall_forall. intros s Hs. apply in_map_iff in Hs.
    destruct Hs as (raw & <- & Hraw). apply filter_In in Hraw.
    destruct Hraw as [Hin Ht].
    split; [split; [now apply truthy_true|apply strip_trimmed]|].
    apply no_break_strip. now apply (proj1 (Forall_forall _ _) Hall).
  - apply (all_but_last_filter_map
             (fun p => ends_mark false p = true)); [|exact Hlast].
    apply ends_mark_strip.
Qed.

(** A chunk made of consecutive sentences of a text has these sentences,
    when it is split in turn. *)
Lemma sentences_of_chunk (text : str) (g : list str) (c : str) :
  made_of (sentences_of text) g c -> sentences_of c = g.
Proof.
  intros [(pre & post & Hsplit) ->].
  destruct (sentences_of_whole text) as [Hall Hlast].
  rewrite Hsplit in Hall, Hlast.
  apply Forall_app in Hall. destruct Hall as [_ Hall].
  apply Forall_app in Hall. destruct Hall as [Hg _].
  apply all_but_last_app_r, all_but_last_app_l in Hlast.
  now apply sentences_of_join.
Qed.

End Splitter.

(* ================================================================= *)
(** ** The Sentence-Budgeted Merger *)

Section FineLoop.

Variables min_chars max_chars min_sentences max_sentences : Z.
Variable sentences : list str.
Hypothesis sentences_ok : Forall sentence_ok sentences.

Let step := fine_step min_chars max_chars min_sentences max_sentences.
Let ok := fine_chunk_ok min_chars max_chars min_sentences max_sentences
                        sentences.

(** The state of the loop when the sentences [rest] are left: the running
    chunk is made of the sentences [g] just before [rest]. *)
Let inv (rest : list str) (st : list str * str * Z) : Prop :=
  let '(chunks, cur, n) := st in
  exists pre g,
    sentences = pre ++ g ++ rest
    /\ cur = join [space] g
    /\ n = Z.of_nat (length g)
    /\ (len cur <= max_chars \/ (length g <= 1)%nat)
    /\ Forall ok chunks.

Lemma group_ok (pre g rest : list str) :
  sentences = pre ++ g ++ rest -> Forall sentence_ok g.
Proof.
  intros H. pose proof sentences_ok as Hall. rewrite H in Hall.
  apply Forall_app in Hall. destruct Hall as [_ Hall].
  apply Forall_app in Hall. now destruct Hall.
Qed.

Lemma running_chunk_trimmed (g : list str) :
  Forall sentence_ok g -> strip (join [space] g) = join [space] g.
Proof. intros H. apply strip_of_trimmed, trimmed_join. exact H. Qed.

Lemma running_chunk_truthy (g : list str) :
  Forall sentence_ok g ->
  truthy (join [space] g) = match g with [] => false | _ :: _ => true end.
Proof.
  intros H. destruct g as [|a g]; [reflexivity|].
  apply truthy_true, join_nonempty; [|discriminate].
  eapply Forall_impl; [|exact H]. now intros s [Hs _].
Qed.

Lemma fine_step_inv (s : str) (rest : list str)
    (st : list str * str * Z) :
  inv (s :: rest) st -> inv rest (step st s).
Proof.
  destruct st as [[chunks cur] n].
  intros (pre & g & Hsplit & Hcur & Hn & Hmax & Hchunks).
  pose proof (group_ok _ _ _ Hsplit) as Hg.
  assert (Hrestart : inv rest (chunks, s, 1) /\
                     forall c, ok c -> inv rest (chunks ++ [c], s, 1)).
  { assert (Hs : sentences = (pre ++ g) ++ [s] ++ rest)
      by (rewrite Hsplit, <- app_assoc; reflexivity).
    split; [|intros c Hc]; exists (pre ++ g), [s];
      (split; [exact Hs|]); (split; [reflexivity|]);
      (split; [reflexivity|]); (split; [right; cbn; lia|]);
      [exact Hchunks|].
    apply Forall_app. split; [exact Hchunks|]. now constructor. }
  destruct Hrestart as [Hkeep Hemit].
  unfold step, fine_step. subst cur.
  rewrite (running_chunk_truthy g Hg), (running_chunk_trimmed g Hg).
  destruct g as [|a g'].
  - (* no running chunk yet *)
    rewrite !andb_false_r. cbn [join]. subst n.
    exists pre, [s]. repeat split; [exact Hsplit|right; cbn; lia|exact Hchunks].
  - set (g := a :: g') in *.
    assert (Hpot : join [space] g ++ [space] ++ s = join [space] (g ++ [s]))
      by (rewrite join_snoc; [reflexivity|discriminate]).
    assert (Hok : min_chars <= len (join [space] g) ->
                  (min_sentences <= max_sentences -> min_sentences <= n) ->
                  ok (join [space] g)).
    { intros Hmin Hsent. exists g. split; [|split; [exact Hmin|split]].
      - split; [|reflexivity]. exists pre, (s :: rest). exact Hsplit.
      - now rewrite <- Hn.
      - destruct Hmax as [H|H]; [now left|right].
        unfold g in *. cbn [length] in *. lia. }
    rewrite !andb_true_r, Hpot.
    destruct (Z.gtb_spec (len (join [space] (g ++ [s]))) max_chars)
      as [Hover|Hfits].
    + (* the sentence does not fit: the running chunk is closed *)
      destruct (Z.geb_spec (len (join [space] g)) min_chars) as [Hmin|_];
        [|exact Hkeep].
      destruct (Z.geb_spec n min_sentences) as [Hsent|_]; [|exact Hkeep].
      cbn [andb]. apply Hemit, Hok; lia.
    + destruct (Z.geb_spec n max_sentences) as [Hfull|Hroom].
      * (* the sentence budget is used up *)
        destruct (Z.geb_spec (len (join [space] g)) min_chars) as [Hmin|_];
          [|exact Hkeep].
        apply Hemit, Hok; lia.
      * (* the sentence joins the running chunk *)
        exists pre, (g ++ [s]). repeat split.
        -- rewrite Hsplit, <- app_assoc. reflexivity.
        -- rewrite length_app. cbn [length]. lia.
        -- now left.
        -- exact Hchunks.
Qed.

Lemma fine_fold_inv (rest : list str) (st : list str * str * Z) :
  inv rest st -> inv [] (fold_left step rest st).
Proof.
  revert st; induction rest as [|s rest IH]; intros st Hst; [exact Hst|].
  cbn [fold_left]. apply IH, fine_step_inv, Hst.
Qed.

(** Every chunk of the loop and of its closing is made of consecutive
    sentences and within the bounds that were tested. *)
Lemma fine_chunks_of_ok :
  Forall ok (fine_chunks_of min_chars max_chars min_sentences max_sentences
                            sentences).
Proof.
  unfold fine_chunks_of.
  destruct (fold_left
              (fine_step min_chars max_chars min_sentences max_sentences)
              sentences ([], [], 0)) as [[chunks cur] n] eqn:Hfold.
  assert (H : inv [] (chunks, cur, n)).
  { rewrite <- Hfold. apply fine_fold_inv. exists [], [].
    repeat split; [right; cbn; lia|constructor]. }
  destruct H as (pre & g & Hsplit & Hcur & Hn & Hmax & Hchunks).
  pose proof (group_ok _ _ _ Hsplit) as Hg. subst cur.
  rewrite (running_chunk_truthy g Hg), (running_chunk_trimmed g Hg).
  destruct g as [|a g']; [exact Hchunks|]. cbn [andb].
  destruct (Z.geb_spec (len (join [space] (a :: g'))) min_chars) as [Hmin|_];
    [|exact Hchunks].
  destruct (Z.geb_spec n min_sentences) as [Hsent|_]; [|exact Hchunks].
  cbn [andb]. apply Forall_app. split; [exact Hchunks|].
  constructor; [|constructor].
  exists (a :: g'). split; [|split; [lia|split]].
  - split; [|reflexivity]. exists pre, []. exact Hsplit.
  - intros _. lia.
  - destruct Hmax as [H|H]; [now left|right]. cbn [length] in *. lia.
Qed.

End FineLoop.

Lemma sentences_of_ok (text : str) : Forall sentence_ok (sentences_of text).
Proof.
  unfold sentences_of. apply Forall_forall. intros s Hs.
  apply in_map_iff in Hs. destruct Hs as (raw & <- & Hraw).
  apply filter_In in Hraw. destruct Hraw as [_ Ht].
  split; [now apply truthy_true|apply strip_trimmed].
Qed.

Lemma create_fine_chunks_ok (text : str)
    (min_chars max_chars min_sentences max_sentences : Z) :
  Forall (fine_chunk_ok min_chars max_chars min_sentences max_sentences
                        (sentences_of text))
         (create_fine_chunks text min_chars max_chars
                             min_sentences max_sentences).
Proof.
  unfold create_fine_chunks.
  destruct (truthy text); cbn [negb]; [|constructor].
  pose proof (fine_chunks_of_ok min_chars max_chars min_sentences
                max_sentences (sentences_of text) (sentences_of_ok text)) as H.
  destruct (sentences_of text); [constructor|exact H].
Qed.

(** C4. With [min_sentences <= max_sentences], every chunk of
    [create_fine_chunks] has at least [min_sentences] sentences, as the
    sentence splitter counts them, and at least [min_chars] characters;
    its sentences are consecutive sentences of the text. *)
Theorem fine_chunks_meet_minimums (text : str)
    (min_chars max_chars min_sentences max_sentences : Z) :
  min_sentences <= max_sentences ->
  Forall (fun c =>
            min_sentences <= Z.of_nat (length (sentences_of c))
            /\ min_chars <= len c
            /\ made_of (sentences_of text) (sentences_of c) c)
         (create_fine_chunks text min_chars max_chars
                             min_sentences max_sentences).
Proof.
  intros Hle.
  eapply Forall_impl;
    [|apply (create_fine_chunks_ok text min_chars max_chars
               min_sentences max_sentences)].
  intros c (g & Hmade & Hmin & Hsent & _).
  rewrite (sentences_of_chunk text g c Hmade).
  split; [now apply Hsent|]. split; [exact Hmin|exact Hmade].
Qed.

Lemma fine_chunks_meet_minimums_witness :
  Forall (fun c =>
            1 <= Z.of_nat (length (sentences_of c))
            /\ 10 <= len c
            /\ made_of (sentences_of four_sentences) (sentences_of c) c)
         (create_fine_chunks four_sentences 10 500 1 3).
Proof.
  apply (fine_chunks_meet_minimums four_sentences 10 500 1 3). lia.
Defined.

(** The scenario of the four sentences: three sentences in the first
    chunk and one in the second, which is dropped when it is shorter than
    [min_chars]. *)
Example fine_four_sentences :
  create_fine_chunks four_sentences 5 500 1 3
  = [py "First sentence here. Second sentence here. Third one is here.";
     py "Last."]
  /\ create_fine_chunks four_sentences 10 500 1 3
     = [py "First sentence here. Second sentence here. Third one is here."].
Proof. split; vm_compute; reflexivity. Qed.

(* ================================================================= *)
(** ** The character windows and the coarse post-pass *)

Section Windows.

Variable text : str.
Variables max_length overlap : Z.



(** When a window is shorter than the text and no longer than the
    overlap, the loop starts every round at 0 again. *)
Lemma chunk_loop_stuck (fuel : nat) (chunks : list str) :
  text <> [] -> max_length < len text -> max_length <= overlap ->
  chunk_loop fuel text max_length overlap chunks 0 = None.
Proof.
  intros Hne Hshort Hback. revert chunks.
  induction fuel as [|fuel IH]; intros chunks; [reflexivity|].
  cbn [chunk_loop].
  assert (0 < len text) by (destruct text; [congruence|unfold len; cbn; lia]).
  destruct (Z.ltb_spec 0 (len text)); [|lia].
  replace (Z.min (0 + max_length) (len text)) with max_length by lia.
  destruct (Z.eqb_spec max_length (len text)); [lia|].
  destruct (Z.ltb_spec (max_length - overlap) 0); [apply IH|].
  replace (max_length - overlap) with 0 by lia. apply IH.
Qed.

(** When a window is longer than the overlap, each round moves on, and
    the fuel is enough. *)
Lemma chunk_loop_ends (fuel : nat) :
  overlap < max_length ->
  forall chunks start,
    0 <= start -> Z.max 0 (len text - start) < Z.of_nat fuel ->
    exists out, chunk_loop fuel text max_length overlap chunks start
                = Some out.
Proof.
  intros Hd. induction fuel as [|fuel IH]; intros chunks start Hstart Hfuel.
  - lia.
  - cbn [chunk_loop].
    destruct (Z.ltb_spec start (len text)) as [Hlt|_]; [|now eexists].
    destruct (Z.eqb_spec (Z.min (start + max_length) (len text)) (len text));
      [now eexists|].
    apply IH;
      destruct (Z.ltb_spec (Z.min (start + max_length) (len text) - overlap) 0);
      lia.
Qed.

End Windows.

(** [chunk_text_with_overlap] returns unless the window is shorter than
    the text and no longer than the overlap, and then it does not. *)
Lemma chunk_text_with_overlap_returns (text : str) (max_length overlap : Z) :
  overlap < max_length \/ len text <= max_length ->
  exists out, chunk_text_with_overlap text max_length overlap = Some out.
Proof.
  intros H. unfold chunk_text_with_overlap.
  destruct text as [|c text]; [now eexists|]. cbn [truthy negb].
  destruct H as [H|H].
  - apply chunk_loop_ends; [exact H|lia|unfold len; lia].
  - cbn [chunk_loop]. set (t := c :: text) in *.
    assert (0 < len t) by (unfold len, t; cbn [length]; lia).
    destruct (Z.ltb_spec 0 (len t)); [|lia].
    replace (Z.min (0 + max_length) (len t)) with (len t) by lia.
    rewrite Z.eqb_refl. now eexists.
Qed.

Lemma chunk_text_with_overlap_loops (text : str) (max_length overlap : Z) :
  text <> [] -> max_length < len text -> max_length <= overlap ->
  chunk_text_with_overlap text max_length overlap = None.
Proof.
  intros Hne Hshort Hback. unfold chunk_text_with_overlap.
  destruct text as [|c text]; [congruence|]. cbn [truthy negb].
  now apply chunk_loop_stuck.
Qed.


Section CoarsePass.

Variable tiktoken : option (str -> option (str -> list Z)).
Variables min_chars max_chars min_tokens max_tokens : Z.
Variable model : str.

Let step := coarse_step tiktoken min_chars max_chars min_tokens max_tokens
                        model.

Lemma coarse_fold_none (chunks : list str) :
  fold_left step chunks None = None.
Proof. induction chunks as [|c chunks IH]; [reflexivity|exact IH]. Qed.



End CoarsePass.




(** The post-pass on an oversized chunk: with [min_chars = 150] and
    [max_chars = 200], a chunk of 201 characters is cut into the windows
    [0:200] and [100:201], and the second, of 101 characters, goes to the
    result as it is. *)
Example coarse_step_oversized :
  option_map (map len)
    (coarse_step None 150 200 1 1000 (py "gpt-3.5-turbo") (Some [])
       (repeat (ascii_of_nat 97) 201))
  = Some [200; 101].
Proof. vm_compute. reflexivity. Qed.

(* ================================================================= *)
(** ** More on the character windows *)

Section WindowsMore.

Variable text : str.
Variables max_length overlap : Z.

Lemma slice_inside (a b : Z) :
  0 <= a <= b -> b <= len text ->
  slice text a b
  = firstn (Z.to_nat b - Z.to_nat a) (skipn (Z.to_nat a) text).
Proof.
  intros Hab Hb. unfold slice, slice_bound.
  destruct (Z.ltb_spec a 0); [lia|]. destruct (Z.ltb_spec b 0); [lia|].
  now rewrite !Z.min_l by lia.
Qed.

Lemma len_slice_inside (a b : Z) :
  0 <= a <= b -> b <= len text -> len (slice text a b) = b - a.
Proof.
  intros Hab Hb. rewrite slice_inside by assumption.
  unfold len in *. rewrite length_firstn, length_skipn. lia.
Qed.

(** Every window of the loop has between 1 and [max_length] characters. *)
Lemma chunk_loop_sizes (fuel : nat) :
  0 < max_length ->
  forall chunks start out,
    0 <= start ->
    Forall (fun w => 1 <= len w <= max_length) chunks ->
    chunk_loop fuel text max_length overlap chunks start = Some out ->
    Forall (fun w => 1 <= len w <= max_length) out.
Proof.
  intros Hm. induction fuel as [|fuel IH];
    intros chunks start out Hstart Hchunks Hloop; [discriminate|].
  cbn [chunk_loop] in Hloop.
  destruct (Z.ltb_spec start (len text)) as [Hlt|_];
    [|injection Hloop as <-; exact Hchunks].
  set (e := Z.min (start + max_length) (len text)) in *.
  assert (Hnew : Forall (fun w => 1 <= len w <= max_length)
                        (chunks ++ [slice text start e])).
  { apply Forall_app. split; [exact Hchunks|]. constructor; [|constructor].
    rewrite len_slice_inside; unfold e; lia. }
  destruct (Z.eqb_spec e (len text)); [injection Hloop as <-; exact Hnew|].
  apply IH in Hloop; [exact Hloop| |exact Hnew].
  destruct (Z.ltb_spec (e - overlap) 0); lia.
Qed.

Lemma chunk_loop_extends (fuel : nat) (chunks : list str) (start : Z)
    (out : list str) :
  chunk_loop fuel text max_length overlap chunks start = Some out ->
  exists more, out = chunks ++ more
               /\ (start < len text -> more <> []).
Proof.
  revert chunks start. induction fuel as [|fuel IH];
    intros chunks start Hloop; [discriminate|].
  cbn [chunk_loop] in Hloop.
  destruct (Z.ltb_spec start (len text)) as [Hlt|Hge].
  - set (e := Z.min (start + max_length) (len text)) in *.
    destruct (Z.eqb_spec e (len text)).
    + injection Hloop as <-. eexists. split; [reflexivity|discriminate].
    + apply IH in Hloop. destruct Hloop as (more & -> & _).
      exists (slice text start e :: more).
      split; [now rewrite <- app_assoc|discriminate].
  - injection Hloop as <-. exists []. split; [now rewrite app_nil_r|lia].
Qed.




End WindowsMore.

(** X1. [chunk_text_with_overlap] does not return exactly when the text
    is non-empty, longer than a window, and a window is no longer than the
    overlap: the loop then starts every round at the same place. *)
Theorem chunk_text_with_overlap_diverges_iff (text : str)
    (max_length overlap : Z) :
  chunk_text_with_overlap text max_length overlap = None
  <-> text <> [] /\ max_length < len text /\ max_length <= overlap.
Proof.
  split.
  - intros Hnone.
    destruct text as [|c t]; [discriminate Hnone|].
    split; [discriminate|].
    destruct (Z_lt_ge_dec max_length (len (c :: t))) as [Hshort|Hlong].
    + split; [exact Hshort|].
      destruct (Z_le_gt_dec max_length overlap) as [Hle|Hgt]; [exact Hle|].
      destruct (chunk_text_with_overlap_returns (c :: t) max_length overlap)
        as [out Hout]; [left; lia|congruence].
    + destruct (chunk_text_with_overlap_returns (c :: t) max_length overlap)
        as [out Hout]; [right; lia|congruence].
  - intros (Hne & Hshort & Hback).
    now apply chunk_text_with_overlap_loops.
Qed.

(** X2. With a positive window length, every window that
    [chunk_text_with_overlap] returns has between 1 and [max_length]
    characters, and a non-empty text gives at least one window. *)
Theorem chunk_text_with_overlap_sizes (text : str) (max_length overlap : Z)
    (out : list str) :
  0 < max_length ->
  chunk_text_with_overlap text max_length overlap = Some out ->
  Forall (fun w => 1 <= len w <= max_length) out
  /\ (text <> [] -> out <> []).
Proof.
  intros Hm Hout. unfold chunk_text_with_overlap in Hout.
  destruct text as [|c t]; cbn [truthy negb] in Hout.
  - injection Hout as <-. split; [constructor|congruence].
  - split.
    + apply (chunk_loop_sizes _ _ _ _ Hm _ _ _ (Z.le_refl 0)
               (Forall_nil _) Hout).
    + intros _. apply chunk_loop_extends in Hout.
      destruct Hout as (more & -> & Hmore). cbn [app]. apply Hmore.
      unfold len. cbn [length]. lia.
Qed.

Lemma chunk_text_with_overlap_sizes_witness :
  Forall (fun w => 1 <= len w <= 4) [py "abcd"; py "cdef"; py "efg"]
  /\ (py "abcdefg" <> [] -> [py "abcd"; py "cdef"; py "efg"] <> []).
Proof.
  apply (chunk_text_with_overlap_sizes (py "abcdefg") 4 2); [lia|].
  vm_compute. reflexivity.
Defined.



(* ================================================================= *)
(** ** Chunks of paragraphs *)

Section ParagraphLoop.

Variable max_chars : Z.

Lemma join_truthy (sep : str) (g : list str) :
  Forall sentence_ok g ->
  truthy (join sep g) = match g with [] => false | _ :: _ => true end.
Proof.
  intros H. destruct g as [|a g]; [reflexivity|].
  apply truthy_true, join_nonempty; [|discriminate].
  eapply Forall_impl; [|exact H]. now intros s [Hs _].
Qed.

Lemma join_strip (sep : str) (g : list str) :
  Forall sentence_ok g -> strip (join sep g) = join sep g.
Proof. intros H. now apply strip_of_trimmed, trimmed_join. Qed.

(** The loop, from a state where the groups [closed] are the chunks so
    far and the group [g] is the running chunk. *)
Lemma paragraphs_fold (ps : list str) :
  forall closed g,
    Forall (paragraph_group_ok max_chars) closed ->
    Forall sentence_ok g ->
    (g = [] \/ paragraph_group_ok max_chars g) ->
    exists closed' g',
      fold_left (paragraphs_step max_chars) ps
                (map (join [nl; nl]) closed, join [nl; nl] g)
      = (map (join [nl; nl]) closed', join [nl; nl] g')
      /\ concat closed' ++ g'
         = concat closed ++ g ++ filter truthy (map strip ps)
      /\ Forall (paragraph_group_ok max_chars) closed'
      /\ Forall sentence_ok g'
      /\ (g' = [] \/ paragraph_group_ok max_chars g').
Proof.
  induction ps as [|p ps IH]; intros closed g Hclosed Hg Hsize.
  - exists closed, g. cbn. rewrite app_nil_r. now repeat split.
  - cbn [fold_left map filter]. unfold paragraphs_step at 2.
    destruct (truthy (strip p)) eqn:Hp; cbn [negb].
    2:{ apply (IH closed g Hclosed Hg Hsize). }
    assert (Hpok : sentence_ok (strip p)).
    { split; [now apply truthy_true|apply strip_trimmed]. }
    rewrite (join_strip _ g Hg), !(join_truthy _ g Hg).
    assert (Hsingle : paragraph_group_ok max_chars [strip p]).
    { split; [discriminate|]. split; [now constructor|now left]. }
    destruct (Z.ltb_spec (len (join [nl; nl] g) + len (strip p)) max_chars)
      as [Hfits|Hfull].
    + (* the paragraph joins the running chunk *)
      destruct g as [|a g'].
      * destruct (IH closed [strip p] Hclosed) as (c' & g2 & Hf & Hc & H1 & H2 & H3);
          [now constructor|now right|].
        exists c', g2. cbn [join] in Hf. split; [exact Hf|].
        split; [|now repeat split]. now rewrite Hc.
      * set (g := a :: g') in *.
        assert (Hj : join [nl; nl] g ++ [nl; nl] ++ strip p
                     = join [nl; nl] (g ++ [strip p]))
          by (rewrite join_snoc; [reflexivity|discriminate]).
        rewrite Hj.
        destruct (IH closed (g ++ [strip p]) Hclosed)
          as (c' & g2 & Hf & Hc & H1 & H2 & H3).
        { apply Forall_app. split; [exact Hg|now constructor]. }
        { right. split; [now destruct g|]. split.
          - apply Forall_app. split; [exact Hg|now constructor].
          - right. rewrite <- Hj. unfold len in *.
            rewrite !length_app. cbn [length]. lia. }
        exists c', g2. split; [exact Hf|]. split; [|now repeat split].
        rewrite Hc, <- !app_assoc. reflexivity.
    + (* the running chunk is closed *)
      destruct g as [|a g'].
      * destruct (IH closed [strip p] Hclosed) as (c' & g2 & Hf & Hc & H1 & H2 & H3);
          [now constructor|now right|].
        exists c', g2. cbn [join] in Hf. split; [exact Hf|].
        split; [|now repeat split]. now rewrite Hc.
      * set (g := a :: g') in *.
        change (map (join [nl; nl]) closed ++ [join [nl; nl] g])
          with (map (join [nl; nl]) closed ++ map (join [nl; nl]) [g]).
        rewrite <- map_app.
        destruct (IH (closed ++ [g]) [strip p])
          as (c' & g2 & Hf & Hc & H1 & H2 & H3).
        { apply Forall_app. split; [exact Hclosed|].
          constructor; [|constructor]. destruct Hsize as [H|H]; [discriminate H|exact H]. }
        { now constructor. }
        { now right. }
        exists c', g2. cbn [join] in Hf. split; [exact Hf|].
        split; [|now repeat split].
        rewrite Hc, concat_app. cbn [concat]. rewrite app_nil_r, <- !app_assoc.
        reflexivity.
Qed.

End ParagraphLoop.

(** The chunks are the groups of a partition of the paragraphs. *)
Lemma chunk_by_paragraphs_groups (preprocess_text : str -> str) (text : str)
    (max_chars : Z) :
  exists groups,
    chunk_by_paragraphs preprocess_text text max_chars
    = map (join [nl; nl]) groups
    /\ concat groups = clean_paragraphs (preprocess_text text)
    /\ Forall (paragraph_group_ok max_chars) groups.
Proof.
  unfold chunk_by_paragraphs, clean_paragraphs.
  destruct (paragraphs_fold max_chars (split_blank (preprocess_text text))
              [] [] (Forall_nil _) (Forall_nil _) (or_introl eq_refl))
    as (closed & g & Hf & Hc & H1 & H2 & H3).
  cbn [map join] in Hf. cbn [concat app] in Hc.
  destruct (fold_left (paragraphs_step max_chars)
              (split_blank (preprocess_text text)) ([], []))
    as [chunks current] eqn:Hrun.
  pose proof (eq_trans (eq_sym Hrun) Hf) as Heq.
  injection Heq as -> ->.
  rewrite (join_strip _ g H2), (join_truthy _ g H2).
  destruct g as [|a g'].
  - exists closed. rewrite app_nil_r in Hc. now repeat split.
  - exists (closed ++ [a :: g']). rewrite map_app. split; [reflexivity|].
    split.
    + rewrite concat_app. cbn [concat]. now rewrite app_nil_r.
    + apply Forall_app. split; [exact H1|]. constructor; [|constructor].
      destruct H3 as [H|H]; [discriminate H|exact H].
Qed.

(** X4. [chunk_by_paragraphs] loses no paragraph and keeps their order:
    its chunks are consecutive groups of the non-empty trimmed paragraphs
    of the preprocessed text, each group joined by blank lines, and the
    groups together are all the paragraphs. *)
Theorem chunk_by_paragraphs_partition (preprocess_text : str -> str)
    (text : str) (max_chars : Z) :
  exists groups,
    chunk_by_paragraphs preprocess_text text max_chars
    = map (join [nl; nl]) groups
    /\ concat groups = clean_paragraphs (preprocess_text text)
    /\ Forall (fun g => g <> []) groups.
Proof.
  destruct (chunk_by_paragraphs_groups preprocess_text text max_chars)
    as (groups & Hout & Hall & Hok).
  exists groups. split; [exact Hout|]. split; [exact Hall|].
  eapply Forall_impl; [|exact Hok]. now intros g [H _].
Qed.

(** X5. Every chunk of [chunk_by_paragraphs] is non-empty and trimmed,
    and it is one paragraph alone or has less than [max_chars + 2]
    characters: a chunk of several paragraphs can have [max_chars + 1]
    characters, the two of the blank line not being counted by the
    test. *)
Theorem chunk_by_paragraphs_sizes (preprocess_text : str -> str)
    (text : str) (max_chars : Z) :
  Forall (fun c =>
            sentence_ok c
            /\ (In c (clean_paragraphs (preprocess_text text))
                \/ len c < max_chars + 2))
         (chunk_by_paragraphs preprocess_text text max_chars).
Proof.
  destruct (chunk_by_paragraphs_groups preprocess_text text max_chars)
    as (groups & -> & Hall & Hok).
  apply Forall_forall. intros c Hc. apply in_map_iff in Hc.
  destruct Hc as (g & <- & Hg).
  destruct (proj1 (Forall_forall _ _) Hok g Hg) as (Hne & Hsent & Hsize).
  split.
  - split; [|now apply trimmed_join].
    apply join_nonempty; [|exact Hne].
    eapply Forall_impl; [|exact Hsent]. now intros s [H _].
  - destruct Hsize as [Hone|Hlen]; [left|now right].
    destruct g as [|a [|? ?]]; try discriminate. cbn [join].
    rewrite <- Hall. apply in_concat. exists [a]. split; [exact Hg|now left].
Qed.

Example chunk_by_paragraphs_demo :
  chunk_by_paragraphs (fun t => t)
    (py "aaaa" ++ [nl; nl] ++ py "bbbb" ++ [nl; nl] ++ py "cc") 10
  = [py "aaaa" ++ [nl; nl] ++ py "bbbb"; py "cc"].
Proof. vm_compute. reflexivity. Qed.

(* ================================================================= *)
(** ** arXiv identifiers *)

Section Arxiv.

Lemma match_arxiv_id_some (s m : str) :
  match_arxiv_id s = Some m ->
  arxiv_shaped m /\ exists post, s = m ++ post.
Proof.
  unfold match_arxiv_id.
  destruct s as [|a [|b [|c [|d [|dot [|e [|f [|g [|h rest]]]]]]]]];
    try discriminate.
  destruct (is_digit a) eqn:Ha; [|discriminate].
  destruct (is_digit b) eqn:Hb; [|discriminate].
  destruct (is_digit c) eqn:Hc; [|discriminate].
  destruct (is_digit d) eqn:Hd; [|discriminate].
  destruct (Ascii.eqb_spec dot (ascii_of_nat 46)) as [->|]; [|discriminate].
  destruct (is_digit e) eqn:He; [|discriminate].
  destruct (is_digit f) eqn:Hf; [|discriminate].
  destruct (is_digit g) eqn:Hg; [|discriminate].
  destruct (is_digit h) eqn:Hh; [|discriminate].
  cbn [andb]. intros H. injection H as <-.
  destruct rest as [|i rest]; [|destruct (is_digit i) eqn:Hi].
  - split; [|now exists []].
    exists [a; b; c; d], [e; f; g; h]. cbn.
    rewrite Ha, Hb, Hc, Hd, He, Hf, Hg, Hh. repeat split. now left.
  - split; [|now exists rest].
    exists [a; b; c; d], [e; f; g; h; i]. cbn.
    rewrite Ha, Hb, Hc, Hd, He, Hf, Hg, Hh, Hi. repeat split. now right.
  - split; [|now exists (i :: rest)].
    exists [a; b; c; d], [e; f; g; h]. cbn.
    rewrite Ha, Hb, Hc, Hd, He, Hf, Hg, Hh. repeat split. now left.
Qed.

(** Where an identifier stands, the pattern matches: the identifier
    itself, when it has five digits after the dot or no digit follows. *)
Lemma match_arxiv_id_shaped (m post : str) :
  arxiv_shaped m ->
  exists m', match_arxiv_id (m ++ post) = Some m'
             /\ ((length m = 10%nat
                  \/ (forall c t, post = c :: t -> is_digit c = false)) ->
                 m' = m).
Proof.
  intros (d & e & -> & Hd & He & Hdd & Hde).
  destruct d as [|a [|b [|c [|d [|? ?]]]]]; try discriminate Hd.
  cbn in Hdd.
  destruct (is_digit a) eqn:D1; [|discriminate].
  destruct (is_digit b) eqn:D2; [|discriminate].
  destruct (is_digit c) eqn:D3; [|discriminate].
  destruct (is_digit d) eqn:D4; [|discriminate].
  destruct e as [|e [|f [|g [|h [|i [|? ?]]]]]];
    try (destruct He; discriminate).
  - cbn in Hde.
    destruct (is_digit e) eqn:E1; [|discriminate].
    destruct (is_digit f) eqn:E2; [|discriminate].
    destruct (is_digit g) eqn:E3; [|discriminate].
    destruct (is_digit h) eqn:E4; [|discriminate].
    cbn [app match_arxiv_id]. rewrite D1, D2, D3, D4, E1, E2, E3, E4.
    rewrite Ascii.eqb_refl. cbn [andb].
    eexists. split; [reflexivity|].
    intros [Hlen|Hpost]; [discriminate Hlen|].
    destruct post as [|x t]; [reflexivity|].
    now rewrite (Hpost x t eq_refl).
  - cbn in Hde.
    destruct (is_digit e) eqn:E1; [|discriminate].
    destruct (is_digit f) eqn:E2; [|discriminate].
    destruct (is_digit g) eqn:E3; [|discriminate].
    destruct (is_digit h) eqn:E4; [|discriminate].
    destruct (is_digit i) eqn:E5; [|discriminate].
    cbn [app match_arxiv_id]. rewrite D1, D2, D3, D4, E1, E2, E3, E4, E5.
    rewrite Ascii.eqb_refl. cbn [andb].
    eexists. split; reflexivity.
Qed.

Lemma match_arxiv_id_digit (c : ascii) (s : str) :
  is_digit c = false -> match_arxiv_id (c :: s) = None.
Proof.
  intros Hc. unfold match_arxiv_id.
  destruct s as [|b [|c' [|d [|dot [|e [|f [|g [|h rest]]]]]]]];
    try reflexivity.
  now rewrite Hc.
Qed.

Lemma search_arxiv_id_some (s m : str) :
  search_arxiv_id s = Some m -> arxiv_shaped m /\ occurs_in m s.
Proof.
  induction s as [|c s IH]; cbn [search_arxiv_id].
  - discriminate.
  - destruct (match_arxiv_id (c :: s)) as [m'|] eqn:Hm.
    + intros H. injection H as ->.
      destruct (match_arxiv_id_some _ _ Hm) as [Hshape [post Hpost]].
      split; [exact Hshape|]. exists [], post. exact Hpost.
    + intros H. destruct (IH H) as [Hshape (pre & post & ->)].
      split; [exact Hshape|]. now exists (c :: pre), post.
Qed.

Lemma search_arxiv_id_none (s : str) :
  search_arxiv_id s = None ->
  forall m, arxiv_shaped m -> ~ occurs_in m s.
Proof.
  induction s as [|c s IH]; cbn [search_arxiv_id].
  - intros _ m (d & e & -> & Hd & _) (pre & post & H).
    destruct pre; destruct d; discriminate.
  - destruct (match_arxiv_id (c :: s)) as [m'|] eqn:Hm; [discriminate|].
    intros Hs m Hshape (pre & post & H).
    destruct pre as [|x pre].
    + cbn [app] in H. rewrite H in Hm.
      destruct (match_arxiv_id_shaped m post Hshape) as (m' & Hm' & _).
      congruence.
    + injection H as _ H. apply (IH Hs m Hshape). now exists pre, post.
Qed.

End Arxiv.

(** X6. [extract_arxiv_id] returns an identifier that occurs in its
    input, four digits, a dot and four or five digits, and it returns the
    empty string exactly when no identifier occurs in the input. *)
Theorem extract_arxiv_id_sound (input_str : str) :
  (extract_arxiv_id input_str = []
   /\ forall m, arxiv_shaped m -> ~ occurs_in m input_str)
  \/ (arxiv_shaped (extract_arxiv_id input_str)
      /\ occurs_in (extract_arxiv_id input_str) input_str).
Proof.
  unfold extract_arxiv_id.
  destruct (search_arxiv_id input_str) as [m|] eqn:Hs.
  - right. now apply search_arxiv_id_some.
  - left. split; [reflexivity|now apply search_arxiv_id_none].
Qed.

(** X7. When nothing before an identifier is a digit, and the identifier
    has five digits after the dot or is not followed by a digit,
    [extract_arxiv_id] returns this identifier: the identifier of an
    arXiv address or of a bare identifier comes back as it is. *)
Theorem extract_arxiv_id_finds (pre m post : str) :
  forallb (fun c => negb (is_digit c)) pre = true ->
  arxiv_shaped m ->
  (length m = 10%nat \/ (forall c t, post = c :: t -> is_digit c = false)) ->
  extract_arxiv_id (pre ++ m ++ post) = m.
Proof.
  intros Hpre Hshape Hend. unfold extract_arxiv_id.
  induction pre as [|c pre IH].
  - cbn [app]. destruct (match_arxiv_id_shaped m post Hshape) as (m' & Hm' & Heq).
    destruct Hshape as (d & e & -> & Hd & _).
    destruct d as [|a d]; [discriminate|].
    cbn [app search_arxiv_id] in *. rewrite Hm'. now apply Heq.
  - cbn [forallb] in Hpre. apply andb_prop in Hpre. destruct Hpre as [Hc Hpre].
    apply negb_true_iff in Hc.
    cbn [app search_arxiv_id]. rewrite (match_arxiv_id_digit c _ Hc).
    now apply IH.
Qed.

Lemma extract_arxiv_id_finds_witness :
  extract_arxiv_id (py "https://arxiv.org/abs/" ++ py "2309.15025" ++ py "v1")
  = py "2309.15025".
Proof.
  apply (extract_arxiv_id_finds (py "https://arxiv.org/abs/")
           (py "2309.15025") (py "v1")).
  - reflexivity.
  - exists (py "2309"), (py "15025"). repeat split. now right.
  - left. reflexivity.
Defined.

(* ================================================================= *)
(** ** The Paragraph Splitter *)

Section Splitting.

(** Joining the pieces of a split gives the text back. *)
Lemma join_split_on_go (sep : ascii) (s cur : str) :
  join [sep] (split_on_go sep cur s) = cur ++ s.
Proof.
  revert cur; induction s as [|c s IH]; intros cur; cbn [split_on_go].
  - cbn. now rewrite app_nil_r.
  - destruct (Ascii.eqb_spec c sep) as [->|_].
    + specialize (IH []). cbn [app] in IH.
      destruct (split_on_go sep [] s) as [|x rest] eqn:E.
      * destruct s; cbn in E; [discriminate|].
        destruct (Ascii.eqb _ sep); discriminate.
      * cbn [join]. cbn [join] in IH.
        change (match rest with
                | [] => x
                | _ :: _ => x ++ [sep] ++ join [sep] rest
                end) with (join [sep] (x :: rest)).
        change (match rest with
                | [] => x
                | _ :: _ => x ++ [sep] ++ join [sep] rest
                end) with (join [sep] (x :: rest)) in IH.
        now rewrite IH.
    + rewrite IH, <- app_assoc. reflexivity.
Qed.

Lemma split_blank_go_two (cur : str) (c d : ascii) (s : str) :
  split_blank_go cur (c :: d :: s)
  = if Ascii.eqb c nl && Ascii.eqb d nl
    then cur :: split_blank_go [] s
    else split_blank_go (cur ++ [c]) (d :: s).
Proof. reflexivity. Qed.

Lemma join_split_blank_go (n : nat) :
  forall s cur, (length s <= n)%nat ->
                exists x rest,
                  split_blank_go cur s = x :: rest
                  /\ join [nl; nl] (x :: rest) = cur ++ s.
Proof.
  induction n as [|n IH]; intros s cur Hn.
  - destruct s; [|cbn in Hn; lia]. exists cur, []. cbn.
    now rewrite app_nil_r.
  - destruct s as [|c [|d s]].
    + exists cur, []. cbn. now rewrite app_nil_r.
    + exists (cur ++ [c]), []. split; reflexivity.
    + rewrite split_blank_go_two.
      destruct (Ascii.eqb_spec c nl) as [->|Hc];
        [destruct (Ascii.eqb_spec d nl) as [->|Hd]|]; cbn [andb].
      * destruct (IH s [] ltac:(cbn in Hn; lia)) as (x & rest & E & Hs).
        exists cur, (split_blank_go [] s). split; [reflexivity|].
        rewrite E. change (join [nl; nl] (cur :: x :: rest))
          with (cur ++ [nl; nl] ++ join [nl; nl] (x :: rest)).
        now rewrite Hs.
      * destruct (IH (d :: s) (cur ++ [nl]) ltac:(cbn in *; lia))
          as (x & rest & E & Hs).
        exists x, rest. split; [exact E|]. now rewrite Hs, <- app_assoc.
      * destruct (IH (d :: s) (cur ++ [c]) ltac:(cbn in *; lia))
          as (x & rest & E & Hs).
        exists x, rest. split; [exact E|]. now rewrite Hs, <- app_assoc.
Qed.

Lemma join_split_blank (s : str) : join [nl; nl] (split_blank s) = s.
Proof.
  destruct (join_split_blank_go (length s) s [] (Nat.le_refl _))
    as (x & rest & E & H).
  unfold split_blank. now rewrite E.
Qed.

Lemma join_split_on (sep : ascii) (s : str) : join [sep] (split_on sep s) = s.
Proof. apply join_split_on_go. Qed.

(** A character of a joined list is in the separator or in a piece. *)
Lemma In_join (sep : str) (l : list str) (c : ascii) :
  In c (join sep l) <-> (exists p, In p l /\ In c p)
                        \/ (In c sep /\ (2 <= length l)%nat).
Proof.
  induction l as [|a l IH].
  - cbn. split; [intros []|]. intros [(p & [] & _)|[_ H]]. lia.
  - destruct l as [|b l].
    + cbn [join]. split.
      * intros H. left. exists a. split; [now left|exact H].
      * intros [(p & [<-|[]] & H)|[_ H]]; [exact H|cbn in H; lia].
    + change (join sep (a :: b :: l)) with (a ++ sep ++ join sep (b :: l)).
      rewrite !in_app_iff, IH. split.
      * intros [H|[H|[(p & Hp & H)|[H _]]]].
        -- left. exists a. split; [now left|exact H].
        -- right. split; [exact H|cbn; lia].
        -- left. exists p. split; [now right|exact H].
        -- right. split; [exact H|cbn; lia].
      * intros [(p & [<-|Hp] & H)|[H _]].
        -- now left.
        -- right. right. left. now exists p.
        -- right. now left.
Qed.

(** A string is blank when [strip] leaves nothing of it. *)
Lemma strip_blank (s : str) :
  truthy (strip s) = false <-> forallb is_space s = true.
Proof.
  rewrite truthy_false. unfold strip, lstrip. split.
  - intros H. induction s as [|c s IH]; [reflexivity|].
    cbn [drop_while forallb] in *.
    destruct (is_space c) eqn:Hc; [now apply IH|].
    exfalso. unfold rstrip in H.
    apply (f_equal (@rev ascii)) in H. rewrite rev_involutive in H.
    cbn [rev] in H. rewrite (drop_while_snoc_keep _ _ _ Hc) in H.
    now destruct (drop_while is_space (rev s)).
  - intros H. induction s as [|c s IH]; [reflexivity|].
    cbn [drop_while forallb] in *. apply andb_prop in H.
    destruct H as [-> H]. now apply IH.
Qed.

Lemma clean_pieces_nil (pieces : list str) :
  map strip (filter (fun p => truthy (strip p)) pieces) = []
  <-> forall p, In p pieces -> forallb is_space p = true.
Proof.
  induction pieces as [|p l IH]; cbn [filter].
  - split; [intros _ p []|reflexivity].
  - destruct (truthy (strip p)) eqn:Hp.
    + split; [discriminate|]. intros H.
      pose proof (proj2 (strip_blank p) (H p (or_introl eq_refl))).
      congruence.
    + rewrite IH. split.
      * intros H q [<-|Hq]; [now apply strip_blank|now apply H].
      * intros H q Hq. apply H. now right.
Qed.

Lemma clean_pieces_ok (pieces : list str) :
  Forall sentence_ok (map strip (filter (fun p => truthy (strip p)) pieces)).
Proof.
  apply Forall_forall. intros s Hs. apply in_map_iff in Hs.
  destruct Hs as (raw & <- & Hraw). apply filter_In in Hraw.
  destruct Hraw as [_ Ht].
  split; [now apply truthy_true|apply strip_trimmed].
Qed.

End Splitting.

(** X8. Every paragraph that [split_into_paragraphs] returns is non-empty
    and has no blank at either end, and the result is empty exactly when
    the text holds blanks only. *)
Theorem split_into_paragraphs_clean (text : str) :
  Forall (fun p => p <> [] /\ trimmed p) (split_into_paragraphs text)
  /\ (split_into_paragraphs text = [] <-> forallb is_space text = true).
Proof.
  unfold split_into_paragraphs.
  set (by_blank := map strip (filter (fun p => truthy (strip p))
                                     (split_blank text))).
  set (by_line := map strip (filter (fun p => truthy (strip p))
                                    (split_on nl text))).
  assert (Hok1 : Forall sentence_ok by_blank) by apply clean_pieces_ok.
  assert (Hok2 : Forall sentence_ok by_line) by apply clean_pieces_ok.
  assert (Hblank : forall pieces sep,
             join sep pieces = text ->
             forallb is_space sep = true ->
             (map strip (filter (fun p => truthy (strip p)) pieces) = []
              <-> forallb is_space text = true)).
  { intros pieces sep Hjoin Hsep. rewrite clean_pieces_nil, <- Hjoin.
    rewrite !forallb_forall. split.
    - intros H c Hc. apply In_join in Hc.
      destruct Hc as [(p & Hp & Hc)|[Hc _]].
      + specialize (H p Hp). rewrite forallb_forall in H. now apply H.
      + rewrite forallb_forall in Hsep. now apply Hsep.
    - intros H p Hp. apply forallb_forall. intros c Hc. apply H.
      apply In_join. left. now exists p. }
  pose proof (Hblank _ _ (join_split_blank text) eq_refl) as H1.
  pose proof (Hblank _ _ (join_split_on nl text) eq_refl) as H2.
  fold by_blank in H1. fold by_line in H2.
  destruct by_blank as [|p ps] eqn:E.
  - split; [exact Hok2|exact H2].
  - split; [exact Hok1|]. split; [discriminate|].
    intros H. now apply H1 in H.
Qed.

(* ================================================================= *)
(** ** More on the Structural Segmenter *)

Section SectionContent.

Variable headers : list str.

(** The loop, from a state where the sections [closed] are closed and
    the lines [content] are those of the running section. *)
Lemma fold_sections_content_kept (lines : list str) :
  Forall (fun l => strip l = l /\ truthy l = true) lines ->
  forall closed lab content,
    Forall (fun g => snd g <> []) closed ->
    exists closed' lab' content',
      fold_left (sections_step headers) lines
                (map section_of closed, lab, content)
      = (map section_of closed', lab', content')
      /\ concat (map snd closed') ++ content'
         = concat (map snd closed) ++ content
           ++ filter (fun l => negb (is_section_header l headers)) lines
      /\ Forall (fun g => snd g <> []) closed'.
Proof.
  induction lines as [|l lines IH]; intros Hclean closed lab content Hclosed.
  - exists closed, lab, content. cbn. rewrite app_nil_r. now repeat split.
  - inversion Hclean as [|? ? [Hs Ht] Hclean']; subst.
    cbn [fold_left filter].
    destruct (is_section_header l headers) eqn:Hl; cbn [negb].
    + rewrite (sections_step_header headers _ _ _ _ Hs Ht Hl).
      destruct content as [|c content].
      * destruct (IH Hclean' closed l [] Hclosed) as (c' & lab' & ct' & Hf & Hc & Hne).
        exists c', lab', ct'. now repeat split.
      * change (map section_of closed ++ [(lab, join [nl] (c :: content))])
          with (map section_of closed ++ map section_of [(lab, c :: content)]).
        rewrite <- map_app.
        destruct (IH Hclean' (closed ++ [(lab, c :: content)]) l [])
          as (c' & lab' & ct' & Hf & Hc & Hne).
        { apply Forall_app. split; [exact Hclosed|].
          constructor; [discriminate|constructor]. }
        exists c', lab', ct'. split; [exact Hf|]. split; [|exact Hne].
        rewrite Hc, map_app, concat_app. cbn [map concat snd].
        now rewrite app_nil_r, <- !app_assoc.
    + rewrite (sections_step_content headers _ _ _ _ Hs Ht Hl).
      destruct (IH Hclean' closed lab (content ++ [l]) Hclosed)
        as (c' & lab' & ct' & Hf & Hc & Hne).
      exists c', lab', ct'. split; [exact Hf|]. split; [|exact Hne].
      rewrite Hc, <- !app_assoc. reflexivity.
Qed.

End SectionContent.

(** X9. When the text has a line of content, [split_into_sections] loses
    none: the bodies of its sections are non-empty groups of consecutive
    content lines, joined by line feeds, and together they are all the
    content lines in order. *)
Theorem split_into_sections_keeps_content (text : str) (headers : list str) :
  content_lines text headers <> [] ->
  exists groups : list (str * list str),
    split_into_sections text headers = map section_of groups
    /\ concat (map snd groups) = content_lines text headers
    /\ Forall (fun g => snd g <> []) groups.
Proof.
  intros Hsome. unfold split_into_sections.
  rewrite fold_sections_clean. fold (clean_lines text).
  assert (Hclean : Forall (fun l => strip l = l /\ truthy l = true)
                          (clean_lines text)).
  { apply Forall_forall. intros l Hl. apply (clean_line_spec _ _ Hl). }
  destruct (fold_sections_content_kept headers (clean_lines text) Hclean
              [] (py "Unknown") [] (Forall_nil _))
    as (closed & lab & content & Hf & Hc & Hne).
  cbn [map concat app] in Hf, Hc. fold (content_lines text headers) in Hc.
  destruct (fold_left (sections_step headers) (clean_lines text)
              ([], py "Unknown", [])) as [[secs lab0] content0] eqn:Hrun.
  injection Hf as -> -> ->.
  destruct content as [|c content].
  - rewrite app_nil_r in Hc.
    destruct closed as [|g closed];
      [cbn in Hc; congruence|].
    exists (g :: closed). now repeat split.
  - exists (closed ++ [(lab, c :: content)]).
    rewrite map_app. cbn [map].
    split.
    + unfold section_of at 2. cbn [fst snd].
      destruct (map section_of closed ++ [(lab, join [nl] (c :: content))])
        eqn:E; [now destruct (map section_of closed)|reflexivity].
    + split.
      * rewrite map_app, concat_app. cbn [map concat snd].
        now rewrite app_nil_r.
      * apply Forall_app. split; [exact Hne|].
        constructor; [discriminate|constructor].
Qed.

Lemma split_into_sections_keeps_content_witness :
  exists groups : list (str * list str),
    split_into_sections preamble_text [py "abstract"] = map section_of groups
    /\ concat (map snd groups)
       = [py "Some title"; py "An author"; py "This is the abstract."]
    /\ Forall (fun g => snd g <> []) groups.
Proof.
  apply (split_into_sections_keeps_content preamble_text [py "abstract"]).
  vm_compute. discriminate.
Defined.

(* ================================================================= *)
(** ** The structure-aware chunker *)

Section Structure.

Variable tiktoken : option (str -> option (str -> list Z)).
Variable config : ChunkingConfig.

Let ct (c : str) : Z := count_tokens tiktoken c (tokenizer_model config).

Hypothesis Hadd : additive_counts ct.

Let enough (c : str) : Prop := min_tokens config <= ct c.

Lemma fold_left_snoc_from {A B} (f : A -> B) (l : list A) (init : list B) :
  fold_left (fun acc x => acc ++ [f x]) l init = init ++ map f l.
Proof.
  revert init. induction l as [|x l IH]; intros init; cbn.
  - now rewrite app_nil_r.
  - now rewrite IH, <- app_assoc.
Qed.

Lemma prefixed_enough (prefix c : str) :
  enough c -> enough (prefix ++ [nl; nl] ++ c).
Proof.
  unfold enough. intros Hc. destruct Hadd as (Hsum & _ & _).
  rewrite Hsum.
  pose proof (count_tokens_nonneg tiktoken config prefix (tokenizer_model config)).
  fold (ct prefix) in H. lia.
Qed.

Lemma merged_enough (paragraphs : list str) :
  Forall enough (merge_paragraphs_semantically tiktoken paragraphs config).
Proof.
  unfold merge_paragraphs_semantically.
  destruct paragraphs as [|p ps]; [constructor|].
  destruct (post_pass_groups tiktoken config
              (greedy_chunks tiktoken config (p :: ps)) [])
    as (groups & Hfold & _ & Hgood); [constructor|].
  cbn [map] in Hfold. rewrite Hfold.
  apply Forall_forall. intros c Hc. apply in_map_iff in Hc.
  destruct Hc as ([g smalls] & <- & Hg).
  destruct (proj1 (Forall_forall _ _) Hgood _ Hg) as [Hge _].
  cbn [fst] in Hge.
  pose proof (count_render tiktoken config g smalls Hadd) as Hr.
  unfold enough, ct in *. cbv beta zeta in Hge, Hr. lia.
Qed.

Lemma section_chunks_enough (all_chunks : list str) (section : str * str) :
  Forall enough all_chunks ->
  Forall enough (section_chunks tiktoken config all_chunks section).
Proof.
  intros Hall. unfold section_chunks. destruct section as [name content].
  destruct (negb (truthy (strip content))); [exact Hall|].
  destruct (split_into_paragraphs content) as [|p ps] eqn:Hp; [exact Hall|].
  rewrite (fold_left_snoc_from
             (fun chunk =>
                if negb (startswith (lower chunk) (lower name))
                then py "[" ++ name ++ py "]" ++ [nl; nl] ++ chunk
                else chunk)).
  apply Forall_app. split; [exact Hall|].
  apply Forall_forall. intros c Hc. apply in_map_iff in Hc.
  destruct Hc as (chunk & <- & Hin).
  pose proof (proj1 (Forall_forall _ _) (merged_enough (p :: ps)) _ Hin)
    as Hchunk.
  destruct (negb (startswith (lower chunk) (lower name))); [|exact Hchunk].
  rewrite (app_assoc (py "[")), (app_assoc (py "[" ++ name)).
  now apply prefixed_enough.
Qed.

Lemma sections_enough (sections : list (str * str)) (all_chunks : list str) :
  Forall enough all_chunks ->
  Forall enough (fold_left (section_chunks tiktoken config) sections all_chunks).
Proof.
  revert all_chunks.
  induction sections as [|s sections IH]; intros all_chunks Hall; cbn.
  - exact Hall.
  - apply IH. now apply section_chunks_enough.
Qed.

Lemma overlap_enough (chunks : list str) :
  Forall enough chunks ->
  Forall enough (apply_overlap_sliding_window chunks config).
Proof.
  intros Hall.
  destruct (Z.leb_spec (overlap_tokens config) 0) as [Hle|Hlt].
  - unfold apply_overlap_sliding_window.
    destruct (Z.leb_spec (overlap_tokens config) 0); [|lia].
    now rewrite orb_true_r.
  - rewrite (apply_overlap_map _ _ Hlt).
    apply Forall_forall. intros c Hc. apply in_map_iff in Hc.
    destruct Hc as ([i chunk] & <- & Hin).
    apply in_combine_r in Hin.
    pose proof (proj1 (Forall_forall _ _) Hall _ Hin) as Hchunk.
    destruct i as [|i]; [exact Hchunk|].
    unfold overlapped_chunk. now apply prefixed_enough.
Qed.

End Structure.

(** X10. With a tokenizer whose counts add up over a blank line, every
    chunk that [advanced_chunk_by_structure] returns has at least
    [min_tokens] tokens: the section label put before a chunk and the
    words of the previous chunk put before it by the overlap take none
    away. *)
Theorem advanced_chunks_reach_min_tokens
    (tiktoken : option (str -> option (str -> list Z)))
    (preprocess_text : str -> str) (config : ChunkingConfig) (text : str) :
  additive_counts
    (fun c => count_tokens tiktoken c (tokenizer_model config)) ->
  Forall (fun c => min_tokens config
                   <= count_tokens tiktoken c (tokenizer_model config))
         (advanced_chunk_by_structure tiktoken preprocess_text text config).
Proof.
  intros Hadd. unfold advanced_chunk_by_structure.
  destruct (negb (truthy text)); [constructor|].
  set (sections := split_into_sections _ _).
  pose proof (sections_enough tiktoken config Hadd sections []
                (Forall_nil _)) as Hsec.
  set (all_chunks := fold_left _ sections []) in *.
  set (enough := fun c => min_tokens config
                          <= count_tokens tiktoken c (tokenizer_model config))
    in *.
  assert (Hall : Forall enough
            match all_chunks with
            | _ :: _ => all_chunks
            | [] =>
                match split_into_paragraphs (preprocess_text text) with
                | [] => all_chunks
                | paragraphs =>
                    merge_paragraphs_semantically tiktoken paragraphs config
                end
            end).
  { destruct all_chunks as [|c cs]; [|exact Hsec].
    destruct (split_into_paragraphs (preprocess_text text));
      [constructor|apply (merged_enough tiktoken config Hadd)]. }
  match goal with
  | |- Forall _ (if ?b then _ else _) => destruct b
  end; [now apply (overlap_enough tiktoken config Hadd)|exact Hall].
Qed.

Lemma advanced_chunks_reach_min_tokens_witness :
  Forall (fun c => 2 <= count_tokens None c (py "gpt-3.5-turbo"))
         (advanced_chunk_by_structure None (fun t => t)
            (py "one two" ++ [nl; nl] ++ py "three" ++ [nl; nl]
             ++ py "four five six")
            (demo_config 2 3 1)).
Proof.
  apply (advanced_chunks_reach_min_tokens None (fun t => t)
           (demo_config 2 3 1) _
           (word_count_additive (py "gpt-3.5-turbo"))).
Defined.

(* ================================================================= *)
(** ** More on the Sentence-Budgeted Merger *)

Section FineGroups.

Variables min_chars max_chars min_sentences max_sentences : Z.
Variable sentences : list str.
Hypothesis sentences_ok : Forall sentence_ok sentences.

Let step := fine_step min_chars max_chars min_sentences max_sentences.
Let gok := fine_group_ok min_chars min_sentences max_sentences.

(** The state of the loop when the sentences [rest] are left: the runs
    [closed] are closed, the running chunk is made of the sentences [g]. *)
Let inv (rest : list str) (st : list str * str * Z) : Prop :=
  let '(chunks, cur, n) := st in
  exists closed g,
    sentences = concat (map fst closed) ++ g ++ rest
    /\ cur = join [space] g
    /\ n = Z.of_nat (length g)
    /\ Z.of_nat (length g) <= Z.max 1 max_sentences
    /\ chunks = kept_chunks closed
    /\ Forall gok closed.

Lemma kept_chunks_kept (closed : list (list str * bool)) (g : list str) :
  kept_chunks (closed ++ [(g, true)])
  = kept_chunks closed ++ [join [space] g].
Proof.
  unfold kept_chunks. rewrite filter_app, map_app. reflexivity.
Qed.

Lemma kept_chunks_left_out (closed : list (list str * bool)) (g : list str) :
  kept_chunks (closed ++ [(g, false)]) = kept_chunks closed.
Proof.
  unfold kept_chunks. rewrite filter_app, map_app. cbn. apply app_nil_r.
Qed.

Lemma concat_closed (closed : list (list str * bool)) (g : list str)
    (b : bool) :
  concat (map fst (closed ++ [(g, b)])) = concat (map fst closed) ++ g.
Proof.
  rewrite map_app, concat_app. cbn. now rewrite app_nil_r.
Qed.

Lemma fine_step_groups (s : str) (rest : list str)
    (st : list str * str * Z) :
  inv (s :: rest) st -> inv rest (step st s).
Proof.
  destruct st as [[chunks cur] n].
  intros (closed & g & Hsplit & Hcur & Hn & Hlen & Hchunks & Hclosed).
  pose proof (group_ok sentences sentences_ok _ _ _ Hsplit) as Hg.
  unfold step, fine_step. subst cur.
  rewrite (running_chunk_truthy g Hg), (running_chunk_trimmed g Hg).
  destruct g as [|a g'].
  - rewrite !andb_false_r. cbn [join]. subst n.
    exists closed, [s]. repeat split; try assumption. cbn. lia.
  - set (g := a :: g') in *.
    assert (Hne : g <> []) by discriminate.
    assert (Hclose : forall b,
               (b = false ->
                len (join [space] g) < min_chars
                \/ Z.of_nat (length g) < min_sentences) ->
               inv rest
                 ((if b then chunks ++ [join [space] g] else chunks), s, 1)).
    { intros b Hb. exists (closed ++ [(g, b)]), [s].
      rewrite concat_closed, <- app_assoc.
      split; [exact Hsplit|]. split; [reflexivity|].
      split; [reflexivity|]. split; [cbn; lia|]. split.
      - destruct b; [rewrite kept_chunks_kept|rewrite kept_chunks_left_out];
          now rewrite Hchunks.
      - apply Forall_app. split; [exact Hclosed|].
        constructor; [|constructor]. now repeat split. }
    rewrite !andb_true_r.
    destruct (Z.gtb_spec
                (len (join [space] g ++ [space] ++ s)) max_chars)
      as [Hover|Hfits].
    + destruct (Z.geb_spec (len (join [space] g)) min_chars) as [Hmin|Hmin];
        [|apply (Hclose false); intros _; left; lia].
      destruct (Z.geb_spec n min_sentences) as [Hsent|Hsent]; cbn [andb].
      * apply (Hclose true). discriminate.
      * apply (Hclose false). intros _. right. lia.
    + destruct (Z.geb_spec n max_sentences) as [Hfull|Hroom].
      * destruct (Z.geb_spec (len (join [space] g)) min_chars) as [Hmin|Hmin].
        -- apply (Hclose true). discriminate.
        -- apply (Hclose false). intros _. left. lia.
      * exists closed, (g ++ [s]). repeat split; try assumption.
        -- rewrite Hsplit, <- app_assoc. reflexivity.
        -- rewrite join_snoc by exact Hne. reflexivity.
        -- rewrite length_app. cbn [length]. lia.
        -- rewrite length_app. cbn [length]. lia.
Qed.

Lemma fine_fold_groups (rest : list str) (st : list str * str * Z) :
  inv rest st -> inv [] (fold_left step rest st).
Proof.
  revert st; induction rest as [|s rest IH]; intros st Hst; [exact Hst|].
  cbn [fold_left]. apply IH, fine_step_groups, Hst.
Qed.

(** The chunks are the kept ones of the runs into which the loop cuts
    the sentences. *)
Lemma fine_chunks_of_groups :
  exists groups,
    concat (map fst groups) = sentences
    /\ fine_chunks_of min_chars max_chars min_sentences max_sentences sentences
       = kept_chunks groups
    /\ Forall gok groups.
Proof.
  unfold fine_chunks_of.
  destruct (fold_left
              (fine_step min_chars max_chars min_sentences max_sentences)
              sentences ([], [], 0)) as [[chunks cur] n] eqn:Hfold.
  assert (H : inv [] (chunks, cur, n)).
  { rewrite <- Hfold. apply fine_fold_groups. exists [], [].
    repeat split; [cbn; lia|constructor]. }
  destruct H as (closed & g & Hsplit & Hcur & Hn & Hlen & Hchunks & Hclosed).
  pose proof (group_ok sentences sentences_ok _ _ _ Hsplit) as Hg.
  rewrite app_nil_r in Hsplit. subst cur.
  rewrite (running_chunk_truthy g Hg), (running_chunk_trimmed g Hg).
  destruct g as [|a g'].
  - exists closed. rewrite app_nil_r in Hsplit. cbn [andb]. now repeat split.
  - set (g := a :: g') in *. cbn [andb].
    assert (Hlast : forall b,
               (b = false ->
                len (join [space] g) < min_chars
                \/ Z.of_nat (length g) < min_sentences) ->
               exists groups,
                 concat (map fst groups) = sentences
                 /\ (if b then chunks ++ [join [space] g] else chunks)
                    = kept_chunks groups
                 /\ Forall gok groups).
    { intros b Hb. exists (closed ++ [(g, b)]).
      rewrite concat_closed. split; [now symmetry|]. split.
      - destruct b; [rewrite kept_chunks_kept|rewrite kept_chunks_left_out];
          now rewrite Hchunks.
      - apply Forall_app. split; [exact Hclosed|].
        constructor; [|constructor]. repeat split;
          [discriminate|exact Hlen|exact Hb]. }
    destruct (Z.geb_spec (len (join [space] g)) min_chars) as [Hmin|Hmin];
      [|apply (Hlast false); intros _; left; lia].
    destruct (Z.geb_spec n min_sentences) as [Hsent|Hsent]; cbn [andb].
    + apply (Hlast true). discriminate.
    + apply (Hlast false). intros _. right. lia.
Qed.

End FineGroups.

(** [create_fine_chunks] is the loop on the sentences of the text: its
    two early returns are what the loop gives on no sentence. *)
Lemma create_fine_chunks_loop (text : str)
    (min_chars max_chars min_sentences max_sentences : Z) :
  create_fine_chunks text min_chars max_chars min_sentences max_sentences
  = fine_chunks_of min_chars max_chars min_sentences max_sentences
                   (sentences_of text).
Proof.
  unfold create_fine_chunks.
  destruct text as [|c text]; [reflexivity|]. cbn [truthy negb].
  destruct (sentences_of (c :: text)); reflexivity.
Qed.

Lemma run_of_sentences (groups : list (list str * bool))
    (g : list str * bool) :
  In g groups ->
  exists pre post, concat (map fst groups) = pre ++ fst g ++ post.
Proof.
  intros Hin. apply in_split in Hin. destruct Hin as (l1 & l2 & ->).
  exists (concat (map fst l1)), (concat (map fst l2)).
  rewrite map_app, concat_app. reflexivity.
Qed.

(** X11. [create_fine_chunks] cuts the sentences of the text into
    consecutive non-empty runs, each sentence in exactly one run, and
    returns, in the order of the text, the runs it keeps, each joined by
    blanks; a run is left out only when it has fewer than [min_chars]
    characters or fewer than [min_sentences] sentences. *)
Theorem create_fine_chunks_runs (text : str)
    (min_chars max_chars min_sentences max_sentences : Z) :
  exists groups : list (list str * bool),
    concat (map fst groups) = sentences_of text
    /\ create_fine_chunks text min_chars max_chars min_sentences max_sentences
       = kept_chunks groups
    /\ Forall (fine_group_ok min_chars min_sentences max_sentences) groups.
Proof.
  rewrite create_fine_chunks_loop.
  apply fine_chunks_of_groups, sentences_of_ok.
Qed.

(** X12. A chunk of [create_fine_chunks] has at most [max_sentences]
    sentences, as the sentence splitter counts them, and at most one when
    [max_sentences] is below one. *)
Theorem fine_chunks_sentence_budget (text : str)
    (min_chars max_chars min_sentences max_sentences : Z) :
  Forall (fun c =>
            Z.of_nat (length (sentences_of c)) <= Z.max 1 max_sentences)
         (create_fine_chunks text min_chars max_chars
                             min_sentences max_sentences).
Proof.
  rewrite create_fine_chunks_loop.
  destruct (fine_chunks_of_groups min_chars max_chars min_sentences
              max_sentences (sentences_of text) (sentences_of_ok text))
    as (groups & Hcat & -> & Hok).
  apply Forall_forall. intros c Hc. unfold kept_chunks in Hc.
  apply in_map_iff in Hc. destruct Hc as (g & <- & Hg).
  apply filter_In in Hg. destruct Hg as [Hg _].
  destruct (run_of_sentences groups g Hg) as (pre & post & Hrun).
  rewrite Hcat in Hrun.
  rewrite (sentences_of_chunk text (fst g) (join [space] (fst g))).
  - apply (proj1 (Forall_forall _ _) Hok g Hg).
  - split; [exists pre, post; exact Hrun|reflexivity].
Qed.

(** X13. With no minimum to meet ([min_chars <= 0] and
    [min_sentences <= 1]) no sentence is lost: the sentences of the
    chunks of [create_fine_chunks], one chunk after the other, are the
    sentences of the text. *)
Theorem fine_chunks_keep_all_sentences (text : str)
    (min_chars max_chars min_sentences max_sentences : Z) :
  min_chars <= 0 -> min_sentences <= 1 ->
  concat (map sentences_of
              (create_fine_chunks text min_chars max_chars
                                  min_sentences max_sentences))
  = sentences_of text.
Proof.
  intros Hchars Hsent. rewrite create_fine_chunks_loop.
  destruct (fine_chunks_of_groups min_chars max_chars min_sentences
              max_sentences (sentences_of text) (sentences_of_ok text))
    as (groups & Hcat & -> & Hok).
  assert (Hall : filter snd groups = groups).
  { apply forallb_filter_id, forallb_forall. intros g Hg.
    destruct (proj1 (Forall_forall _ _) Hok g Hg) as (Hne & _ & Hout).
    destruct (snd g); [reflexivity|].
    destruct (Hout eq_refl) as [H|H].
    - unfold len in H. lia.
    - destruct (fst g); [congruence|cbn [length] in H; lia]. }
  unfold kept_chunks. rewrite Hall, map_map, <- Hcat. f_equal.
  apply map_ext_in. intros g Hg.
  destruct (run_of_sentences groups g Hg) as (pre & post & Hrun).
  rewrite Hcat in Hrun.
  apply (sentences_of_chunk text).
  split; [exists pre, post; exact Hrun|reflexivity].
Qed.

Lemma fine_chunks_keep_all_sentences_witness :
  concat (map sentences_of (create_fine_chunks four_sentences 0 30 1 2))
  = sentences_of four_sentences.
Proof.
  apply (fine_chunks_keep_all_sentences four_sentences 0 30 1 2); lia.
Defined.

(* ================================================================= *)
(** ** When the coarse post-pass returns *)

Section CoarseReturns.

Variable tiktoken : option (str -> option (str -> list Z)).
Variables min_chars max_chars min_tokens max_tokens : Z.
Variable model : str.

Let step := coarse_step tiktoken min_chars max_chars min_tokens max_tokens
                        model.

(** A chunk on which the splitting of [chunk_text_with_overlap], with
    its overlap of 100, does not end. *)
Let stuck (c : str) : Prop := c <> [] /\ max_chars < len c.

Lemma coarse_step_none (final : list str) (c : str) :
  step (Some final) c = None <-> max_chars <= 100 /\ stuck c.
Proof.
  unfold step, coarse_step, stuck.
  destruct (Z.leb_spec (len c) max_chars) as [Hfit|Hbig].
  - split.
    + intros H.
      destruct (_ && _ && _ && _); [discriminate|].
      destruct (Z.gtb_spec (len c) max_chars); [lia|].
      destruct (_ && _); discriminate.
    + intros (_ & _ & H). lia.
  - rewrite andb_false_r. cbn [andb].
    destruct (Z.gtb_spec (len c) max_chars) as [_|]; [|lia].
    destruct (Z_le_gt_dec max_chars 100) as [Hle|Hgt].
    + destruct c as [|a c].
      * cbn. split; [discriminate|]. intros (_ & H & _). congruence.
      * rewrite chunk_text_with_overlap_loops; [|discriminate|lia|lia].
        split; [intros _|reflexivity]. repeat split; [lia|discriminate|lia].
    + destruct (chunk_text_with_overlap_returns c max_chars 100) as [out ->];
        [left; lia|].
      split; [discriminate|]. intros (H & _). lia.
Qed.

Lemma coarse_fold_returns (chunks : list str) (final : list str) :
  fold_left step chunks (Some final) = None
  <-> max_chars <= 100 /\ Exists stuck chunks.
Proof.
  revert final. induction chunks as [|c chunks IH]; intros final.
  - cbn. split; [discriminate|]. intros [_ H]. inversion H.
  - cbn [fold_left]. destruct (step (Some final) c) as [final'|] eqn:Hstep.
    + rewrite IH. split.
      * intros [Hle Hex]. split; [exact Hle|now right].
      * intros [Hle Hex]. split; [exact Hle|].
        inversion Hex as [? ? Hc|]; subst; [|assumption].
        assert (Hnone : step (Some final) c = None)
          by (apply coarse_step_none; now split).
        congruence.
    + change (fold_left step chunks None) with
        (fold_left (coarse_step tiktoken min_chars max_chars min_tokens
                      max_tokens model) chunks None).
      rewrite coarse_fold_none.
      apply coarse_step_none in Hstep. destruct Hstep as [Hle Hc].
      split; [intros _|reflexivity]. split; [exact Hle|now left].
Qed.

End CoarseReturns.

(** X14. [create_coarse_chunks] fails to return exactly when [max_chars]
    is at most 100, the overlap with which it splits oversized chunks,
    and the structure-aware chunker gives a non-empty chunk of more than
    [max_chars] characters; with a greater [max_chars], as the default of
    1500, it always returns. *)
Theorem create_coarse_chunks_returns_iff
    (tiktoken : option (str -> option (str -> list Z)))
    (preprocess_text : str -> str) (text : str)
    (min_chars max_chars min_tokens max_tokens : Z) :
  create_coarse_chunks tiktoken preprocess_text text
                       min_chars max_chars min_tokens max_tokens = None
  <-> text <> [] /\ max_chars <= 100
      /\ Exists (fun c => c <> [] /\ max_chars < len c)
                (advanced_chunk_by_structure tiktoken preprocess_text text
                   (coarse_config min_tokens max_tokens)).
Proof.
  unfold create_coarse_chunks.
  destruct text as [|a text]; cbn [truthy negb].
  - split; [discriminate|]. intros [H _]. congruence.
  - fold (coarse_config min_tokens max_tokens).
    cbn [tokenizer_model coarse_config].
    rewrite coarse_fold_returns.
    split; [intros [H1 H2]|intros (_ & H1 & H2)]; repeat split;
      try assumption; discriminate.
Qed.

(* ================================================================= *)
(** ** The prompts *)

Section Prompts.

Lemma list_slice_from_trailing {A} (l : list A) :
  list_slice_from l (-2) = trailing 2 l.
Proof.
  unfold list_slice_from, trailing, slice_bound. cbn [Z.ltb Z.compare].
  f_equal. lia.
Qed.

Lemma trailing_app {A} (old : list A) (a b : A) :
  trailing 2 (old ++ [a; b]) = [a; b].
Proof.
  unfold trailing. rewrite length_app. cbn [length].
  replace (length old + 2 - 2)%nat with (length old + 0)%nat by lia.
  rewrite skipn_app, Nat.add_0_r, skipn_all.
  replace (length old - length old)%nat with 0%nat by lia. reflexivity.
Qed.

End Prompts.

(** X15. [build_prompt] reads the last two turns of the history and no
    other: a history and its last two turns give the same prompt, and
    turns before the last two change nothing. *)
Theorem build_prompt_last_two_turns (system context query : str)
    (history : list Turn) :
  build_prompt system context history query
  = build_prompt system context (trailing 2 history) query
  /\ forall old a b,
       build_prompt system context (old ++ [a; b]) query
       = system ++ [nl; nl] ++ context ++ [nl; nl]
         ++ (user a ++ [nl] ++ assistant a) ++ [nl; nl]
         ++ (user b ++ [nl] ++ assistant b) ++ [nl; nl] ++ query ++ [nl].
Proof.
  split.
  - unfold build_prompt. rewrite !list_slice_from_trailing.
    assert (H : trailing 2 (trailing 2 history) = trailing 2 history).
    { unfold trailing. rewrite length_skipn.
      replace (length history - (length history - 2) - 2)%nat with 0%nat
        by lia.
      reflexivity. }
    now rewrite H.
  - intros old a b. unfold build_prompt.
    rewrite list_slice_from_trailing, trailing_app. cbn [map join].
    now rewrite <- !app_assoc.
Qed.


(* ================================================================= *)
(** ** More on the Dual Collection Store *)

Section StoreMore.

Variable encode : str -> option (list Q).
Variable fine_collection coarse_collection :
  list Q -> Z -> option QueryResult.

Lemma str_eqb_eq (a b : str) : str_eqb a b = true <-> a = b.
Proof.
  revert b; induction a as [|x a IH]; intros [|y b]; cbn;
    try (split; [discriminate|congruence]); [now split|].
  rewrite andb_true_iff, IH. split.
  - intros [Hxy ->]. apply Ascii.eqb_eq in Hxy. now subst.
  - intros H. injection H as -> ->. split; [apply Ascii.eqb_refl|reflexivity].
Qed.

Lemma map_fst_enumerate {A} (l : list A) (a : nat) :
  map fst (combine (seq a (length l)) l) = seq a (length l).
Proof.
  revert a; induction l as [|x l IH]; intros a; [reflexivity|].
  cbn. now rewrite IH.
Qed.

Lemma format_results_ranks (name : str)
    (rows : list (str * option metadata * Q)) :
  map rank (format_results name rows)
  = map (fun i => Z.of_nat i + 1) (seq 0 (length rows))
  /\ Forall (fun r => collection r = name) (format_results name rows).
Proof.
  rewrite format_results_map. split.
  - etransitivity;
      [|apply (f_equal (map (fun i => Z.of_nat i + 1))),
          (map_fst_enumerate rows 0)].
    rewrite !map_map. apply map_ext. now intros [i [[doc md] dist]].
  - apply Forall_forall. intros r Hr. apply in_map_iff in Hr.
    destruct Hr as [[i [[doc md] dist]] [<- _]]. reflexivity.
Qed.

Lemma format_results_relabel (name other : str)
    (rows : list (str * option metadata * Q)) :
  format_results name rows
  = map (with_collection name) (format_results other rows).
Proof.
  rewrite !format_results_map, map_map.
  apply map_ext. now intros [i [[doc md] dist]].
Qed.

(** Equal scores keep their order when a result is put in its place. *)
Lemma with_score_insert_desc (q : Q) (x : SearchResult)
    (l : list SearchResult) :
  StronglySorted score_ge l ->
  with_score q (insert_desc x l)
  = with_score q l ++ with_score q [x].
Proof.
  unfold with_score.
  induction 1 as [|y l Hs IH Hy]; [reflexivity|].
  cbn [insert_desc].
  destruct (Qle_bool (similarity_score x) (similarity_score y)) eqn:Hle.
  - cbn [filter]. rewrite IH.
    now destruct (Qeq_bool (similarity_score y) q).
  - change (x :: y :: l) with ([x] ++ y :: l). rewrite filter_app.
    destruct (Qeq_bool (similarity_score x) q) eqn:Hx.
    + assert (Hlt : (similarity_score y < similarity_score x)%Q).
      { apply Qnot_le_lt. intros H. apply Qle_bool_iff in H. congruence. }
      assert (Hnone : filter (fun r => Qeq_bool (similarity_score r) q)
                             (y :: l) = []).
      { assert (Hall : Forall (fun z => (similarity_score z
                                         <= similarity_score y)%Q) (y :: l))
          by (constructor; [apply Qle_refl|exact Hy]).
        apply Qeq_bool_iff in Hx.
        induction Hall as [|z l' Hz _ IHl]; [reflexivity|].
        cbn [filter]. rewrite IHl.
        destruct (Qeq_bool (similarity_score z) q) eqn:Hzq; [|reflexivity].
        apply Qeq_bool_iff in Hzq. rewrite Hzq, <- Hx in Hz.
        exfalso. apply (Qlt_not_le _ _ Hlt Hz). }
      rewrite Hnone. cbn [app]. apply app_nil_r.
    + cbn [filter]. rewrite Hx. cbn [app]. now rewrite app_nil_r.
Qed.

Lemma with_score_sort_from (q : Q) (l acc : list SearchResult) :
  StronglySorted score_ge acc ->
  with_score q (fold_left (fun sorted x => insert_desc x sorted) l acc)
  = with_score q acc ++ with_score q l.
Proof.
  revert acc; induction l as [|x l IH]; intros acc Hacc; cbn [fold_left].
  - unfold with_score. cbn. now rewrite app_nil_r.
  - rewrite (IH _ (sorted_insert_desc x acc Hacc)),
      (with_score_insert_desc q x acc Hacc), <- app_assoc.
    f_equal. unfold with_score. change (x :: l) with ([x] ++ l).
    now rewrite filter_app.
Qed.

(** X17. The results of [search_collection] are numbered 1, 2, ... in
    the order of the answer of the index and carry the collection name
    that was asked for. *)
Theorem search_collection_ranks (query : str) (k : Z) (name : str) :
  let results :=
    search_collection encode fine_collection coarse_collection query k name in
  map rank results
  = map (fun i => Z.of_nat i + 1) (seq 0 (length results))
  /\ Forall (fun r => collection r = name) results.
Proof.
  unfold search_collection.
  destruct (encode query) as [e|]; [|split; [reflexivity|constructor]].
  destruct ((if str_eqb name (py "fine")
             then fine_collection else coarse_collection) e k) as [res|];
    [|split; [reflexivity|constructor]].
  destruct (documents res) as [|[|d docs0] rest];
    try (split; [reflexivity|constructor]).
  destruct (metadatas res) as [|metas0 ?];
    [split; [reflexivity|constructor]|].
  destruct (distances res) as [|dists0 ?];
    [split; [reflexivity|constructor]|].
  destruct (format_results_ranks name (zip3 (d :: docs0) metas0 dists0))
    as [Hranks Hname].
  split; [|exact Hname].
  rewrite Hranks. do 2 f_equal.
  symmetry. apply format_results_spec.
Qed.

(** X18. A collection name other than [fine] is not refused:
    [search_collection] then asks the coarse collection, and gives its
    results under the name that was asked for. *)
Theorem search_collection_other_name (query : str) (k : Z) (name : str) :
  name <> py "fine" ->
  search_collection encode fine_collection coarse_collection query k name
  = map (with_collection name)
        (search_collection encode fine_collection coarse_collection
                           query k (py "coarse")).
Proof.
  intros Hname. unfold search_collection.
  destruct (str_eqb name (py "fine")) eqn:Hn;
    [apply str_eqb_eq in Hn; contradiction|].
  change (str_eqb (py "coarse") (py "fine")) with false. cbv iota.
  destruct (encode query) as [e|]; [|reflexivity].
  destruct (coarse_collection e k) as [res|]; [|reflexivity].
  destruct (documents res) as [|[|d docs0] rest]; try reflexivity.
  destruct (metadatas res) as [|metas0 ?]; [reflexivity|].
  destruct (distances res) as [|dists0 ?]; [reflexivity|].
  apply format_results_relabel.
Qed.

(** X19. The sort of [search_both_collections] is stable: among results
    of equal similarity score, those of the fine collection come before
    those of the coarse one, and each collection's keep their order. *)
Theorem search_both_ties_keep_order (query : str) (k_fine k_coarse : Z)
    (q : Q) :
  with_score q
    (search_both_collections encode fine_collection coarse_collection
                             query k_fine k_coarse)
  = with_score q
      (search_collection encode fine_collection coarse_collection
                         query k_fine (py "fine"))
    ++ with_score q
         (search_collection encode fine_collection coarse_collection
                            query k_coarse (py "coarse")).
Proof.
  unfold search_both_collections, sort_desc.
  rewrite (with_score_sort_from q _ [] (SSorted_nil _)).
  unfold with_score. cbn [filter app]. apply filter_app.
Qed.

End StoreMore.

Lemma search_collection_other_name_witness :
  map collection
    (search_collection demo_encode (fixed_index demo_rows_miss)
       (fixed_index demo_rows_hit) (py "q") 2 (py "abstracts"))
  = [py "abstracts"; py "abstracts"].
Proof.
  rewrite (search_collection_other_name demo_encode
             (fixed_index demo_rows_miss) (fixed_index demo_rows_hit)
             (py "q") 2 (py "abstracts")); [reflexivity|discriminate].
Defined.

(* ================================================================= *)
(** ** No chunk is empty *)

Section NonEmpty.

Variable tiktoken : option (str -> option (str -> list Z)).
Variable config : ChunkingConfig.

Let nonempty (c : str) : Prop := c <> [].

Lemma In_skip_while {A} (p : A -> bool) (l : list A) (x : A) :
  In x (skip_while p l) -> In x l.
Proof.
  induction l as [|y l IH]; [intros []|]. cbn [skip_while].
  destruct (p y); [intros H; right; now apply IH|intros H; exact H].
Qed.

Lemma merge_fold_nonempty (paragraphs : list str) :
  Forall sentence_ok paragraphs ->
  forall chunks cur tok chunks' cur' tok',
    Forall nonempty chunks -> (cur = [] \/ sentence_ok cur) ->
    fold_left (merge_step tiktoken config) paragraphs (chunks, cur, tok)
    = (chunks', cur', tok') ->
    Forall nonempty chunks' /\ (cur' = [] \/ sentence_ok cur').
Proof.
  induction 1 as [|p ps Hp _ IH];
    intros chunks cur tok chunks' cur' tok' Hchunks Hcur Hfold.
  - injection Hfold as <- <- <-. now split.
  - cbn [fold_left] in Hfold. unfold merge_step at 2 in Hfold.
    destruct ((tok + count_tokens tiktoken p (tokenizer_model config)
               >? max_tokens config) && truthy cur) eqn:Hclose.
    + apply andb_true_iff in Hclose. destruct Hclose as [_ Ht].
      apply truthy_true in Ht.
      destruct Hcur as [->|[Hne Htr]]; [congruence|].
      apply (IH _ _ _ _ _ _) in Hfold; [exact Hfold| |now right].
      apply Forall_app. split; [exact Hchunks|].
      constructor; [|constructor].
      unfold nonempty. now rewrite (strip_of_trimmed cur Htr).
    + apply (IH _ _ _ _ _ _) in Hfold; [exact Hfold|exact Hchunks|].
      right. destruct Hcur as [->|[Hne Htr]]; [exact Hp|].
      apply truthy_true in Hne. rewrite Hne. apply truthy_true in Hne.
      destruct Hp as [Hpne Hptr]. split.
      * destruct cur; [congruence|discriminate].
      * now apply trimmed_app.
Qed.

Lemma greedy_chunks_nonempty (paragraphs : list str) :
  Forall sentence_ok paragraphs ->
  Forall nonempty (greedy_chunks tiktoken config paragraphs).
Proof.
  intros Hps. unfold greedy_chunks.
  destruct (fold_left (merge_step tiktoken config) paragraphs ([], [], 0))
    as [[chunks cur] tok] eqn:Hfold.
  destruct (merge_fold_nonempty paragraphs Hps [] [] 0 chunks cur tok
              (Forall_nil _) (or_introl eq_refl) Hfold) as [Hchunks _].
  destruct (truthy (strip cur)) eqn:Ht; [|exact Hchunks].
  apply Forall_app. split; [exact Hchunks|].
  constructor; [now apply truthy_true|constructor].
Qed.

Lemma merged_nonempty (paragraphs : list str) :
  Forall sentence_ok paragraphs ->
  Forall nonempty (merge_paragraphs_semantically tiktoken paragraphs config).
Proof.
  intros Hps. unfold merge_paragraphs_semantically.
  destruct paragraphs as [|p ps]; [constructor|].
  destruct (post_pass_groups tiktoken config
              (greedy_chunks tiktoken config (p :: ps)) [])
    as (groups & Hfold & Hmem & _); [constructor|].
  cbn [map] in Hfold. rewrite Hfold. cbn [flat_map app] in Hmem.
  pose proof (greedy_chunks_nonempty (p :: ps) Hps) as Hgreedy.
  apply Forall_forall. intros c Hc. apply in_map_iff in Hc.
  destruct Hc as (g & <- & Hg).
  apply join_nonempty; [|discriminate].
  apply Forall_forall. intros m Hm.
  apply (proj1 (Forall_forall _ _) Hgreedy).
  eapply In_skip_while. rewrite <- Hmem.
  apply in_flat_map. now exists g.
Qed.

Lemma split_into_paragraphs_ok (text : str) :
  Forall sentence_ok (split_into_paragraphs text).
Proof.
  unfold split_into_paragraphs.
  pose proof (clean_pieces_ok (split_blank text)) as H1.
  destruct (map strip (filter (fun p => truthy (strip p)) (split_blank text)));
    [apply clean_pieces_ok|exact H1].
Qed.

Lemma section_chunks_nonempty (all_chunks : list str) (section : str * str) :
  Forall nonempty all_chunks ->
  Forall nonempty (section_chunks tiktoken config all_chunks section).
Proof.
  intros Hall. unfold section_chunks. destruct section as [name content].
  destruct (negb (truthy (strip content))); [exact Hall|].
  pose proof (split_into_paragraphs_ok content) as Hok.
  destruct (split_into_paragraphs content) as [|p ps]; [exact Hall|].
  rewrite (fold_left_snoc_from
             (fun chunk =>
                if negb (startswith (lower chunk) (lower name))
                then py "[" ++ name ++ py "]" ++ [nl; nl] ++ chunk
                else chunk)).
  apply Forall_app. split; [exact Hall|].
  apply Forall_forall. intros c Hc. apply in_map_iff in Hc.
  destruct Hc as (chunk & <- & Hin).
  destruct (negb (startswith (lower chunk) (lower name))); [discriminate|].
  apply (proj1 (Forall_forall _ _) (merged_nonempty (p :: ps) Hok) _ Hin).
Qed.

Lemma sections_nonempty (sections : list (str * str)) (all_chunks : list str) :
  Forall nonempty all_chunks ->
  Forall nonempty
         (fold_left (section_chunks tiktoken config) sections all_chunks).
Proof.
  revert all_chunks.
  induction sections as [|s sections IH]; intros all_chunks Hall; cbn.
  - exact Hall.
  - apply IH. now apply section_chunks_nonempty.
Qed.

Lemma overlap_nonempty (chunks : list str) :
  Forall nonempty chunks ->
  Forall nonempty (apply_overlap_sliding_window chunks config).
Proof.
  intros Hall.
  destruct (Z.leb_spec (overlap_tokens config) 0) as [Hle|Hlt].
  - unfold apply_overlap_sliding_window.
    destruct (Z.leb_spec (overlap_tokens config) 0); [|lia].
    now rewrite orb_true_r.
  - rewrite (apply_overlap_map _ _ Hlt).
    apply Forall_forall. intros c Hc. apply in_map_iff in Hc.
    destruct Hc as ([i chunk] & <- & Hin).
    apply in_combine_r in Hin.
    pose proof (proj1 (Forall_forall _ _) Hall _ Hin) as Hchunk.
    destruct i as [|i]; [exact Hchunk|].
    unfold overlapped_chunk, nonempty. intros H.
    apply app_eq_nil in H. destruct H as [_ H]. discriminate H.
Qed.

Lemma advanced_chunks_nonempty (preprocess_text : str -> str) (text : str) :
  Forall nonempty
         (advanced_chunk_by_structure tiktoken preprocess_text text config).
Proof.
  unfold advanced_chunk_by_structure.
  destruct (negb (truthy text)); [constructor|].
  set (sections := split_into_sections _ _).
  pose proof (sections_nonempty sections [] (Forall_nil _)) as Hsec.
  set (all_chunks := fold_left _ sections []) in *.
  assert (Hall : Forall nonempty
            match all_chunks with
            | _ :: _ => all_chunks
            | [] =>
                match split_into_paragraphs (preprocess_text text) with
                | [] => all_chunks
                | paragraphs =>
                    merge_paragraphs_semantically tiktoken paragraphs config
                end
            end).
  { destruct all_chunks as [|c cs]; [|exact Hsec].
    pose proof (split_into_paragraphs_ok (preprocess_text text)) as Hok.
    destruct (split_into_paragraphs (preprocess_text text));
      [constructor|now apply merged_nonempty]. }
  match goal with
  | |- Forall _ (if ?b then _ else _) => destruct b
  end; [now apply overlap_nonempty|exact Hall].
Qed.

End NonEmpty.

Section CoarseNonEmpty.

Variable tiktoken : option (str -> option (str -> list Z)).
Variables min_chars max_chars min_tokens max_tokens : Z.
Variable model : str.

Lemma coarse_fold_nonempty (chunks final out : list str) :
  Forall (fun c => c <> []) chunks ->
  Forall (fun c => c <> []) final ->
  fold_left (coarse_step tiktoken min_chars max_chars min_tokens max_tokens
                         model) chunks (Some final) = Some out ->
  Forall (fun c => c <> []) out.
Proof.
  intros Hchunks. revert final.
  induction Hchunks as [|c chunks Hc _ IH]; intros final Hfinal Hfold.
  - injection Hfold as <-. exact Hfinal.
  - cbn [fold_left] in Hfold.
    destruct (coarse_step tiktoken min_chars max_chars min_tokens max_tokens
                          model (Some final) c) as [final'|] eqn:Hstep;
      [|rewrite coarse_fold_none in Hfold; discriminate].
    apply (IH final'); [|exact Hfold].
    unfold coarse_step in Hstep.
    destruct (_ && _ && _ && _).
    { injection Hstep as <-. apply Forall_app. split; [exact Hfinal|].
      now constructor. }
    destruct (Z.gtb_spec (len c) max_chars) as [Hbig|_].
    { destruct (chunk_text_with_overlap c max_chars 100) as [pieces|] eqn:Hp;
        [|discriminate].
      injection Hstep as <-. apply Forall_app. split; [exact Hfinal|].
      destruct (Z_le_gt_dec max_chars 100) as [Hle|Hgt].
      - rewrite chunk_text_with_overlap_loops in Hp;
          [discriminate|exact Hc|lia|lia].
      - unfold chunk_text_with_overlap in Hp.
        destruct c as [|a c]; [congruence|]. cbn [truthy negb] in Hp.
        assert (Hpos : 0 < max_chars) by lia.
        pose proof (chunk_loop_sizes (a :: c) max_chars 100 _ Hpos [] 0
                      pieces (Z.le_refl 0) (Forall_nil _) Hp) as Hsizes.
        eapply Forall_impl; [|exact Hsizes].
        intros w Hw ->. cbn in Hw. lia. }
    destruct ((len c <? min_chars)
              && match final with [] => false | _ :: _ => true end);
      [|injection Hstep as <-; exact Hfinal].
    injection Hstep as <-. unfold set_last.
    apply Forall_app. split.
    + apply Forall_forall. intros x Hx.
      apply (proj1 (Forall_forall _ _) Hfinal).
      destruct final as [|f final]; [destruct Hx|].
      revert Hx. generalize f. clear.
      induction final as [|y final IH]; intros f Hx; [destruct Hx|].
      cbn [removelast] in Hx. destruct Hx as [<-|Hx]; [now left|].
      right. now apply IH.
    + constructor; [|constructor]. intros H.
      apply app_eq_nil in H. destruct H as [_ H]. discriminate H.
Qed.

End CoarseNonEmpty.

(** X20. No chunk that [create_coarse_chunks] returns is empty, and no
    chunk of [advanced_chunk_by_structure], from which it builds them:
    paragraphs are never empty, and merging, labelling, overlap and
    splitting keep a chunk non-empty. *)
Theorem coarse_chunks_nonempty
    (tiktoken : option (str -> option (str -> list Z)))
    (preprocess_text : str -> str) (text : str)
    (min_chars max_chars min_tokens max_tokens : Z) (out : list str) :
  create_coarse_chunks tiktoken preprocess_text text
                       min_chars max_chars min_tokens max_tokens = Some out ->
  Forall (fun c => c <> []) out
  /\ Forall (fun c => c <> [])
            (advanced_chunk_by_structure tiktoken preprocess_text text
               (coarse_config min_tokens max_tokens)).
Proof.
  intros Hout.
  pose proof (advanced_chunks_nonempty tiktoken
                (coarse_config min_tokens max_tokens) preprocess_text text)
    as Hadv.
  split; [|exact Hadv].
  unfold create_coarse_chunks in Hout.
  destruct (negb (truthy text)); [injection Hout as <-; constructor|].
  apply (coarse_fold_nonempty tiktoken min_chars max_chars min_tokens
           max_tokens _ _ [] out Hadv (Forall_nil _) Hout).
Qed.

Lemma coarse_chunks_nonempty_witness :
  Forall (fun c => c <> [])
         [py "[Unknown]" ++ [nl; nl] ++ py "Hello world."].
Proof.
  apply (coarse_chunks_nonempty None (fun t => t) (py "Hello world.")
           1 1000 1 1000).
  vm_compute. reflexivity.
Defined.

(* ================================================================= *)
(** ** The ingestion *)

Section Dictionaries.

Lemma lookup_set_item_same (d : pydict) (key : str) (v : pyval) :
  lookup (set_item d key v) key = Some v.
Proof.
  induction d as [|[k w] d IH]; cbn [set_item lookup].
  - now rewrite (proj2 (str_eqb_eq key key) eq_refl).
  - destruct (str_eqb k key) eqn:Hk; cbn [lookup]; now rewrite Hk.
Qed.

Lemma lookup_set_item_other (d : pydict) (key key' : str) (v : pyval) :
  key <> key' -> lookup (set_item d key v) key' = lookup d key'.
Proof.
  intros Hne.
  assert (Hkey : str_eqb key key' = false).
  { destruct (str_eqb key key') eqn:H; [|reflexivity].
    apply str_eqb_eq in H. contradiction. }
  induction d as [|[k w] d IH]; cbn [set_item lookup].
  - now rewrite Hkey.
  - destruct (str_eqb k key) eqn:Hk; cbn [lookup].
    + apply str_eqb_eq in Hk. subst k. now rewrite Hkey.
    + now rewrite IH.
Qed.

Lemma lookup_filter_not_none (d : pydict) (key : str) (v : pyval) :
  lookup d key = Some v -> v <> VNone ->
  lookup (filter not_none d) key = Some v.
Proof.
  intros Hl Hv. induction d as [|[k w] d IH]; [discriminate|].
  cbn [lookup] in Hl. cbn [filter].
  destruct (str_eqb k key) eqn:Hk.
  - injection Hl as ->. unfold not_none at 1. cbn [snd].
    destruct v; try congruence; cbn [lookup]; now rewrite Hk.
  - destruct (not_none (k, w)); [cbn [lookup]; rewrite Hk|]; now apply IH.
Qed.

Lemma filter_not_none (d : pydict) : no_none (filter not_none d).
Proof.
  apply Forall_forall. intros kv Hkv. apply filter_In in Hkv.
  destruct Hkv as [_ H]. unfold not_none in H. intros Heq.
  now rewrite Heq in H.
Qed.

End Dictionaries.

Ltac distinct_keys := intros Hkeys; vm_compute in Hkeys; discriminate Hkeys.

Section IngestFacts.

Variable repr_list : list str -> str.
Variable uuid4 : nat -> str.
Variable collection_add : bool -> AddCall -> bool.
Variable tiktoken : option (str -> option (str -> list Z)).
Variable preprocess_text : str -> str.
Variables FINE_CHUNK_MIN_CHARS FINE_CHUNK_MAX_CHARS : Z.
Variables FINE_CHUNK_MIN_SENTENCES FINE_CHUNK_MAX_SENTENCES : Z.
Variables COARSE_CHUNK_MIN_CHARS COARSE_CHUNK_MAX_CHARS : Z.
Variables COARSE_CHUNK_MIN_TOKENS COARSE_CHUNK_MAX_TOKENS : Z.

Let add := add_texts_to_collection uuid4 collection_add.
Let ingest :=
  ingest_paper_text repr_list uuid4 collection_add tiktoken preprocess_text
    FINE_CHUNK_MIN_CHARS FINE_CHUNK_MAX_CHARS
    FINE_CHUNK_MIN_SENTENCES FINE_CHUNK_MAX_SENTENCES
    COARSE_CHUNK_MIN_CHARS COARSE_CHUNK_MAX_CHARS
    COARSE_CHUNK_MIN_TOKENS COARSE_CHUNK_MAX_TOKENS.

(** What a call of [add_texts_to_collection] does to the store. *)
Lemma add_texts_cases (st : Store) (texts : list str)
    (metadatas : option (list pydict)) (name : str) :
  let r := add st texts metadatas name in
  (fst r = false
   /\ fine_added (snd r) = fine_added st
   /\ coarse_added (snd r) = coarse_added st)
  \/ (fst r = true
      /\ filter truthy texts <> []
      /\ exists ids,
           length ids = length (filter truthy texts)
           /\ let call :=
                {| call_documents := filter truthy texts;
                   call_ids := ids;
                   call_metadatas :=
                     sent_metadatas metadatas (filter truthy texts) |} in
              if str_eqb name (py "fine")
              then fine_added (snd r) = fine_added st ++ [call]
                   /\ coarse_added (snd r) = coarse_added st
              else fine_added (snd r) = fine_added st
                   /\ coarse_added (snd r) = coarse_added st ++ [call]).
Proof.
  unfold add, add_texts_to_collection.
  destruct texts as [|t texts]; [left; now repeat split|].
  destruct (filter truthy (t :: texts)) as [|c clean] eqn:Hclean;
    [left; now repeat split|].
  fold (sent_metadatas metadatas (c :: clean)).
  fold not_none.
  match goal with
  | |- context [collection_add ?f ?call] =>
      destruct (collection_add f call)
  end; [|left; now repeat split].
  right. split; [reflexivity|]. split; [discriminate|].
  exists (map uuid4 (seq (drawn st) (length (c :: clean)))).
  split; [now rewrite length_map, length_seq|].
  cbn zeta. destruct (str_eqb name (py "fine")); now split.
Qed.

Lemma filter_truthy_nonempty (chunks : list str) :
  Forall (fun c => c <> []) chunks -> filter truthy chunks = chunks.
Proof.
  induction 1 as [|c chunks Hc _ IH]; [reflexivity|].
  cbn [filter]. apply truthy_true in Hc. now rewrite Hc, IH.
Qed.

Lemma fine_chunks_nonempty (text : str)
    (min_chars max_chars min_sentences max_sentences : Z) :
  Forall (fun c => c <> [])
         (create_fine_chunks text min_chars max_chars
                             min_sentences max_sentences).
Proof.
  rewrite create_fine_chunks_loop.
  destruct (fine_chunks_of_groups min_chars max_chars min_sentences
              max_sentences (sentences_of text) (sentences_of_ok text))
    as (groups & Hcat & -> & Hok).
  apply Forall_forall. intros c Hc. unfold kept_chunks in Hc.
  apply in_map_iff in Hc. destruct Hc as (g & <- & Hg).
  apply filter_In in Hg. destruct Hg as [Hg _].
  destruct (proj1 (Forall_forall _ _) Hok g Hg) as (Hne & _).
  apply join_nonempty; [|exact Hne].
  apply Forall_forall. intros s Hs.
  assert (Hin : In s (sentences_of text)).
  { rewrite <- Hcat. apply in_concat. exists (fst g).
    split; [now apply in_map|exact Hs]. }
  apply (proj1 (Forall_forall _ _) (sentences_of_ok text) s Hin).
Qed.

Lemma chunk_metadatas_map (paper_metadata : pydict) (key : pyval)
    (bibtex chunk_type : str) (chunks : list str) :
  chunk_metadatas paper_metadata key bibtex chunk_type chunks
  = map (fun '(i, chunk) =>
           chunk_metadata paper_metadata key bibtex chunk_type chunks i chunk)
        (combine (seq 0 (length chunks)) chunks).
Proof.
  unfold chunk_metadatas.
  apply (fold_left_snoc_map _
           (fun p : nat * str =>
              let '(i, chunk) := p in
              chunk_metadata paper_metadata key bibtex chunk_type chunks
                             i chunk)).
  now intros acc [i chunk].
Qed.

Lemma chunk_metadata_fields (paper_metadata : pydict) (key : pyval)
    (bibtex chunk_type : str) (chunks : list str) (i : nat) (chunk : str) :
  key <> VNone ->
  let md := filter not_none
              (chunk_metadata paper_metadata key bibtex chunk_type chunks
                              i chunk) in
  lookup md (py "chunk_index") = Some (VInt (Z.of_nat i))
  /\ lookup md (py "total_chunks") = Some (VInt (Z.of_nat (length chunks)))
  /\ lookup md (py "chunk_length") = Some (VInt (len chunk))
  /\ lookup md (py "chunk_type") = Some (VStr chunk_type)
  /\ (exists key bibtex,
        key <> VNone
        /\ lookup md (py "citation_key") = Some key
        /\ lookup md (py "bibtex") = Some (VStr bibtex))
  /\ no_none md.
Proof.
  intros Hkey md. subst md. unfold chunk_metadata, update.
  cbn [fold_left].
  repeat split;
    try (apply lookup_filter_not_none; [|discriminate]);
    repeat first
      [ apply lookup_set_item_same
      | rewrite lookup_set_item_other by distinct_keys ].
  - exists key, bibtex. split; [exact Hkey|]. split.
    + apply lookup_filter_not_none; [|exact Hkey].
      repeat first
        [ apply lookup_set_item_same
        | rewrite lookup_set_item_other by distinct_keys ].
    + apply lookup_filter_not_none; [|discriminate].
      repeat first
        [ apply lookup_set_item_same
        | rewrite lookup_set_item_other by distinct_keys ].
  - apply filter_not_none.
Qed.

Lemma citation_key_not_none (title authors year arxiv_id key : pyval) :
  citation_key_of repr_list title authors year arxiv_id = Some key ->
  key <> VNone.
Proof.
  unfold citation_key_of. intros H.
  destruct (if py_bool authors then _ else _) as [[|]|]; [| |discriminate].
  - destruct (item0 authors) as [first|]; [|discriminate].
    destruct (rev (split_ws first)) as [|first_author ?]; [discriminate|].
    destruct title as [|t| |]; try discriminate.
    destruct (split_ws t) as [|word ?]; [discriminate|].
    injection H as <-. discriminate.
  - destruct (py_bool arxiv_id) eqn:Hx.
    + injection H as <-. intros ->. discriminate Hx.
    + destruct title; try discriminate. injection H as <-. discriminate.
Qed.

(** The call that [ingest_paper_text] makes for the chunks of one type
    is aligned with them. *)
Lemma ingest_call_aligned (paper_metadata : pydict) (key : pyval)
    (bibtex chunk_type : str) (chunks ids : list str) :
  key <> VNone ->
  Forall (fun c => c <> []) chunks ->
  length ids = length (filter truthy chunks) ->
  aligned chunk_type chunks
    {| call_documents := filter truthy chunks;
       call_ids := ids;
       call_metadatas :=
         sent_metadatas
           (Some (chunk_metadatas paper_metadata key bibtex chunk_type
                                  chunks))
           (filter truthy chunks) |}.
Proof.
  intros Hkey Hne Hids. rewrite (filter_truthy_nonempty chunks Hne) in *.
  unfold aligned, sent_metadatas. cbn [call_documents call_ids call_metadatas].
  rewrite chunk_metadatas_map.
  split; [reflexivity|]. split; [exact Hids|]. split.
  - now rewrite !length_map, length_enumerate.
  - intros i md chunk Hmd Hchunk.
    rewrite !nth_error_map, nth_error_enumerate, Hchunk in Hmd.
    cbn in Hmd. injection Hmd as <-.
    now apply chunk_metadata_fields.
Qed.

(** The runs of [ingest_paper_text] that return. *)
Lemma ingest_cases (st : Store) (text : str) (paper_metadata : pydict)
    (ok : bool) (st' : Store) :
  ingest st text paper_metadata = Some (ok, st') ->
  (ok = false /\ st' = st)
  \/ exists key bibtex coarse_chunks,
       key <> VNone
       /\ create_coarse_chunks tiktoken preprocess_text text
            COARSE_CHUNK_MIN_CHARS COARSE_CHUNK_MAX_CHARS
            COARSE_CHUNK_MIN_TOKENS COARSE_CHUNK_MAX_TOKENS
          = Some coarse_chunks
       /\ let fine_chunks :=
            create_fine_chunks text FINE_CHUNK_MIN_CHARS FINE_CHUNK_MAX_CHARS
              FINE_CHUNK_MIN_SENTENCES FINE_CHUNK_MAX_SENTENCES in
          let r1 :=
            add st fine_chunks
              (Some (chunk_metadatas paper_metadata key bibtex (py "fine")
                                     fine_chunks)) (py "fine") in
          let r2 :=
            add (snd r1) coarse_chunks
              (Some (chunk_metadatas paper_metadata key bibtex (py "coarse")
                                     coarse_chunks)) (py "coarse") in
          ok = fst r1 && fst r2 /\ st' = snd r2.
Proof.
  unfold ingest, ingest_paper_text. intros H.
  destruct (citation_key_of _ _ _ _ _) as [key|] eqn:Hkey;
    [|injection H as <- <-; now left].
  apply citation_key_not_none in Hkey.
  destruct (bibtex_of _ _ _ _ _ _ _) as [bibtex|];
    [|injection H as <- <-; now left].
  destruct (create_coarse_chunks _ _ _ _ _ _ _) as [coarse_chunks|] eqn:Hc;
    [|discriminate].
  set (fine_chunks := create_fine_chunks _ _ _ _ _) in *.
  assert (Hrun :
    (let '(fine_success, st0) :=
       add_texts_to_collection uuid4 collection_add st fine_chunks
         (Some (chunk_metadatas paper_metadata key bibtex (py "fine")
                                fine_chunks)) (py "fine") in
     let '(coarse_success, st1) :=
       add_texts_to_collection uuid4 collection_add st0 coarse_chunks
         (Some (chunk_metadatas paper_metadata key bibtex (py "coarse")
                                coarse_chunks)) (py "coarse") in
     Some (fine_success && coarse_success, st1)) = Some (ok, st') ->
    exists key bibtex coarse_chunks0,
      key <> VNone
      /\ Some coarse_chunks = Some coarse_chunks0
      /\ let r1 :=
           add st fine_chunks
             (Some (chunk_metadatas paper_metadata key bibtex (py "fine")
                                    fine_chunks)) (py "fine") in
         let r2 :=
           add (snd r1) coarse_chunks0
             (Some (chunk_metadatas paper_metadata key bibtex (py "coarse")
                                    coarse_chunks0)) (py "coarse") in
         ok = fst r1 && fst r2 /\ st' = snd r2).
  { intros Hr. exists key, bibtex, coarse_chunks.
    split; [exact Hkey|]. split; [reflexivity|]. cbn zeta. unfold add.
    destruct (add_texts_to_collection uuid4 collection_add st fine_chunks _ _)
      as [fs st0].
    cbn [fst snd].
    destruct (add_texts_to_collection uuid4 collection_add st0
                coarse_chunks _ _) as [cs st1].
    cbn [fst snd]. injection Hr as <- <-. now split. }
  destruct fine_chunks as [|f fine] eqn:Hfine.
  - destruct coarse_chunks as [|c coarse];
      [injection H as <- <-; now left|].
    right. apply Hrun, H.
  - right. apply Hrun, H.
Qed.

End IngestFacts.

Section IngestTheorems.

Variable repr_list : list str -> str.
Variable uuid4 : nat -> str.
Variable collection_add : bool -> AddCall -> bool.
Variable tiktoken : option (str -> option (str -> list Z)).
Variable preprocess_text : str -> str.
Variables FINE_CHUNK_MIN_CHARS FINE_CHUNK_MAX_CHARS : Z.
Variables FINE_CHUNK_MIN_SENTENCES FINE_CHUNK_MAX_SENTENCES : Z.
Variables COARSE_CHUNK_MIN_CHARS COARSE_CHUNK_MAX_CHARS : Z.
Variables COARSE_CHUNK_MIN_TOKENS COARSE_CHUNK_MAX_TOKENS : Z.


(** X21. [add_texts_to_collection] changes no collection when it returns
    [False].  When it returns [True] it has made one call, to the named
    collection, the coarse one for every name but [fine]: the call holds
    the non-empty texts in order, an identifier for each, and metadata
    without a [None] value.  The metadata are not filtered with the
    texts: there are as many as were given. *)
Theorem add_texts_to_collection_outcome (st : Store) (texts : list str)
    (metadatas : option (list pydict)) (name : str) :
  let r := add_texts_to_collection uuid4 collection_add st texts metadatas
                                   name in
  (fst r = false ->
   fine_added (snd r) = fine_added st
   /\ coarse_added (snd r) = coarse_added st)
  /\ (fst r = true ->
      exists call,
        call_documents call = filter truthy texts
        /\ call_documents call <> []
        /\ length (call_ids call) = length (call_documents call)
        /\ Forall no_none (call_metadatas call)
        /\ (forall given, metadatas = Some given ->
                          length (call_metadatas call) = length given)
        /\ (metadatas = None ->
            length (call_metadatas call) = length (call_documents call))
        /\ if str_eqb name (py "fine")
           then fine_added (snd r) = fine_added st ++ [call]
                /\ coarse_added (snd r) = coarse_added st
           else fine_added (snd r) = fine_added st
                /\ coarse_added (snd r) = coarse_added st ++ [call]).
Proof.
  intros r.
  destruct (add_texts_cases uuid4 collection_add st texts metadatas name)
    as [(Hr & Hfine & Hcoarse)|(Hr & Hne & ids & Hids & Hcall)];
    fold r in Hr |- *.
  - split; [intros _; now split|]. intros H. congruence.
  - split; [intros H; congruence|]. intros _. cbn zeta in Hcall.
    exists {| call_documents := filter truthy texts;
              call_ids := ids;
              call_metadatas :=
                sent_metadatas metadatas (filter truthy texts) |}.
    cbn [call_documents call_ids call_metadatas].
    split; [reflexivity|]. split; [exact Hne|]. split; [exact Hids|].
    split; [|split; [|split; [|exact Hcall]]].
    + unfold sent_metadatas. apply Forall_forall. intros md Hmd.
      apply in_map_iff in Hmd. destruct Hmd as (d & <- & _).
      apply filter_not_none.
    + intros given ->. unfold sent_metadatas. now rewrite length_map.
    + intros ->. unfold sent_metadatas. now rewrite !length_map.
Qed.

(** X22. Every call that [ingest_paper_text] makes is aligned with its
    chunks: at most one call to each collection, holding the fine, or
    the coarse, chunks as they are, none dropped as empty, with one
    identifier and one metadata dictionary for each chunk, which tells
    the chunk's index, the number of chunks, its length and its type,
    and holds a citation key and a BibTeX entry and no [None] value. *)
Theorem ingest_paper_text_calls_aligned (st : Store) (text : str)
    (paper_metadata : pydict) (ok : bool) (st' : Store) :
  ingest_paper_text repr_list uuid4 collection_add tiktoken preprocess_text
    FINE_CHUNK_MIN_CHARS FINE_CHUNK_MAX_CHARS
    FINE_CHUNK_MIN_SENTENCES FINE_CHUNK_MAX_SENTENCES
    COARSE_CHUNK_MIN_CHARS COARSE_CHUNK_MAX_CHARS
    COARSE_CHUNK_MIN_TOKENS COARSE_CHUNK_MAX_TOKENS
    st text paper_metadata = Some (ok, st') ->
  exists new_fine new_coarse,
    fine_added st' = fine_added st ++ new_fine
    /\ coarse_added st' = coarse_added st ++ new_coarse
    /\ (length new_fine <= 1)%nat /\ (length new_coarse <= 1)%nat
    /\ Forall (aligned (py "fine")
                 (create_fine_chunks text
                    FINE_CHUNK_MIN_CHARS FINE_CHUNK_MAX_CHARS
                    FINE_CHUNK_MIN_SENTENCES FINE_CHUNK_MAX_SENTENCES))
              new_fine
    /\ match create_coarse_chunks tiktoken preprocess_text text
                COARSE_CHUNK_MIN_CHARS COARSE_CHUNK_MAX_CHARS
                COARSE_CHUNK_MIN_TOKENS COARSE_CHUNK_MAX_TOKENS with
       | Some coarse_chunks =>
           Forall (aligned (py "coarse") coarse_chunks) new_coarse
       | None => new_coarse = []
       end.
Proof.
  intros Hrun.
  destruct (ingest_cases repr_list uuid4 collection_add tiktoken
              preprocess_text _ _ _ _ _ _ _ _ st text paper_metadata ok st'
              Hrun)
    as [[_ ->]|(key & bibtex & coarse_chunks & Hkey & Hcoarse & Hok & ->)].
  - exists [], []. rewrite !app_nil_r.
    repeat split; try (cbn; lia); try constructor.
    destruct (create_coarse_chunks _ _ _ _ _ _ _); [constructor|reflexivity].
  - rewrite Hcoarse. clear Hok.
    set (fine_chunks := create_fine_chunks _ _ _ _ _).
    pose proof (fine_chunks_nonempty text FINE_CHUNK_MIN_CHARS
                  FINE_CHUNK_MAX_CHARS FINE_CHUNK_MIN_SENTENCES
                  FINE_CHUNK_MAX_SENTENCES) as Hfine_ne.
    fold fine_chunks in Hfine_ne.
    assert (Hcoarse_ne : Forall (fun c => c <> []) coarse_chunks).
    { unfold create_coarse_chunks in Hcoarse.
      destruct (negb (truthy text)); [injection Hcoarse as <-; constructor|].
      apply (coarse_fold_nonempty tiktoken _ _ _ _ _ _ [] coarse_chunks
               (advanced_chunks_nonempty tiktoken _ preprocess_text text)
               (Forall_nil _) Hcoarse). }
    set (md1 := Some (chunk_metadatas paper_metadata key bibtex (py "fine")
                                      fine_chunks)).
    set (md2 := Some (chunk_metadatas paper_metadata key bibtex (py "coarse")
                                      coarse_chunks)).
    destruct (add_texts_cases uuid4 collection_add st fine_chunks md1
                (py "fine")) as [(_ & Hf1 & Hc1)|(_ & _ & ids1 & Hids1 & H1)];
      cbn zeta in *;
      [|change (str_eqb (py "fine") (py "fine")) with true in H1;
        cbv iota in H1; destruct H1 as [Hf1 Hc1]];
      set (st1 := snd (add_texts_to_collection uuid4 collection_add st
                         fine_chunks md1 (py "fine"))) in *;
      (destruct (add_texts_cases uuid4 collection_add st1 coarse_chunks md2
                   (py "coarse"))
        as [(_ & Hf2 & Hc2)|(_ & _ & ids2 & Hids2 & H2)];
       cbn zeta in *;
       [|change (str_eqb (py "coarse") (py "fine")) with false in H2;
         cbv iota in H2; destruct H2 as [Hf2 Hc2]];
       rewrite Hf2, Hc2, Hf1, Hc1).
    + exists [], []. rewrite !app_nil_r.
      repeat split; try (cbn; lia); constructor.
    + eexists [], [_]. rewrite app_nil_r.
      repeat split; try (cbn; lia); [constructor|].
      constructor; [|constructor].
      now apply ingest_call_aligned.
    + eexists [_], []. rewrite app_nil_r.
      repeat split; try (cbn; lia); [|constructor].
      constructor; [|constructor].
      now apply ingest_call_aligned.
    + eexists [_], [_].
      repeat split; try (cbn; lia);
        (constructor; [|constructor]); now apply ingest_call_aligned.
Qed.


(** X24. Metadata whose [authors] are [None], as the ingestion route
    builds them when arXiv knows no such paper, make
    [ingest_paper_text] return [False] without a call to a collection,
    whatever the text is. *)
Theorem ingest_paper_text_without_authors (st : Store) (text : str)
    (paper_metadata : pydict) :
  lookup paper_metadata (py "authors") = Some VNone ->
  ingest_paper_text repr_list uuid4 collection_add tiktoken preprocess_text
    FINE_CHUNK_MIN_CHARS FINE_CHUNK_MAX_CHARS
    FINE_CHUNK_MIN_SENTENCES FINE_CHUNK_MAX_SENTENCES
    COARSE_CHUNK_MIN_CHARS COARSE_CHUNK_MAX_CHARS
    COARSE_CHUNK_MIN_TOKENS COARSE_CHUNK_MAX_TOKENS
    st text paper_metadata = Some (false, st).
Proof.
  intros Hauthors. unfold ingest_paper_text.
  assert (Hget : get paper_metadata (py "authors") (VList [py "Unknown"])
                 = VNone) by (unfold get; now rewrite Hauthors).
  rewrite Hget. unfold citation_key_of, bibtex_of. cbn [py_bool join_and].
  destruct (py_bool (get paper_metadata (py "arxiv_id") VNone));
    [reflexivity|].
  destruct (get paper_metadata (py "title") (VStr (py "Unknown Title")));
    reflexivity.
Qed.

(** X25. A paper whose metadata name no title, no authors and no arXiv
    identifier, as those of every paper ingested from a plain address,
    gets the citation key [Unknown_Title] and a [@misc] entry under that
    key, whatever its other metadata are. *)
Theorem citation_key_without_title (paper_metadata : pydict) :
  lookup paper_metadata (py "title") = None ->
  lookup paper_metadata (py "authors") = None ->
  lookup paper_metadata (py "arxiv_id") = None ->
  let title := get paper_metadata (py "title") (VStr (py "Unknown Title")) in
  let authors := get paper_metadata (py "authors") (VList [py "Unknown"]) in
  let year := get paper_metadata (py "year") (VStr (py "xxxx")) in
  let arxiv_id := get paper_metadata (py "arxiv_id") VNone in
  citation_key_of repr_list title authors year arxiv_id
  = Some (VStr (py "Unknown_Title"))
  /\ exists fields,
       bibtex_of repr_list paper_metadata (VStr (py "Unknown_Title"))
                 title authors year arxiv_id
       = Some (py "@misc{Unknown_Title," ++ fields).
Proof.
  intros Htitle Hauthors Harxiv. unfold get.
  rewrite Htitle, Hauthors, Harxiv. cbn zeta. split.
  - unfold citation_key_of. cbn [py_bool item0].
    change (neq_str (VStr (py "Unknown")) (py "Unknown")) with false.
    cbn [andb py_bool]. reflexivity.
  - unfold bibtex_of. cbn [join_and py_bool format]. eexists. reflexivity.
Qed.

End IngestTheorems.

Lemma ingest_paper_text_calls_aligned_witness :
  exists new_fine new_coarse,
    fine_added (snd demo_outcome) = fine_added demo_store ++ new_fine
    /\ coarse_added (snd demo_outcome) = coarse_added demo_store ++ new_coarse
    /\ (length new_fine <= 1)%nat /\ (length new_coarse <= 1)%nat
    /\ Forall (aligned (py "fine") (create_fine_chunks demo_text 5 500 1 3))
              new_fine
    /\ match create_coarse_chunks None (fun t => t) demo_text
                1 1000 1 1000 with
       | Some coarse_chunks =>
           Forall (aligned (py "coarse") coarse_chunks) new_coarse
       | None => new_coarse = []
       end.
Proof.
  apply (ingest_paper_text_calls_aligned (fun _ => [])
           (fun n => str_of_int (Z.of_nat n)) (fun _ _ => true) None
           (fun t => t) 5 500 1 3 1 1000 1 1000
           demo_store demo_text demo_paper
           (fst demo_outcome) (snd demo_outcome)).
  vm_compute. reflexivity.
Defined.


Lemma ingest_paper_text_without_authors_witness :
  demo_ingest 5 demo_text demo_paper_unknown = Some (false, demo_store).
Proof.
  apply (ingest_paper_text_without_authors (fun _ => [])
           (fun n => str_of_int (Z.of_nat n)) (fun _ _ => true) None
           (fun t => t) 5 500 1 3 1 1000 1 1000
           demo_store demo_text demo_paper_unknown).
  reflexivity.
Defined.

Lemma citation_key_without_title_witness :
  citation_key_of (fun _ => [])
    (get demo_paper_url (py "title") (VStr (py "Unknown Title")))
    (get demo_paper_url (py "authors") (VList [py "Unknown"]))
    (get demo_paper_url (py "year") (VStr (py "xxxx")))
    (get demo_paper_url (py "arxiv_id") VNone)
  = Some (VStr (py "Unknown_Title")).
Proof.
  apply (citation_key_without_title (fun _ => []) demo_paper_url);
    reflexivity.
Defined.

(** The ingestion of a short text with the usual minimum of 300
    characters for a fine chunk: no fine chunk, one coarse chunk, which
    is added, and the answer is [False]. *)
Example ingest_reports_failure_after_adding :
  match demo_ingest 300 demo_text demo_paper with
  | Some (ok, st) =>
      ok = false /\ fine_added st = []
      /\ map call_documents (coarse_added st)
         = [[py "[Unknown]" ++ [nl; nl] ++ demo_text]]
  | None => False
  end.
Proof. vm_compute. repeat split. Qed.

(** A text among [texts] that is empty is left out of the documents, its
    metadata are not: the call has two documents and three metadata
    dictionaries. *)
Example add_texts_drops_empty_text_only :
  let r := add_texts_to_collection (fun n => str_of_int (Z.of_nat n))
             (fun _ _ => true) demo_store [py "a"; []; py "b"]
             (Some [[(py "n", VInt 0)]; [(py "n", VInt 1)];
                    [(py "n", VInt 2)]])
             (py "fine") in
  fst r = true
  /\ map (fun call => (length (call_documents call),
                       length (call_ids call),
                       length (call_metadatas call)))
         (fine_added (snd r))
     = [(2, 2, 3)%nat].
Proof. vm_compute. split; reflexivity. Qed.

(** The citation key of an arXiv paper. *)
Example ingest_citation_demo :
  option_map
    (fun r => map (fun md => lookup md (py "citation_key"))
                  (concat (map call_metadatas (fine_added (snd r)))))
    (demo_ingest 5 demo_text demo_paper)
  = Some [Some (VStr (py "lovelace2023deep"))].
Proof. vm_compute. reflexivity. Qed.

(* ================================================================= *)
(** ** The paragraphs of the merged chunks *)

Section MergePartition.

Variable tiktoken : option (str -> option (str -> list Z)).
Variable config : ChunkingConfig.

Let ct (c : str) : Z := count_tokens tiktoken c (tokenizer_model config).
Let sep : str := [nl; nl].









End MergePartition.


